(** * VisionAssistant: the scene-salience and narration core of [app.py]

    A shallow embedding of the decision logic of [app.py] (ranking of
    detections, choice of the objects to narrate, qualitative descriptors,
    sentence composition and the anti-repeat speech gate), and the
    properties its specification states about it.

    Numbers are modelled as the program has them.  A Python [float] is an
    IEEE-754 binary64 value, here Rocq's primitive [float] with the same
    operations and the same rounding; a Python [int] is unbounded, here [Z].
    Python operations that can raise are functions into [result].

    Two things are the platform's and not the program's: C's [pow], which
    [**] on floats calls and which is not correctly rounded, and the order
    in which [sorted] leaves elements whose keys do not compare ([nan]).
    Both are parameters ([Runtime]); what is assumed of them is stated once
    ([Conforms]). *)

From Stdlib Require Import ZArith List Bool Lia Floats Sorted Permutation.
From stdpp Require Import base gmap sets list strings pretty.

Set Warnings "-inexact-float".
Local Open Scope string_scope.

(** ** Python runtime: exceptions *)

(** The exceptions the arithmetic of the core can raise.  [ComplexValue] is
    not a Python exception: it marks the one place where CPython would leave
    the floats (a negative number raised to the power [0.5] is a [complex]);
    [score_stays_real] shows that the core never gets there. *)
Inductive exn : Set :=
  | OverflowError
  | ZeroDivisionError
  | ComplexValue.

Inductive result (A : Type) : Type :=
  | Ok (a : A)
  | Raise (e : exn).
Arguments Ok {A} a.
Arguments Raise {A} e.

#[global] Instance result_ret : MRet result := fun A a => Ok a.
#[global] Instance result_bind : MBind result := fun A B f c =>
  match c with
  | Ok a => f a
  | Raise e => Raise e
  end.

Definition returns {A} (c : result A) : Prop := exists a, c = Ok a.

(** ** Python runtime: floats and ints *)

(** [max(a, b)] on two floats: CPython keeps the first argument unless the
    second compares strictly greater, so [max(0.0, nan)] is [0.0]. *)
Definition py_max (a b : float) : float :=
  if (a <? b)%float then b else a.

(** Rounding of the integer [m * 2^e] to the nearest binary64 value, ties to
    even; an integer beyond the range of the floats raises [OverflowError]
    (CPython: "int too large to convert to float"). *)
Definition round_int (m e : Z) : result float :=
  match binary_normalize prec emax m e false with
  | S754_infinity _ => Raise OverflowError
  | sf => Ok (SF2Prim sf)
  end.

(** The implicit conversion of an [int] operand in [float * int] and
    [float / int]. *)
Definition float_of_int (z : Z) : result float := round_int z 0.

(** [z / 2] on an [int]: true division of integers gives the correctly
    rounded quotient, and raises [OverflowError] when it is out of range. *)
Definition int_truediv2 (z : Z) : result float := round_int z (-1).

(** [a / b] on floats: a zero divisor (of either sign) raises. *)
Definition float_truediv (a b : float) : result float :=
  if (b =? 0)%float then Raise ZeroDivisionError else Ok (a / b)%float.

(** What the platform supplies: C's [pow] on doubles, which CPython calls
    for [**] on floats, and the list that [list.sort] leaves, here on the
    list of (key, element) pairs of [sorted(.., key=.., reverse=True)].
    An overflow of [pow] is read off its result, which is infinite; of the
    range errors that [pow] reports through [errno], glibc's are the
    overflow and the underflow to zero, and CPython drops the second. *)
Class Runtime := {
  libm_pow : float -> float -> float;
  list_sort : forall A : Type, list (float * A) -> list (float * A)
}.

(** [x ** 2] on a float, after CPython's [float_pow]: the special cases are
    settled first, then C's [pow] is called on [|x|], which is finite, above
    zero and not 1; a result out of range raises [OverflowError]. *)
Definition float_pow2 {R : Runtime} (x : float) : result float :=
  if is_nan x then Ok x
  else if is_infinity x then Ok infinity
  else if (x =? 0)%float then Ok 0%float
  else
    let a := abs x in
    if (a =? 1)%float then Ok 1%float
    else
      let r := libm_pow a 2 in
      if is_infinity r then Raise OverflowError else Ok r.

(** [x ** 0.5] on a float, after CPython's [float_pow]: C's [pow] is called
    on an [x] that is finite, above zero and not 1.  A negative [x] gives a
    [complex] in CPython. *)
Definition float_pow_half {R : Runtime} (x : float) : result float :=
  if is_nan x then Ok x
  else if is_infinity x then Ok infinity
  else if (x =? 0)%float then Ok 0%float
  else if (x <? 0)%float then Raise ComplexValue
  else if (x =? 1)%float then Ok 1%float
  else
    let r := libm_pow x 0.5 in
    if is_infinity r then Raise OverflowError else Ok r.

(** ** Python runtime: [sorted(l, key=key, reverse=True)] *)

Section Sorted.
Context {R : Runtime} {A : Type}.

(** The keys are computed first, once per element and in list order; the
    first key that raises ends the call. *)
Fixpoint decorate (key : A -> result float) (l : list A)
  : result (list (float * A)) :=
  match l with
  | [] => Ok []
  | x :: l' =>
      k ← key x;
      kl ← decorate key l';
      Ok ((k, x) :: kl)
  end.

(** The stable descending sort by insertion: an element moves past the
    elements that follow it only when their key is strictly greater, which
    is what keeps equal keys in input order.  Only [<] on the keys is used,
    as in CPython. *)
Fixpoint insert_desc (x : float * A) (l : list (float * A))
  : list (float * A) :=
  match l with
  | [] => [x]
  | y :: l' =>
      if (x.1 <? y.1)%float then y :: insert_desc x l'
      else x :: y :: l'
  end.

Fixpoint sort_desc (l : list (float * A)) : list (float * A) :=
  match l with
  | [] => []
  | x :: l' => insert_desc x (sort_desc l')
  end.

(** [sorted(l, key=key, reverse=True)]: the elements of the list that the
    platform's sort leaves.  It is [sort_desc] whenever [<] on the keys is a
    strict weak order, that is when no key is [nan] ([Conforms]); with a
    [nan] key CPython's merge strategy decides. *)
Definition sorted_desc (key : A -> result float) (l : list A)
  : result (list A) :=
  kl ← decorate key l;
  Ok (map snd (list_sort A kl)).
End Sorted.

(** ** Configuration tables *)

(** [DANGER]: classes considered potentially dangerous in daily navigation. *)
Definition DANGER : gset string :=
  {[ "car"; "bus"; "truck"; "motorcycle"; "bicycle" ]}.

(** [RU_LABELS]: human-friendly labels. *)
Definition RU_LABELS : gmap string string :=
  list_to_map
    [ ("person", "человек"); ("car", "машина"); ("bus", "автобус");
      ("truck", "грузовик"); ("motorcycle", "мотоцикл");
      ("bicycle", "велосипед"); ("traffic light", "светофор");
      ("stop sign", "знак стоп"); ("chair", "стул"); ("couch", "диван");
      ("bed", "кровать"); ("dining table", "стол"); ("laptop", "ноутбук");
      ("cell phone", "телефон"); ("tv", "телевизор"); ("bottle", "бутылка");
      ("cup", "кружка"); ("book", "книга"); ("backpack", "рюкзак");
      ("handbag", "сумка"); ("dog", "собака"); ("cat", "кот") ].

(** [RU_LABELS.get(x, x)] *)
Definition ru_label (x : string) : string := default x (RU_LABELS !! x).

(** ** Data *)

(** A detection, the dict [{"label": .., "conf": .., "bbox": (x1, y1, x2, y2)}]
    that [detect_from_image_bytes] builds. *)
Record detection : Set := Detection {
  label : string;
  conf : float;
  bbox : float * float * float * float
}.

(** The dict that [describe] returns. *)
Record descriptor : Set := Descriptor {
  name : string;
  pos : string;
  dist : string;
  danger : string
}.

(** The module-level dict [LAST = {"phrase": .., "time": ..}]. *)
Record gate : Set := Gate {
  last_phrase : string;
  last_time : float
}.

Definition LAST : gate := {| last_phrase := ""; last_time := 0.0 |}.

(** ** Anti-repeat gate *)

(** [should_speak(phrase, cooldown_sec)], with the clock reading [now] of
    [time.time()] and the dict [LAST] made explicit: the result is the
    returned boolean and the dict after the call. *)
Definition should_speak (phrase : string) (cooldown_sec now : float)
    (st : gate) : bool * gate :=
  if String.eqb phrase (last_phrase st)
     && (now - last_time st <? cooldown_sec)%float
  then (false, st)
  else (true, {| last_phrase := phrase; last_time := now |}).

(** ** Ranking *)

(** [1.35 if d["label"] in DANGER else 1.0] *)
Definition priority (l : string) : float :=
  if decide (l ∈ DANGER) then 1.35%float else 1.0%float.

(** [max(0.0, x2 - x1) * max(0.0, y2 - y1)] *)
Definition bbox_area (b : float * float * float * float) : float :=
  let '(x1, y1, x2, y2) := b in
  (py_max 0.0 (x2 - x1) * py_max 0.0 (y2 - y1))%float.

(** The part of the score that the label does not enter:
    [(0.6 * area + 0.4 * center_score * img_area) * d["conf"]]. *)
Definition weighted {R : Runtime} (cx_img cy_img : float) (img_area : Z)
    (d : detection) : result float :=
  let '(x1, y1, x2, y2) := bbox d in
  let area := bbox_area (bbox d) in
  let cx := ((x1 + x2) / 2)%float in
  let cy := ((y1 + y2) / 2)%float in
  dx2 ← float_pow2 (cx - cx_img);
  dy2 ← float_pow2 (cy - cy_img);
  dist ← float_pow_half (dx2 + dy2);
  center_score ← float_truediv 1.0 (1.0 + dist);
  ia ← float_of_int img_area;
  Ok ((0.6 * area + 0.4 * center_score * ia) * conf d)%float.

(** The local function [score] of [rank_objects]; [cx_img], [cy_img] and
    [img_area] are the variables it closes over. *)
Definition score {R : Runtime} (cx_img cy_img : float) (img_area : Z)
    (d : detection) : result float :=
  t ← weighted cx_img cy_img img_area d;
  Ok (t * priority (label d))%float.

Definition rank_objects {R : Runtime} (dets : list detection) (w h : Z)
    : result (list detection) :=
  match dets with
  | [] => Ok []
  | _ =>
      cx_img ← int_truediv2 w;
      cy_img ← int_truediv2 h;
      let img_area := Z.max (w * h) 1 in
      sorted_desc (score cx_img cy_img img_area) dets
  end.

(** The salience score of one detection in a [w] by [h] frame, as
    [rank_objects] computes it. *)
Definition salience {R : Runtime} (w h : Z) (d : detection) : result float :=
  cx_img ← int_truediv2 w;
  cy_img ← int_truediv2 h;
  score cx_img cy_img (Z.max (w * h) 1) d.

(** ** Selection *)

(** The loop of [pick_main_and_danger] over [ranked[1:]], left at the first
    detection with a dangerous label other than the main one. *)
Fixpoint first_danger (main_label : string) (rest : list detection)
    : option detection :=
  match rest with
  | [] => None
  | d :: rest' =>
      if bool_decide (label d ∈ DANGER) && negb (String.eqb (label d) main_label)
      then Some d
      else first_danger main_label rest'
  end.

Definition pick_main_and_danger (ranked : list detection) : list detection :=
  match ranked with
  | [] => []
  | main :: rest =>
      match first_danger (label main) rest with
      | Some danger_obj => [main; danger_obj]
      | None =>
          match rest with
          | second :: _ =>
              if (0.45 <=? conf second)%float then [main; second] else [main]
          | [] => [main]
          end
      end
  end.

(** ** Descriptors *)

Definition pos_word (cx : float) (w : Z) : result string :=
  m ← float_of_int (Z.max w 1);
  x ← float_truediv cx m;
  if (x <? 0.35)%float then Ok "слева"
  else if (0.65 <? x)%float then Ok "справа"
  else Ok "по центру".

Definition distance_word (area_ratio : float) : string :=
  if (0.22 <? area_ratio)%float then "очень близко"
  else if (0.10 <? area_ratio)%float then "близко"
  else if (0.04 <? area_ratio)%float then "на среднем расстоянии"
  else "далеко".

Definition danger_word (l : string) : string :=
  if decide (l ∈ DANGER) then "опасно" else "не опасно".

(** [area / max(w * h, 1)] of [describe]. *)
Definition area_ratio (obj : detection) (w h : Z) : result float :=
  m ← float_of_int (Z.max (w * h) 1);
  float_truediv (bbox_area (bbox obj)) m.

Definition describe (obj : detection) (w h : Z) : result descriptor :=
  let '(x1, y1, x2, y2) := bbox obj in
  let cx := ((x1 + x2) / 2)%float in
  r ← area_ratio obj w h;
  p ← pos_word cx w;
  Ok {| name := ru_label (label obj);
        pos := p;
        dist := distance_word r;
        danger := danger_word (label obj) |}.

(** ** Narration *)

Definition no_objects : string :=
  "Я не вижу уверенных объектов. Подойдите ближе или улучшите освещение.".

Definition make_phrase (objs : list detection) (w h : Z) : result string :=
  match objs with
  | [] => Ok no_objects
  | o1 :: objs' =>
      a ← describe o1 w h;
      let phrase :=
        "Перед вами " +:+ name a +:+ ", " +:+ pos a +:+ ", " +:+ dist a
          +:+ ". Это " +:+ danger a +:+ "." in
      match objs' with
      | o2 :: _ =>
          b ← describe o2 w h;
          let extra :=
            "Также " +:+ name b +:+ ", " +:+ pos b +:+ ", " +:+ dist b
              +:+ ". Это " +:+ danger b +:+ "." in
          Ok (phrase +:+ " " +:+ extra)
      | [] => Ok phrase
      end
  end.

(** The pipeline of [detect_from_image_bytes] after detection. *)
Definition narrate {R : Runtime} (dets : list detection) (w h : Z)
    : result string :=
  ranked ← rank_objects dets w h;
  make_phrase (pick_main_and_danger ranked) w h.

(** ** The service around the core *)

(** How a call of [gTTS(text, lang).save(path)] ends: the speech is in the
    file; or it raises before the file is opened; or it raises after the
    file was opened for writing, which leaves a file without the speech. *)
Inductive saving : Set :=
  | Saved
  | NothingWritten
  | FileSpoilt.

(** The collaborators of the service, which are not part of this program:
    the class names of the detector ([model.names]); the decoding of an
    upload and the detection on it ([Image.open(..).convert("RGB")],
    [img.size], [model.predict(..)[0].boxes]); Python's [round(x, 3)]; the
    clock, given by its successive readings ([time.time()]); and the speech
    service ([gTTS(text, lang).save(path)]), whose ending is given by the
    number of clock readings taken before the call and the text.  Failures
    of the detector are not modelled. *)
Class Externals := {
  names : Z -> string;
  vision : list Byte.byte -> Z * Z * option (list (Z * float * (float * float * float * float)));
  round3 : float -> float;
  clock : nat -> float;
  synthesis : nat -> string -> saving
}.

(** What the handlers can raise beside the exceptions of the core: [int(x)]
    on a [nan], and the failure of the speech service. *)
Inductive failure : Set :=
  | CoreFailure (e : exn)
  | ValueError
  | SynthesisError.

(** [int(x)] on a float: the integral part, towards zero; [inf] raises
    [OverflowError] and [nan] raises [ValueError]. *)
Definition int_of_float (x : float) : failure + Z :=
  match Prim2SF x with
  | S754_nan => inl ValueError
  | S754_infinity _ => inl (CoreFailure OverflowError)
  | S754_zero _ => inr 0%Z
  | S754_finite s m e => inr (cond_Zopp s (Z.shiftl (Zpos m) e))
  end.

(** The dict that [detect_from_image_bytes] returns. *)
Record payload : Set := Payload {
  phrase : string;
  detected_count : nat;
  picked : list (string * float)
}.

(** The loop of [detect_from_image_bytes] over [r.boxes], which may be
    [None]: a box is given by its class id, its confidence and its corners. *)
Definition detections {X : Externals}
    (boxes : option (list (Z * float * (float * float * float * float))))
    : list detection :=
  match boxes with
  | None => []
  | Some bs =>
      map (fun b : Z * float * (float * float * float * float) =>
             let '(cls_id, c, xyxy) := b in
             {| label := names cls_id; conf := c; bbox := xyxy |}) bs
  end.

Definition detect_from_image_bytes {R : Runtime} {X : Externals}
    (image_bytes : list Byte.byte) : result payload :=
  let '(w, h, boxes) := vision image_bytes in
  let dets := detections boxes in
  ranked ← rank_objects dets w h;
  let picked := pick_main_and_danger ranked in
  phrase ← make_phrase picked w h;
  Ok {| phrase := phrase;
        detected_count := length dets;
        picked := map (fun d => (label d, round3 (conf d))) picked |}.

(** The state of the process: the dict [LAST], the files under
    [static/audio] (file name to spoken text), and the number of clock
    readings taken so far. *)
Record world : Type := World {
  gate_of : gate;
  audio : gmap string string;
  ticks : nat
}.

(** [time.time()] *)
Definition time_time {X : Externals} (s : world) : float * world :=
  (clock (ticks s), {| gate_of := gate_of s; audio := audio s; ticks := S (ticks s) |}).

(** [should_speak(phrase, cooldown_sec)] as the handlers call it: it reads
    the clock and works on [LAST]. *)
Definition call_should_speak {X : Externals} (phrase : string) (cooldown_sec : float)
    (s : world) : bool * world :=
  let '(now, s1) := time_time s in
  let '(speak, g) := should_speak phrase cooldown_sec now (gate_of s1) in
  (speak, {| gate_of := g; audio := audio s1; ticks := ticks s1 |}).

(** [speak_ru(text)]: the file is named after the clock in milliseconds, the
    speech is saved under that name (over a file of the same name), and the
    URL of the file is returned; when the speech service fails, its
    exception leaves [speak_ru]. *)
Definition speak_ru {X : Externals} (text : string) (s : world)
    : (failure + string) * world :=
  let '(now, s1) := time_time s in
  match int_of_float (now * 1000) with
  | inl e => (inl e, s1)
  | inr ms =>
      let filename := "say_" +:+ pretty ms +:+ ".mp3" in
      match synthesis (ticks s1) text with
      | Saved =>
          (inr ("/static/audio/" +:+ filename),
           {| gate_of := gate_of s1; audio := <[filename := text]> (audio s1);
              ticks := ticks s1 |})
      | NothingWritten => (inl SynthesisError, s1)
      | FileSpoilt =>
          (inl SynthesisError,
           {| gate_of := gate_of s1; audio := delete filename (audio s1);
              ticks := ticks s1 |})
      end
  end.

(** A request: the uploaded files and the form fields, by name. *)
Record request : Type := Request {
  files : gmap string (list Byte.byte);
  form : gmap string string
}.

(** The JSON body of a response: [{"error": ..}], or the payload with its
    ["audio_url"]. *)
Inductive body : Set :=
  | ErrorBody (error : string)
  | PayloadBody (p : payload) (audio_url : string).

(** [POST /predict/frame]: the body and the status of the response, or the
    exception that leaves the handler, and the state afterwards. *)
Definition predict_frame {R : Runtime} {X : Externals} (req : request) (s : world)
    : (failure + body * Z) * world :=
  match files req !! "image" with
  | None => (inr (ErrorBody "no image", 400%Z), s)
  | Some img_bytes =>
      let voice := bool_decide (form req !! "voice" = Some "1") in
      match img_bytes with
      | [] => (inr (ErrorBody "empty image", 400%Z), s)
      | _ :: _ =>
          match detect_from_image_bytes img_bytes with
          | Raise e => (inl (CoreFailure e), s)
          | Ok p =>
              if voice then
                let '(speak, s1) := call_should_speak (phrase p) 3.0 s in
                if speak then
                  match speak_ru (phrase p) s1 with
                  | (inl e, s2) => (inl e, s2)
                  | (inr url, s2) => (inr (PayloadBody p url, 200%Z), s2)
                  end
                else (inr (PayloadBody p "", 200%Z), s1)
              else (inr (PayloadBody p "", 200%Z), s)
          end
      end
  end.

(** [POST /predict/photo] *)
Definition predict_photo {R : Runtime} {X : Externals} (req : request) (s : world)
    : (failure + body * Z) * world :=
  match files req !! "image" with
  | None => (inr (ErrorBody "no image", 400%Z), s)
  | Some img_bytes =>
      let voice := bool_decide (form req !! "voice" = Some "1") in
      match img_bytes with
      | [] => (inr (ErrorBody "empty image", 400%Z), s)
      | _ :: _ =>
          match detect_from_image_bytes img_bytes with
          | Raise e => (inl (CoreFailure e), s)
          | Ok p =>
              if voice then
                match speak_ru (phrase p) s with
                | (inl e, s1) => (inl e, s1)
                | (inr url, s1) => (inr (PayloadBody p url, 200%Z), s1)
                end
              else (inr (PayloadBody p "", 200%Z), s)
          end
      end
  end.

(** ** Notions the properties are stated with *)

(** A float that is [nan] or carries no minus sign (a zero of either sign
    counts), read off its IEEE-754 representation. *)
Definition sf_nonneg (x : spec_float) : bool :=
  match x with
  | S754_nan | S754_zero _ => true
  | S754_infinity s | S754_finite s _ _ => negb s
  end.

Definition nonneg (x : float) : bool := sf_nonneg (Prim2SF x).

(** The score of [d] in the frame is a number: it is computed without an
    exception and is not [nan]. *)
Definition scored {R : Runtime} (w h : Z) (d : detection) : bool :=
  match salience w h d with
  | Ok s => negb (is_nan s)
  | Raise _ => false
  end.

(** [d] scores exactly [v] ([==] on floats). *)
Definition has_score {R : Runtime} (w h : Z) (v : float) (d : detection) : bool :=
  match salience w h d with
  | Ok s => (s =? v)%float
  | Raise _ => false
  end.

(** [a] scores at least as much as [b]. *)
Definition outranks {R : Runtime} (w h : Z) (a b : detection) : Prop :=
  exists sa sb,
    salience w h a = Ok sa /\ salience w h b = Ok sb /\ (sb <=? sa)%float = true.

(** The test of the loop of [pick_main_and_danger]. *)
Definition dangerous_other (main d : detection) : Prop :=
  label d ∈ DANGER /\ label d <> label main.

(** Every positive int below [int_limit] converts to a float. *)
Definition int_limit : Z := 2 ^ 1023.

(** The squares of the two centre offsets of [d] are in the range of the
    floats, so that neither [** 2] of [score] raises. *)
Definition squares_fit {R : Runtime} (w h : Z) (d : detection) : bool :=
  match int_truediv2 w, int_truediv2 h with
  | Ok cx_img, Ok cy_img =>
      let '(x1, y1, x2, y2) := bbox d in
      match float_pow2 ((x1 + x2) / 2 - cx_img),
            float_pow2 ((y1 + y2) / 2 - cy_img) with
      | Ok _, Ok _ => true
      | _, _ => false
      end
  | _, _ => false
  end.

(** A float of magnitude below [2^k]: a zero, or a finite float whose
    leading bit is below position [k]; read off the IEEE-754 representation. *)
Definition sf_below (k : Z) (x : spec_float) : Prop :=
  match x with
  | S754_zero _ => True
  | S754_finite _ m e => (Z.log2 (Zpos m) + e < k)%Z
  | _ => False
  end.

Definition below (k : Z) (x : float) : Prop := sf_below k (Prim2SF x).

(** [2^500], as a float and as an int: bounds under which no step of the
    score leaves the range of the floats. *)
Definition coord_limit : float := Eval vm_compute in Z.ldexp 1 500.
Definition frame_limit : Z := 2 ^ 500.

Definition coord_ok (x : float) : bool := (abs x <? coord_limit)%float.

(** The four coordinates of the box of [d] are numbers below [2^500] in
    absolute value. *)
Definition box_in_range (d : detection) : bool :=
  let '(x1, y1, x2, y2) := bbox d in
  coord_ok x1 && coord_ok y1 && coord_ok x2 && coord_ok y2.

(** The confidence of [d] is in [[0, 1]]. *)
Definition conf_in_unit (d : detection) : bool :=
  (0 <=? conf d)%float && (conf d <=? 1)%float.

(** Both sides of the frame are below [2^500] in absolute value. *)
Definition frame_in_range (w h : Z) : bool :=
  (Z.abs w <? frame_limit)%Z && (Z.abs h <? frame_limit)%Z.

(** A float that is a zero (of either sign) or [nan]. *)
Definition null (x : float) : bool :=
  match Prim2SF x with
  | S754_zero _ | S754_nan => true
  | _ => false
  end.

(** How close a word of [distance_word] says the object is. *)
Definition closeness (word : string) : nat :=
  if String.eqb word "очень близко" then 3
  else if String.eqb word "близко" then 2
  else if String.eqb word "на среднем расстоянии" then 1
  else 0.

(** No int from [float_limit] on converts to a float. *)
Definition float_limit : Z := 2 ^ 1024.

(** The orders on decorated elements that the sort is judged by. *)
Definition key_is {A} (v : float) (x : float * A) : bool := (x.1 =? v)%float.

Definition key_ge {A} (x y : float * A) : Prop := (y.1 <=? x.1)%float = true.

Definition key_number {A} (x : float * A) : Prop := is_nan x.1 = false.

(** [r] is [c] or one of the two floats next to it. *)
Definition within_one (r c : float) : Prop :=
  r = c \/ r = next_up c \/ r = next_down c.

(** [2^512]: the square of a float from here on is [2^1024] or more, which
    is beyond the floats. *)
Definition square_limit : float := Eval vm_compute in Z.ldexp 1 512.

(** What is assumed of the platform.  Of C's [pow], on a finite base above
    zero, which is all that [float_pow2] and [float_pow_half] pass to it:
    the result has no minus sign; the square and the square root are within
    one float of the correctly rounded ones; and a square whose exact value
    is out of range is reported as such.  Of the sort: it permutes, and when
    no key is [nan] it is the stable descending sort. *)
Class Conforms (R : Runtime) : Prop := {
  pow_sign : forall a b,
    (0 <? a)%float = true -> (libm_pow a b <? 0)%float = false;
  pow_square : forall a,
    (0 <? a)%float = true -> (a <? infinity)%float = true ->
    within_one (libm_pow a 2) (a * a);
  pow_square_overflow : forall a,
    (square_limit <=? a)%float = true -> (a <? infinity)%float = true ->
    is_infinity (libm_pow a 2) = true;
  pow_root : forall a,
    (0 <? a)%float = true -> (a <? infinity)%float = true ->
    within_one (libm_pow a 0.5) (sqrt a);
  sort_permutes : forall A (l : list (float * A)),
    Permutation (list_sort A l) l;
  sort_stable : forall A (l : list (float * A)),
    Forall key_number l -> list_sort A l = sort_desc l
}.

(** Case analysis on the integer comparisons inside [SFcompare]. *)
Ltac cmp_cases :=
  repeat match goal with
  | |- context [ (?a ?= ?b)%Z ] => destruct (Z.compare_spec a b); subst
  | H : context [ (?a ?= ?b)%Z ] |- _ => destruct (Z.compare_spec a b); subst
  | |- context [ Pos.compare_cont Eq ?a ?b ] => change (Pos.compare_cont Eq a b) with (Pos.compare a b); destruct (Pos.compare_spec a b); subst
  | H : context [ Pos.compare_cont Eq ?a ?b ] |- _ => change (Pos.compare_cont Eq a b) with (Pos.compare a b) in H; destruct (Pos.compare_spec a b); subst
  end.


(** ** Sample data *)

Definition car_det : detection :=
  {| label := "car"; conf := 0.9; bbox := (100, 100, 300, 300)%float |}.

Definition person_det : detection :=
  {| label := "person"; conf := 0.9; bbox := (100, 100, 300, 300)%float |}.

Definition chair_det : detection :=
  {| label := "chair"; conf := 0.5; bbox := (400, 200, 500, 300)%float |}.

Definition bus_det : detection :=
  {| label := "bus"; conf := 0.4; bbox := (10, 10, 60, 40)%float |}.

(** A box that reaches far out of a 640 by 480 frame. *)
Definition far_det : detection :=
  {| label := "car"; conf := 0.9; bbox := (0, 0, 1e200, 1e200)%float |}.

(** A degenerate box at the origin. *)
Definition dot_det : detection :=
  {| label := "car"; conf := 0.9; bbox := (0, 0, 0, 0)%float |}.

(** A box that sticks out of a 640 by 480 frame on every side. *)
Definition outside_det : detection :=
  {| label := "truck"; conf := 0.7; bbox := (-50, -20, 900, 700)%float |}.

(** A box with its corners swapped. *)
Definition inverted_det : detection :=
  {| label := "dog"; conf := 0.8; bbox := (300, 300, 100, 100)%float |}.

(** A box of no height whose width is beyond the floats: the width is
    [inf], the area [inf * 0.0], which is [nan]. *)
Definition flat_car : detection :=
  {| label := "car"; conf := 0.9; bbox := (-1.7e308, 0, 1.7e308, 0)%float |}.

(** A platform whose [pow] is correctly rounded at the exponents 2 and 0.5,
    the only ones the program uses, and whose sort is the insertion sort.
    It runs the examples and shows that [Conforms] can be met
    ([reference_conforms]); the properties are stated for every conforming
    platform. *)
#[global] Instance reference_runtime : Runtime := {|
  libm_pow := fun a b =>
    if (b =? 2)%float then (a * a)%float
    else if (b =? 0.5)%float then sqrt a
    else 1%float;
  list_sort := fun A => sort_desc
|}.

(** The state of a process that has just started. *)
Definition start : world := {| gate_of := LAST; audio := ∅; ticks := 0 |}.

(** Sample collaborators: a detector that sees one car in every upload, a
    clock that starts at 1700000000.25 and advances by half a second per
    reading, and a speech service that always answers. *)
Definition sample_externals : Externals := {|
  names := fun cls_id => if (cls_id =? 2)%Z then "car" else "person";
  vision := fun _ => (640%Z, 480%Z, Some [(2%Z, 0.9%float, (100, 100, 300, 300)%float)]);
  round3 := fun x => x;
  clock := fun n => (1700000000.25 + 0.5 * of_uint63 (Uint63.of_Z (Z.of_nat n)))%float;
  synthesis := fun _ _ => Saved
|}.

Definition sample_request (voice : string) : request :=
  {| files := {[ "image" := [Byte.x00] ]}; form := {[ "voice" := voice ]} |}.

(** The score of [person_det] in a 640 by 480 frame on [reference_runtime]. *)
Definition person_score : float :=
  Eval vm_compute in
    match salience 640 480 person_det with Ok s => s | Raise _ => nan end.

(** * Properties *)

(** Runs on the reference platform, whose [pow] may differ from that of a
    given C library in the last place. *)
Example ex_rank_car : rank_objects [car_det] 640 480 = Ok [car_det].
Proof. vm_compute. reflexivity. Qed.

Example ex_rank_three :
  rank_objects [chair_det; person_det; bus_det; car_det] 640 480
  = Ok [car_det; person_det; chair_det; bus_det].
Proof. vm_compute. reflexivity. Qed.

Example ex_phrase_car :
  narrate [car_det] 640 480 = Ok "Перед вами машина, слева, близко. Это опасно.".
Proof. vm_compute. reflexivity. Qed.

Example ex_far : rank_objects [far_det] 640 480 = Raise OverflowError.
Proof. vm_compute. reflexivity. Qed.

Example ex_wide : rank_objects [dot_det] (10 ^ 200) 1 = Raise OverflowError.
Proof. vm_compute. reflexivity. Qed.

(** ** Floats: rounding

    The primitive operations are specified by [SpecFloat]; what follows
    derives from that specification the few facts about rounding that the
    properties of the core rest on. *)

Section Rounding.
Local Open Scope Z_scope.

Lemma digits2_pos_log2 p : Zpos (digits2_pos p) = Z.log2 (Zpos p) + 1.
Proof.
  induction p as [p IH|p IH|]; simpl; try reflexivity.
  - rewrite Pos2Z.inj_succ, IH. destruct p; simpl; try reflexivity; lia.
  - rewrite Pos2Z.inj_succ, IH. destruct p; simpl; try reflexivity; lia.
Qed.

Lemma Zdigits2_log2 m : 0 < m -> Zdigits2 m = Z.log2 m + 1.
Proof. destruct m; try lia. intros _. apply digits2_pos_log2. Qed.

Lemma shr_m_shr_1 mrs : 0 <= shr_m mrs -> shr_m (shr_1 mrs) = Z.div2 (shr_m mrs).
Proof. destruct mrs as [[|[p|p|]|p] r s]; simpl; intros; try reflexivity; lia. Qed.

Lemma shr_m_iter p : forall mrs, 0 <= shr_m mrs ->
  shr_m (SpecFloat.iter_pos shr_1 p mrs) = Z.shiftr (shr_m mrs) (Zpos p).
Proof.
  assert (H1 : forall mrs, 0 <= shr_m mrs -> shr_m (shr_1 mrs) = Z.shiftr (shr_m mrs) 1).
  { intros. rewrite shr_m_shr_1 by assumption. now rewrite Z.div2_spec. }
  induction p as [p IH|p IH|]; intros mrs Hm; simpl.
  - rewrite IH, IH, H1 by (rewrite ?IH, ?H1; try apply Z.shiftr_nonneg; auto; rewrite ?H1; try apply Z.shiftr_nonneg; auto).
    rewrite !Z.shiftr_shiftr by lia. f_equal. lia.
  - rewrite IH, IH by (rewrite ?IH; try apply Z.shiftr_nonneg; auto).
    rewrite !Z.shiftr_shiftr by lia. f_equal. lia.
  - now apply H1.
Qed.

Lemma pos_iter_xO m d : Zpos (Pos.iter xO m d) = Zpos m * 2 ^ Zpos d.
Proof.
  induction d as [|d IH] using Pos.peano_ind.
  - simpl. lia.
  - rewrite Pos.iter_succ, Pos2Z.inj_xO, IH, Pos2Z.inj_succ, Z.pow_succ_r by lia. ring.
Qed.

Lemma fexp64 x : fexp prec emax x = Z.max (x - 53) (-1074).
Proof. reflexivity. Qed.

Lemma shr_fexp_spec m e l : 0 < m ->
  let n := fexp prec emax (Z.log2 m + 1 + e) - e in
  0 <= n ->
  shr_m (fst (shr_fexp prec emax m e l)) = Z.shiftr m n /\
  snd (shr_fexp prec emax m e l) = e + n.
Proof.
  intros Hm n Hn. unfold shr_fexp. rewrite Zdigits2_log2 by assumption.
  fold n. unfold shr.
  assert (H0 : shr_m (shr_record_of_loc m l) = m) by (destruct l as [|[]]; reflexivity).
  destruct n as [|p|p] eqn:E; try lia.
  - simpl. rewrite H0, Z.shiftr_0_r. split; [reflexivity|lia].
  - simpl. rewrite shr_m_iter by (rewrite H0; lia). rewrite H0. split; reflexivity.
Qed.

Lemma round_nearest_even_bounds m l : m <= round_nearest_even m l <= m + 1.
Proof. destruct l as [|[]]; simpl; try lia. destruct (Z.even m); lia. Qed.

Lemma bra_spec s m e l : 0 < m ->
  let n := fexp prec emax (Z.log2 m + 1 + e) - e in
  0 <= n -> 0 < Z.shiftr m n ->
  exists m2 e2,
    binary_round_aux prec emax s m e l
      = (if e2 <=? 971 then S754_finite s m2 e2 else S754_infinity s) /\
    canonical_mantissa prec emax m2 e2 = true /\
    ((e2 = e + n /\ Z.shiftr m n <= Zpos m2 <= Z.shiftr m n + 1) \/
     (e2 = e + n + 1 /\ Zpos m2 = 2 ^ 52 /\ Z.log2 (Z.shiftr m n) = 52)).
Proof.
  intros Hm n Hn Hq. unfold binary_round_aux.
  destruct (shr_fexp_spec m e l Hm Hn) as [Hm1 He1]. fold n in Hm1, He1.
  destruct (shr_fexp prec emax m e l) as [mrs1 e1]. simpl in Hm1, He1.
  set (q := Z.shiftr m n) in *.
  pose proof (round_nearest_even_bounds (shr_m mrs1) (loc_of_shr_record mrs1)) as Hr.
  set (m1 := round_nearest_even (shr_m mrs1) (loc_of_shr_record mrs1)) in *.
  rewrite Hm1 in Hr.
  assert (Hlq : Z.log2 q = Z.log2 m - n).
  { unfold q. rewrite Z.log2_shiftr by assumption.
    assert (n <= Z.log2 m); [|lia].
    destruct (Z.le_gt_cases n (Z.log2 m)) as [?|Hlt]; [assumption|].
    exfalso. unfold q in Hq. rewrite Z.shiftr_eq_0 in Hq; lia. }
  assert (Hcq : fexp prec emax (Z.log2 q + 1 + e1) = e1).
  { rewrite Hlq, He1. replace (Z.log2 m - n + 1 + (e + n)) with (Z.log2 m + 1 + e) by lia.
    unfold n. lia. }
  assert (Hm1pos : 0 < m1) by lia.
  assert (Hl1 : Z.log2 m1 = Z.log2 q \/ (Z.log2 m1 = Z.log2 q + 1 /\ m1 = 2 ^ (Z.log2 q + 1))).
  { assert (m1 = q \/ m1 = Z.succ q) as [->| ->] by lia; [left; reflexivity|].
    destruct (Z.log2_succ_or q) as [H|H]; [right|left; assumption].
    split; [lia|].
    destruct (Z.log2_eq_succ_is_pow2 q H) as [b Hb].
    assert (0 <= b) by (destruct (Z.le_gt_cases 0 b); [assumption|rewrite Z.pow_neg_r in Hb; lia]).
    rewrite Hb in H |- *. rewrite Z.log2_pow2 in H by assumption. f_equal. lia. }
  rewrite fexp64 in Hcq.
  destruct Hl1 as [Hl1|[Hl1 Hpow]].
  - (* the rounded mantissa keeps its number of digits *)
    assert (Hn2 : fexp prec emax (Z.log2 m1 + 1 + e1) - e1 = 0) by (rewrite fexp64, Hl1; lia).
    destruct (shr_fexp_spec m1 e1 loc_Exact Hm1pos) as [Hm2 He2]; [lia|].
    rewrite Hn2, Z.shiftr_0_r in Hm2. rewrite Hn2 in He2.
    destruct (shr_fexp prec emax m1 e1 loc_Exact) as [mrs2 e2]. simpl in Hm2, He2.
    rewrite Hm2. destruct m1 as [|p1|p1] eqn:Ep; try lia.
    exists p1, e2. split; [reflexivity|]. split.
    + unfold canonical_mantissa. rewrite digits2_pos_log2, fexp64, Hl1. apply Z.eqb_eq. lia.
    + left. lia.
  - (* the rounding carried into a new digit *)
    destruct (Z.eq_dec (Z.log2 q) 52) as [H52|H52].
    + assert (Hn2 : fexp prec emax (Z.log2 m1 + 1 + e1) - e1 = 1) by (rewrite fexp64, Hl1; lia).
      destruct (shr_fexp_spec m1 e1 loc_Exact Hm1pos) as [Hm2 He2]; [lia|].
      rewrite Hn2 in Hm2, He2.
      destruct (shr_fexp prec emax m1 e1 loc_Exact) as [mrs2 e2]. simpl in Hm2, He2.
      rewrite Hm2, Hpow, H52. change (Z.shiftr (2 ^ (52 + 1)) 1) with (Zpos 4503599627370496).
      exists 4503599627370496%positive, e2. split; [reflexivity|]. split.
      * unfold canonical_mantissa. rewrite digits2_pos_log2, fexp64.
        change (Z.log2 (Zpos 4503599627370496)) with 52. apply Z.eqb_eq. lia.
      * right. split; [lia|]. split; reflexivity.
    + assert (Hn2 : fexp prec emax (Z.log2 m1 + 1 + e1) - e1 = 0) by (rewrite fexp64, Hl1; lia).
      destruct (shr_fexp_spec m1 e1 loc_Exact Hm1pos) as [Hm2 He2]; [lia|].
      rewrite Hn2, Z.shiftr_0_r in Hm2. rewrite Hn2 in He2.
      destruct (shr_fexp prec emax m1 e1 loc_Exact) as [mrs2 e2]. simpl in Hm2, He2.
      rewrite Hm2. destruct m1 as [|p1|p1] eqn:Ep; try lia.
      exists p1, e2. split; [reflexivity|]. split.
      * unfold canonical_mantissa. rewrite digits2_pos_log2, fexp64, Hl1. apply Z.eqb_eq. lia.
      * left. lia.
Qed.

Lemma shiftr_pos_iff m n : 0 < m -> 0 <= n -> n <= Z.log2 m -> 0 < Z.shiftr m n.
Proof.
  intros Hm Hn Hl.
  assert (0 <= Z.shiftr m n) by (apply Z.shiftr_nonneg; lia).
  assert (Z.shiftr m n <> 0); [|lia].
  intros H0. apply Z.shiftr_eq_0_iff in H0. lia.
Qed.

Lemma binary_round_spec s p e : -1074 <= e ->
  exists m2 e2,
    binary_round prec emax s p e
      = (if e2 <=? 971 then S754_finite s m2 e2 else S754_infinity s) /\
    canonical_mantissa prec emax m2 e2 = true /\
    e2 <= fexp prec emax (Z.log2 (Zpos p) + 1 + e) + 1.
Proof.
  intros He. unfold binary_round, shl_align.
  rewrite digits2_pos_log2.
  set (f := fexp prec emax (Z.log2 (Z.pos p) + 1 + e)).
  assert (Hf : f = Z.max (Z.log2 (Zpos p) + 1 + e - 53) (-1074)) by reflexivity.
  assert (Hlp : 0 <= Z.log2 (Zpos p)) by apply Z.log2_nonneg.
  destruct (f - e) as [|d|d] eqn:Ed.
  - pose proof (bra_spec s (Zpos p) e loc_Exact) as B. cbv zeta in B. fold f in B.
    rewrite Ed, Z.shiftr_0_r in B.
    destruct B as (m2 & e2 & H1 & H2 & H3); try lia.
    exists m2, e2. repeat split; try assumption. lia.
  - pose proof (bra_spec s (Zpos p) e loc_Exact) as B. cbv zeta in B. fold f in B.
    rewrite Ed in B.
    destruct B as (m2 & e2 & H1 & H2 & H3); try lia.
    { apply shiftr_pos_iff; lia. }
    exists m2, e2. repeat split; try assumption. lia.
  - assert (Hl : Z.log2 (Zpos (Pos.iter xO p d)) + 1 + f = Z.log2 (Zpos p) + 1 + e).
    { rewrite pos_iter_xO, Z.log2_mul_pow2 by lia. lia. }
    pose proof (bra_spec s (Zpos (Pos.iter xO p d)) f loc_Exact) as B. cbv zeta in B.
    rewrite Hl in B. fold f in B. rewrite Z.sub_diag, Z.shiftr_0_r in B.
    destruct B as (m2 & e2 & H1 & H2 & H3); try lia.
    exists m2, e2. repeat split; try assumption. lia.
Qed.

End Rounding.

(** ** Floats: comparisons *)

Lemma SFleb_trans x y z : SFleb x y = true -> SFleb y z = true -> SFleb x z = true.
Proof.
  unfold SFleb, SFcompare.
  destruct x as [[]|[]| |[] m1 e1], y as [[]|[]| |[] m2 e2], z as [[]|[]| |[] m3 e3];
    simpl; try congruence; intros H1 H2; cmp_cases; simpl in *; try congruence; try lia.
Qed.

Lemma SFleb_total x y : x <> S754_nan -> y <> S754_nan -> SFltb x y = false -> SFleb y x = true.
Proof.
  unfold SFleb, SFltb, SFcompare.
  destruct x as [[]|[]| |[] m1 e1], y as [[]|[]| |[] m2 e2];
    simpl; try congruence; intros H1 H2 H3; cmp_cases; simpl in *; try congruence; try lia.
Qed.

Lemma SFeqb_ltb x y v : SFeqb x v = true -> SFltb x y = true -> SFeqb y v = false.
Proof.
  unfold SFeqb, SFltb, SFcompare.
  destruct x as [[]|[]| |[] m1 e1], y as [[]|[]| |[] m2 e2], v as [[]|[]| |[] m3 e3];
    simpl; try congruence; intros H1 H2; cmp_cases; simpl in *; try congruence; try lia.
Qed.

(** ** Floats: signs *)

Section Signs.
Local Open Scope Z_scope.

Lemma bra_nonneg m e l : sf_nonneg (binary_round_aux prec emax false m e l) = true.
Proof.
  unfold binary_round_aux.
  destruct (shr_fexp prec emax m e l) as [mrs1 e1].
  destruct (shr_fexp _ _ _ _ _) as [mrs2 e2].
  destruct (shr_m mrs2); try reflexivity.
  destruct (_ <=? _); reflexivity.
Qed.

Lemma SFmul_nonneg x y : sf_nonneg x = true -> sf_nonneg y = true -> sf_nonneg (SFmul prec emax x y) = true.
Proof.
  destruct x as [sx|[]| |[] mx ex], y as [sy|[]| |[] my ey]; simpl; try congruence; intros _ _.
  apply bra_nonneg.
Qed.

Lemma SFadd_nonneg x y : sf_nonneg x = true -> sf_nonneg y = true -> sf_nonneg (SFadd prec emax x y) = true.
Proof.
  destruct x as [[]|[]| |[] mx ex], y as [[]|[]| |[] my ey]; simpl; try congruence; intros _ _.
  unfold binary_round. destruct (shl_align _ _ _). apply bra_nonneg.
Qed.

Lemma SFsqrt_nonneg x : sf_nonneg (SFsqrt prec emax x) = true.
Proof.
  destruct x as [s|[]| |[] mx ex]; cbn [SFsqrt sf_nonneg]; try reflexivity.
  destruct (SFsqrt_core_binary _ _ _ _) as [[mz ez] lz]. apply bra_nonneg.
Qed.

Lemma SFdiv_nonneg x y : sf_nonneg x = true -> sf_nonneg y = true ->
  SFeqb y (S754_zero false) = false -> sf_nonneg (SFdiv prec emax x y) = true.
Proof.
  destruct x as [sx|[]| |[] mx ex], y as [sy|[]| |[] my ey];
    cbn [SFdiv sf_nonneg xorb negb SFeqb SFcompare]; try congruence; intros _ _ _.
  destruct (SFdiv_core_binary _ _ _ _ _ _) as [[mz ez] lz]. apply bra_nonneg.
Qed.

Lemma mul_nonneg x y : nonneg x = true -> nonneg y = true -> nonneg (x * y) = true.
Proof. unfold nonneg. rewrite mul_spec. apply SFmul_nonneg. Qed.
Lemma add_nonneg x y : nonneg x = true -> nonneg y = true -> nonneg (x + y) = true.
Proof. unfold nonneg. rewrite add_spec. apply SFadd_nonneg. Qed.
Lemma sqrt_nonneg x : nonneg (sqrt x) = true.
Proof. unfold nonneg. rewrite sqrt_spec. apply SFsqrt_nonneg. Qed.
Lemma div_nonneg x y : nonneg x = true -> nonneg y = true -> (y =? 0)%float = false -> nonneg (x / y) = true.
Proof. unfold nonneg. rewrite div_spec, FloatAxioms.eqb_spec. apply SFdiv_nonneg. Qed.
Lemma abs_nonneg x : nonneg (abs x) = true.
Proof. unfold nonneg. rewrite abs_spec. destruct (Prim2SF x); reflexivity. Qed.

Lemma nonneg_ltb_0 x : nonneg x = true -> (x <? 0)%float = false.
Proof.
  unfold nonneg. rewrite FloatAxioms.ltb_spec. change (Prim2SF 0) with (S754_zero false).
  destruct (Prim2SF x) as [[]|[]| |[] m e]; simpl; intros H; try discriminate H; reflexivity.
Qed.

Lemma ltb_0_nonneg x : (0 <? x)%float = true -> nonneg x = true.
Proof.
  unfold nonneg. rewrite FloatAxioms.ltb_spec. change (Prim2SF 0) with (S754_zero false).
  destruct (Prim2SF x) as [[]|[]| |[] m e]; simpl; intros H; try discriminate H; reflexivity.
Qed.

Lemma leb_0_nonneg x : (0 <=? x)%float = true -> nonneg x = true.
Proof.
  unfold nonneg. rewrite FloatAxioms.leb_spec. change (Prim2SF 0) with (S754_zero false).
  destruct (Prim2SF x) as [[]|[]| |[] m e]; simpl; intros H; try discriminate H; reflexivity.
Qed.

Lemma py_max_0_nonneg v : nonneg (py_max 0 v) = true.
Proof.
  unfold py_max. destruct (0 <? v)%float eqn:E.
  - now apply ltb_0_nonneg.
  - reflexivity.
Qed.

Lemma is_nan_spec x : is_nan x = true <-> Prim2SF x = S754_nan.
Proof.
  unfold is_nan. rewrite FloatAxioms.eqb_spec. unfold SFeqb, SFcompare.
  destruct (Prim2SF x) as [s|[]| |[] m e]; simpl; try (split; congruence);
    rewrite Z.compare_refl; change (Pos.compare_cont Eq m m) with (Pos.compare m m);
    rewrite Pos.compare_refl; simpl; split; congruence.
Qed.

Lemma valid_finite s m e :
  canonical_mantissa prec emax m e = true -> e <= 971 ->
  Prim2SF (SF2Prim (S754_finite s m e)) = S754_finite s m e.
Proof.
  intros Hc He. apply Prim2SF_SF2Prim. unfold valid_binary, bounded.
  rewrite Hc. apply Z.leb_le. exact He.
Qed.

Lemma canonical_inv m e :
  canonical_mantissa prec emax m e = true ->
  Z.log2 (Zpos m) <= 52 /\ -1074 <= e /\ (Z.log2 (Zpos m) = 52 \/ e = -1074).
Proof.
  unfold canonical_mantissa. rewrite digits2_pos_log2, fexp64. intros H%Z.eqb_eq. lia.
Qed.

Lemma Prim2SF_finite_inv x s m e :
  Prim2SF x = S754_finite s m e ->
  canonical_mantissa prec emax m e = true /\ e <= 971.
Proof.
  intros H. pose proof (Prim2SF_valid x) as Hv. rewrite H in Hv.
  unfold valid_binary, bounded in Hv. apply andb_true_iff in Hv as [Hc He].
  split; [assumption|]. apply Z.leb_le in He. exact He.
Qed.

(** [round_int] *)

Lemma round_int_raise z e x : round_int z e = Raise x -> x = OverflowError.
Proof.
  unfold round_int. destruct (binary_normalize _ _ _ _ _); congruence.
Qed.

Lemma round_int_pos z e f : 0 < z -> -1074 <= e -> round_int z e = Ok f ->
  exists m2 e2, Prim2SF f = S754_finite false m2 e2.
Proof.
  intros Hz He. destruct z as [|p|p]; try lia.
  unfold round_int, binary_normalize.
  destruct (binary_round_spec false p e He) as (m2 & e2 & -> & Hc & _).
  destruct (e2 <=? 971) eqn:E; [|discriminate].
  intros H. assert (Hf : f = SF2Prim (S754_finite false m2 e2)) by congruence.
  exists m2, e2. rewrite Hf. apply valid_finite; [assumption|]. now apply Z.leb_le.
Qed.

Lemma round_int_returns z e :
  -1074 <= e -> Z.log2 (Z.abs z) + e <= 1022 -> returns (round_int z e).
Proof.
  intros He Hl. unfold round_int, binary_normalize, returns.
  destruct z as [|p|p].
  - eexists; reflexivity.
  - destruct (binary_round_spec false p e He) as (m2 & e2 & -> & Hc & Hb).
    rewrite fexp64 in Hb. change (Z.abs (Zpos p)) with (Zpos p) in Hl.
    replace (e2 <=? 971) with true by (symmetry; apply Z.leb_le; lia).
    eexists; reflexivity.
  - destruct (binary_round_spec true p e He) as (m2 & e2 & -> & Hc & Hb).
    rewrite fexp64 in Hb. change (Z.abs (Zneg p)) with (Zpos p) in Hl.
    replace (e2 <=? 971) with true by (symmetry; apply Z.leb_le; lia).
    eexists; reflexivity.
Qed.

Lemma finite_pos_nonzero f m e :
  Prim2SF f = S754_finite false m e -> (f =? 0)%float = false.
Proof. intros H. rewrite FloatAxioms.eqb_spec, H. reflexivity. Qed.

Lemma finite_pos_nonneg f m e :
  Prim2SF f = S754_finite false m e -> nonneg f = true.
Proof. intros H. unfold nonneg. rewrite H. reflexivity. Qed.

(** [1.0 + y] is never zero when [y] is not negative *)

Lemma one_plus_nonzero y : nonneg y = true -> (1 + y =? 0)%float = false.
Proof.
  unfold nonneg. intros Hy. rewrite FloatAxioms.eqb_spec, add_spec.
  change (Prim2SF 1) with (S754_finite false 4503599627370496 (-52)).
  change (Prim2SF 0) with (S754_zero false).
  destruct (Prim2SF y) as [s|[]| |[] my ey] eqn:E; try discriminate Hy; try reflexivity.
  destruct (Prim2SF_finite_inv _ _ _ _ E) as [Hc _].
  apply canonical_inv in Hc as (_ & Hey & _).
  unfold SF64add, SFadd. cbn [cond_Zopp].
  rewrite <- Pos2Z.inj_add. unfold binary_normalize.
  destruct (binary_round_spec false
    ((shl_align 4503599627370496 (-52) (Z.min (-52) ey)).1 + (shl_align my ey (Z.min (-52) ey)).1)%positive
    (Z.min (-52) ey)) as (m2 & e2 & H & _); [lia|].
  unfold fst in *. rewrite H. destruct (e2 <=? 971); reflexivity.
Qed.

Lemma iter_shr_1_exact p : forall m, 0 <= m ->
  SpecFloat.iter_pos shr_1 p {| shr_m := m * 2 ^ Zpos p; shr_r := false; shr_s := false |}
  = {| shr_m := m; shr_r := false; shr_s := false |}.
Proof.
  assert (H1 : forall m, 0 <= m ->
    shr_1 {| shr_m := m * 2; shr_r := false; shr_s := false |}
    = {| shr_m := m; shr_r := false; shr_s := false |}).
  { intros [|q|q] Hm; try lia; rewrite Z.mul_comm; reflexivity. }
  induction p as [p IH|p IH|]; intros m Hm; cbn [SpecFloat.iter_pos].
  - replace (m * 2 ^ Zpos p~1) with ((m * 2 ^ Zpos p * 2 ^ Zpos p) * 2).
    + rewrite H1, IH, IH by (try apply Z.mul_nonneg_nonneg; lia). reflexivity.
    + rewrite (Pos2Z.inj_xI p), Z.pow_add_r, Z.pow_mul_r, Z.pow_2_r by lia.
      rewrite Z.pow_mul_l. ring.
  - replace (m * 2 ^ Zpos p~0) with (m * 2 ^ Zpos p * 2 ^ Zpos p).
    + rewrite IH, IH by (try apply Z.mul_nonneg_nonneg; lia). reflexivity.
    + rewrite (Pos2Z.inj_xO p), Z.pow_mul_r, Z.pow_2_r by lia.
      rewrite Z.pow_mul_l. ring.
  - apply H1. exact Hm.
Qed.

(** Multiplying a positive float by [1.0] is exact. *)
Lemma SFmul_one_r m e :
  canonical_mantissa prec emax m e = true -> e <= 971 ->
  SFmul prec emax (S754_finite false m e) (S754_finite false 4503599627370496 (-52))
  = S754_finite false m e.
Proof.
  intros Hc He. pose proof Hc as Hc'. apply canonical_inv in Hc' as (Hl & Hemin & Hn).
  cbn [SFmul xorb]. unfold binary_round_aux.
  assert (Hs : shr_fexp prec emax (Zpos (m * 4503599627370496)) (e + -52) loc_Exact
               = ({| shr_m := Zpos m; shr_r := false; shr_s := false |}, e)).
  { unfold shr_fexp. rewrite Zdigits2_log2 by lia.
    rewrite Pos2Z.inj_mul. change (Zpos 4503599627370496) with (2 ^ 52).
    rewrite Z.log2_mul_pow2 by lia. rewrite fexp64.
    replace (Z.max (52 + Z.log2 (Zpos m) + 1 + (e + -52) - 53) (-1074) - (e + -52)) with 52 by lia.
    unfold shr. cbn [shr_record_of_loc].
    change 52 with (Zpos 52) at 1. rewrite (iter_shr_1_exact 52 (Zpos m)) by lia.
    f_equal. lia. }
  rewrite Hs. cbn [shr_m loc_of_shr_record round_nearest_even].
  assert (Hs2 : shr_fexp prec emax (Zpos m) e loc_Exact
               = ({| shr_m := Zpos m; shr_r := false; shr_s := false |}, e)).
  { unfold shr_fexp. rewrite Zdigits2_log2 by lia. rewrite fexp64.
    replace (Z.max (Z.log2 (Zpos m) + 1 + e - 53) (-1074) - e) with 0 by lia.
    reflexivity. }
  rewrite Hs2. cbn [shr_m].
  replace (e <=? emax - prec) with true; [reflexivity|].
  symmetry. apply Z.leb_le. change (emax - prec) with 971. lia.
Qed.

(** Multiplying a positive float by a constant of [[1, 2)] does not make it
    smaller. *)
Lemma SFmul_ge_self m e mk :
  canonical_mantissa prec emax m e = true -> e <= 971 ->
  2 ^ 52 <= Zpos mk < 2 ^ 53 ->
  SFleb (S754_finite false m e)
        (SFmul prec emax (S754_finite false m e) (S754_finite false mk (-52))) = true.
Proof.
  intros Hc He Hk. apply canonical_inv in Hc as (Hl & Hemin & Hn).
  cbn [SFmul xorb].
  assert (Hlk : Z.log2 (Zpos mk) = 52).
  { apply Z.log2_unique; [lia|]. change (2 ^ Z.succ 52) with (2 ^ 53). lia. }
  assert (Hlm : 0 <= Z.log2 (Zpos m)) by apply Z.log2_nonneg.
  set (M := Zpos (m * mk)).
  assert (HM : M = Zpos m * Zpos mk) by (unfold M; lia).
  assert (HL1 : Z.log2 (Zpos m) + 52 <= Z.log2 M).
  { rewrite HM, <- Hlk. apply Z.log2_mul_below; lia. }
  assert (HL2 : Z.log2 M <= Z.log2 (Zpos m) + 53).
  { rewrite HM. pose proof (Z.log2_mul_above (Zpos m) (Zpos mk)). lia. }
  pose proof (bra_spec false M (e + -52) loc_Exact) as B. cbv zeta in B.
  rewrite fexp64 in B.
  set (n := Z.max (Z.log2 M + 1 + (e + -52) - 53) (-1074) - (e + -52)) in *.
  assert (Hn52 : n = 52 \/ (n = 53 /\ Z.log2 M = 105)) by lia.
  destruct B as (m2 & e2 & -> & _ & Hr); [lia|lia|apply shiftr_pos_iff; lia|].
  destruct (e2 <=? 971); [|reflexivity].
  unfold SFleb, SFcompare.
  destruct Hn52 as [Hn52|[Hn53 HL]].
  - assert (Hq : Zpos m <= Z.shiftr M n).
    { rewrite Hn52, Z.shiftr_div_pow2 by lia. apply Z.div_le_lower_bound; [lia|].
      rewrite HM. nia. }
    destruct Hr as [[-> Hm2]|[-> _]].
    + replace (e ?= e + -52 + n) with Eq by (symmetry; apply Z.compare_eq_iff; lia).
      change (Pos.compare_cont Eq m m2) with (Pos.compare m m2).
      destruct (Pos.compare_spec m m2); try reflexivity. lia.
    + replace (e ?= e + -52 + n + 1) with Lt by (symmetry; apply Z.compare_lt_iff; lia).
      reflexivity.
  - replace (e ?= e2) with Lt by (symmetry; apply Z.compare_lt_iff; lia).
    reflexivity.
Qed.

Lemma mul_priority_mono t :
  nonneg t = true -> is_nan t = false -> (t * 1 <=? t * 1.35)%float = true.
Proof.
  unfold nonneg. intros Ht Hn.
  rewrite FloatAxioms.leb_spec, !mul_spec.
  change (Prim2SF 1) with (S754_finite false 4503599627370496 (-52)).
  change (Prim2SF 1.35) with (S754_finite false 6079859496950170 (-52)).
  destruct (Prim2SF t) as [s|[]| |[] m e] eqn:E; try discriminate Ht.
  - destruct s; reflexivity.
  - reflexivity.
  - exfalso. apply is_nan_spec in E. congruence.
  - destruct (Prim2SF_finite_inv _ _ _ _ E) as [Hc He].
    unfold SF64mul. rewrite SFmul_one_r by assumption.
    apply SFmul_ge_self; try assumption. lia.
Qed.

End Signs.

Lemma SFltb_leb x y : SFltb x y = true -> SFleb x y = true.
Proof. unfold SFltb, SFleb. destruct (SFcompare x y) as [[]|]; congruence. Qed.

Lemma SFleb_antisym x y : SFleb x y = true -> SFleb y x = true -> SFeqb x y = true.
Proof.
  unfold SFleb, SFeqb, SFcompare.
  destruct x as [[]|[]| |[] m1 e1], y as [[]|[]| |[] m2 e2];
    simpl; try congruence; intros H1 H2; cmp_cases; simpl in *; try congruence; try lia.
Qed.

Lemma SFeqb_finite_eq x s m e : SFeqb x (S754_finite s m e) = true -> x = S754_finite s m e.
Proof.
  unfold SFeqb, SFcompare.
  destruct x as [[]|[]| |[] m1 e1], s;
    simpl; try congruence; intros H1; cmp_cases; simpl in *; congruence.
Qed.

Lemma is_nan_false x : is_nan x = false <-> Prim2SF x <> S754_nan.
Proof.
  rewrite <- is_nan_spec. destruct (is_nan x); split; congruence.
Qed.

Lemma ltb_leb a b : (a <? b)%float = true -> (a <=? b)%float = true.
Proof. rewrite FloatAxioms.ltb_spec, FloatAxioms.leb_spec. apply SFltb_leb. Qed.

Lemma not_ltb_leb a b :
  is_nan a = false -> is_nan b = false ->
  (a <? b)%float = false -> (b <=? a)%float = true.
Proof.
  rewrite !is_nan_false, FloatAxioms.ltb_spec, FloatAxioms.leb_spec. apply SFleb_total.
Qed.

Lemma leb_trans a b c :
  (a <=? b)%float = true -> (b <=? c)%float = true -> (a <=? c)%float = true.
Proof. rewrite !FloatAxioms.leb_spec. apply SFleb_trans. Qed.

Lemma leb_antisym a b :
  (a <=? b)%float = true -> (b <=? a)%float = true -> (a =? b)%float = true.
Proof. rewrite !FloatAxioms.leb_spec, FloatAxioms.eqb_spec. apply SFleb_antisym. Qed.

Lemma eqb_ltb_excl x y v :
  (x =? v)%float = true -> (x <? y)%float = true -> (y =? v)%float = false.
Proof. rewrite !FloatAxioms.eqb_spec, FloatAxioms.ltb_spec. apply SFeqb_ltb. Qed.

(** [x == c] for a non-zero finite [c] leaves one value for [x]. *)
Lemma eqb_finite_eq x c s m e :
  Prim2SF c = S754_finite s m e -> (x =? c)%float = true -> x = c.
Proof.
  intros Hc. rewrite FloatAxioms.eqb_spec, Hc. intros H%SFeqb_finite_eq.
  apply Prim2SF_inj. congruence.
Qed.

Lemma is_nan_mul_l t k : is_nan (t * k) = false -> is_nan t = false.
Proof.
  rewrite !is_nan_false, mul_spec. intros H Ht. apply H. now rewrite Ht.
Qed.

(** ** Floats: magnitudes

    Bounds on the binade of the result of each operation, from the binades
    of its arguments: they show that inside the ranges [frame_in_range],
    [box_in_range] and [conf_in_unit] no step of [score] overflows. *)

Section Magnitudes.
Local Open Scope Z_scope.

(** The shift that [shr_fexp] applies, for any mantissa. *)
Lemma shr_m_shr mrs e n :
  0 <= shr_m mrs ->
  shr_m (fst (shr mrs e n)) = Z.shiftr (shr_m mrs) (Z.max 0 n) /\
  snd (shr mrs e n) = e + Z.max 0 n.
Proof.
  intros Hm. unfold shr. destruct n as [|p|p]; cbn [fst snd].
  - rewrite Z.shiftr_0_r. split; [reflexivity|lia].
  - rewrite shr_m_iter by assumption. split; [f_equal; lia|lia].
  - replace (Z.max 0 (Zneg p)) with 0 by lia. rewrite Z.shiftr_0_r. split; [reflexivity|lia].
Qed.

Lemma shr_fexp_gen m e l :
  0 <= m ->
  let n := Z.max 0 (fexp prec emax (Zdigits2 m + e) - e) in
  shr_m (fst (shr_fexp prec emax m e l)) = Z.shiftr m n /\
  snd (shr_fexp prec emax m e l) = e + n.
Proof.
  intros Hm n. unfold shr_fexp.
  assert (H0 : shr_m (shr_record_of_loc m l) = m) by (destruct l as [|[]]; reflexivity).
  destruct (shr_m_shr (shr_record_of_loc m l) e (fexp prec emax (Zdigits2 m + e) - e))
    as [H1 H2]; [rewrite H0; exact Hm|].
  rewrite H0 in H1. split; assumption.
Qed.

Lemma log2_shiftr_le m n : 0 < Z.shiftr m n -> 0 <= n -> Z.log2 (Z.shiftr m n) = Z.log2 m - n.
Proof.
  intros Hq Hn.
  assert (Hm : 0 < m).
  { destruct (Z.lt_trichotomy m 0) as [H|[H|H]]; [|subst; rewrite Z.shiftr_0_l in Hq; lia|assumption].
    exfalso. assert (Z.shiftr m n < 0) by (apply Z.shiftr_neg; assumption). lia. }
  rewrite Z.log2_shiftr by assumption.
  destruct (Z.le_gt_cases n (Z.log2 m)) as [?|Hlt]; [lia|].
  exfalso. rewrite Z.shiftr_eq_0 in Hq; lia.
Qed.

(** Rounding never moves a value up by more than one binade, and a value
    below the range of the floats is not rounded to infinity. *)
Lemma bra_bound s m e l :
  0 < m -> e <= 971 -> Z.log2 m + e <= 1022 ->
  sf_below (Z.max (Z.log2 m + e + 2) (-1072)) (binary_round_aux prec emax s m e l).
Proof.
  intros Hm He Hmag. unfold binary_round_aux.
  pose proof (Z.log2_nonneg m) as Hlm.
  destruct (shr_fexp_gen m e l ltac:(lia)) as [Hq He1]. cbv zeta in Hq, He1.
  rewrite Zdigits2_log2, fexp64 in Hq, He1 by assumption.
  destruct (shr_fexp prec emax m e l) as [mrs1 e1]. cbn [fst snd] in Hq, He1.
  remember (Z.max 0 (Z.max (Z.log2 m + 1 + e - 53) (-1074) - e)) as n eqn:Hn.
  pose proof (round_nearest_even_bounds (shr_m mrs1) (loc_of_shr_record mrs1)) as Hr.
  set (m1 := round_nearest_even (shr_m mrs1) (loc_of_shr_record mrs1)) in *.
  rewrite Hq in Hr.
  assert (Hq0 : 0 <= Z.shiftr m n) by (apply Z.shiftr_nonneg; lia).
  assert (Hmag1 : m1 = 0 \/ (0 < m1 /\ Z.log2 m1 + e1 <= Z.max (Z.log2 m + e + 1) (-1074))).
  { destruct (Z.eq_dec (Z.shiftr m n) 0) as [Hz|Hnz].
    - assert (m1 = 0 \/ m1 = 1) as [->| ->] by lia; [now left|right].
      split; [lia|]. change (Z.log2 1) with 0.
      apply Z.shiftr_eq_0_iff in Hz. lia.
    - right. split; [lia|].
      assert (Hlq : Z.log2 (Z.shiftr m n) = Z.log2 m - n) by (apply log2_shiftr_le; lia).
      assert (Z.log2 m1 <= Z.log2 (Z.shiftr m n) + 1); [|lia].
      assert (m1 = Z.shiftr m n \/ m1 = Z.succ (Z.shiftr m n)) as [->| ->] by lia; [lia|].
      destruct (Z.log2_succ_or (Z.shiftr m n)); lia. }
  destruct Hmag1 as [->|[Hm1 Hmag1]].
  - destruct (shr_fexp_gen 0 e1 loc_Exact ltac:(lia)) as [Hq2 _]. cbv zeta in Hq2.
    rewrite Z.shiftr_0_l in Hq2.
    destruct (shr_fexp prec emax 0 e1 loc_Exact) as [mrs2 e2]. cbn [fst] in Hq2.
    rewrite Hq2. exact I.
  - pose proof (Z.log2_nonneg m1) as Hlm1.
    destruct (shr_fexp_gen m1 e1 loc_Exact ltac:(lia)) as [Hq2 He2]. cbv zeta in Hq2, He2.
    rewrite Zdigits2_log2, fexp64 in Hq2, He2 by assumption.
    destruct (shr_fexp prec emax m1 e1 loc_Exact) as [mrs2 e2]. cbn [fst snd] in Hq2, He2.
    remember (Z.max 0 (Z.max (Z.log2 m1 + 1 + e1 - 53) (-1074) - e1)) as n2 eqn:Hn2.
    assert (Hq20 : 0 <= Z.shiftr m1 n2) by (apply Z.shiftr_nonneg; lia).
    rewrite Hq2. destruct (Z.shiftr m1 n2) as [|p2|p2] eqn:Ep; [exact I| |lia].
    assert (Hl2 : Z.log2 (Zpos p2) = Z.log2 m1 - n2).
    { rewrite <- Ep. apply log2_shiftr_le; lia. }
    replace (e2 <=? emax - prec) with true.
    + cbn [sf_below]. lia.
    + symmetry. apply Z.leb_le. change (emax - prec) with 971. lia.
Qed.

Lemma sf_below_mono k k' x : k <= k' -> sf_below k x -> sf_below k' x.
Proof. destruct x; cbn [sf_below]; intros; try assumption; lia. Qed.

(** A zero mantissa rounds to a zero or to the least float of its exponent. *)
Lemma bra_zero_bound s e l :
  e <= 971 -> sf_below (Z.max (e + 1) (-1073)) (binary_round_aux prec emax s 0 e l).
Proof.
  intros He. unfold binary_round_aux.
  destruct (shr_fexp_gen 0 e l ltac:(lia)) as [Hq He1]. cbv zeta in Hq, He1.
  rewrite Z.shiftr_0_l in Hq. cbn [Zdigits2] in He1. rewrite fexp64 in He1.
  destruct (shr_fexp prec emax 0 e l) as [mrs1 e1]. cbn [fst snd] in Hq, He1.
  pose proof (round_nearest_even_bounds (shr_m mrs1) (loc_of_shr_record mrs1)) as Hr.
  remember (round_nearest_even (shr_m mrs1) (loc_of_shr_record mrs1)) as m1 eqn:Hm1.
  rewrite Hq in Hr.
  assert (m1 = 0 \/ m1 = 1) as [->| ->] by lia.
  - destruct (shr_fexp_gen 0 e1 loc_Exact ltac:(lia)) as [Hq2 _]. cbv zeta in Hq2.
    rewrite Z.shiftr_0_l in Hq2.
    destruct (shr_fexp prec emax 0 e1 loc_Exact) as [mrs2 e2]. cbn [fst] in Hq2.
    rewrite Hq2. exact I.
  - destruct (shr_fexp_gen 1 e1 loc_Exact ltac:(lia)) as [Hq2 He2]. cbv zeta in Hq2, He2.
    change (Zdigits2 1) with 1 in Hq2, He2. rewrite fexp64 in Hq2, He2.
    replace (Z.max 0 (Z.max (1 + e1 - 53) (-1074) - e1)) with 0 in Hq2, He2 by lia.
    destruct (shr_fexp prec emax 1 e1 loc_Exact) as [mrs2 e2]. cbn [fst snd] in Hq2, He2.
    rewrite Hq2. change (Z.shiftr 1 0) with 1.
    replace (e2 <=? emax - prec) with true.
    + cbn [sf_below]. change (Z.log2 1) with 0. lia.
    + symmetry. apply Z.leb_le. change (emax - prec) with 971. lia.
Qed.

(** The product of a float below [2^a] and one below [2^b]. *)
Lemma SFmul_below a b x y :
  valid_binary x = true -> valid_binary y = true ->
  sf_below a x -> sf_below b y -> a + b <= 1022 ->
  sf_below (Z.max (a + b + 1) (-1072)) (SFmul prec emax x y).
Proof.
  intros Hvx Hvy Hx Hy Hab.
  destruct x as [sx|sx| |sx mx ex], y as [sy|sy| |sy my ey];
    cbn [sf_below SFmul] in *; try exact I; try contradiction.
  unfold valid_binary, bounded in Hvx, Hvy.
  apply andb_true_iff in Hvx as [Hcx _]. apply andb_true_iff in Hvy as [Hcy _].
  apply canonical_inv in Hcx as (Hlx & Hex & Hnx).
  apply canonical_inv in Hcy as (Hly & Hey & Hny).
  pose proof (Z.log2_nonneg (Zpos mx)). pose proof (Z.log2_nonneg (Zpos my)).
  assert (HM : Z.log2 (Zpos (mx * my)) <= Z.log2 (Zpos mx) + Z.log2 (Zpos my) + 1).
  { rewrite Pos2Z.inj_mul. apply Z.log2_mul_above; lia. }
  eapply sf_below_mono; [|apply bra_bound]; lia.
Qed.

Lemma shl_align_spec m e e' :
  e' <= e ->
  Z.log2 (Zpos (fst (shl_align m e e'))) + snd (shl_align m e e') = Z.log2 (Zpos m) + e /\
  snd (shl_align m e e') = e'.
Proof.
  intros He. unfold shl_align. destruct (e' - e) as [|d|d] eqn:Ed; cbn [fst snd].
  - lia.
  - lia.
  - rewrite pos_iter_xO, Z.log2_mul_pow2 by lia. lia.
Qed.

(** Rounding an integer mantissa [p] scaled by [2^e]. *)
Lemma binary_round_below s p e :
  e <= 971 -> Z.log2 (Zpos p) + e <= 1022 ->
  sf_below (Z.max (Z.log2 (Zpos p) + e + 2) (-1072)) (binary_round prec emax s p e).
Proof.
  intros He Hmag. unfold binary_round.
  pose proof (Z.log2_nonneg (Zpos p)).
  destruct (shl_align p e (fexp prec emax (Zpos (digits2_pos p) + e))) as [mz ez] eqn:Es.
  assert (Hz : Z.log2 (Zpos mz) + ez = Z.log2 (Zpos p) + e /\ ez <= e).
  { unfold shl_align in Es.
    destruct (fexp prec emax (Zpos (digits2_pos p) + e) - e) as [|d|d] eqn:Ed;
      injection Es as <- <-; [lia|lia|].
    rewrite pos_iter_xO, Z.log2_mul_pow2 by lia. lia. }
  destruct Hz as [Hz1 Hz2]. rewrite <- Hz1. apply bra_bound; lia.
Qed.

Lemma binary_normalize_below a z e :
  e <= 971 -> Z.log2 (Z.abs z) + e < a -> a <= 1023 ->
  sf_below (Z.max (a + 1) (-1072)) (binary_normalize prec emax z e false).
Proof.
  intros He Hz Ha. unfold binary_normalize. destruct z as [|p|p]; [exact I| |];
    change (Z.abs _) with (Zpos p) in Hz;
    (eapply sf_below_mono; [|apply binary_round_below]; lia).
Qed.

Lemma log2_add_le p q : Z.log2 (Zpos p + Zpos q) <= Z.max (Z.log2 (Zpos p)) (Z.log2 (Zpos q)) + 1.
Proof.
  pose proof (Z.log2_add_le (Zpos p) (Zpos q)).
  destruct (Z.le_ge_cases (Zpos p) (Zpos q)) as [Hle|Hle].
  - assert (Z.log2 (Zpos p + Zpos q) <= Z.log2 (2 * Zpos q)) by (apply Z.log2_le_mono; lia).
    rewrite Z.log2_double in H0 by lia. lia.
  - assert (Z.log2 (Zpos p + Zpos q) <= Z.log2 (2 * Zpos p)) by (apply Z.log2_le_mono; lia).
    rewrite Z.log2_double in H0 by lia. lia.
Qed.

(** The sum or difference of the two aligned mantissas. *)
Lemma aligned_sum_below a sx mx ex sy my ey (op : Z -> Z -> Z) :
  (forall u v, Z.abs (op u v) <= Z.abs u + Z.abs v) ->
  ex <= 971 -> ey <= 971 ->
  Z.log2 (Zpos mx) + ex < a -> Z.log2 (Zpos my) + ey < a -> a <= 1022 ->
  sf_below (Z.max (a + 2) (-1072))
    (binary_normalize prec emax
       (op (cond_Zopp sx (Zpos (fst (shl_align mx ex (Z.min ex ey)))))
           (cond_Zopp sy (Zpos (fst (shl_align my ey (Z.min ex ey))))))
       (Z.min ex ey) false).
Proof.
  intros Hop Hex Hey Hx Hy Ha.
  destruct (shl_align_spec mx ex (Z.min ex ey) ltac:(lia)) as [Hx1 Hx2].
  destruct (shl_align_spec my ey (Z.min ex ey) ltac:(lia)) as [Hy1 Hy2].
  rewrite Hx2 in Hx1. rewrite Hy2 in Hy1.
  set (px := fst (shl_align mx ex (Z.min ex ey))) in *.
  set (py := fst (shl_align my ey (Z.min ex ey))) in *.
  pose proof (Hop (cond_Zopp sx (Zpos px)) (cond_Zopp sy (Zpos py))) as Habs.
  assert (Hax : Z.abs (cond_Zopp sx (Zpos px)) = Zpos px) by (destruct sx; reflexivity).
  assert (Hay : Z.abs (cond_Zopp sy (Zpos py)) = Zpos py) by (destruct sy; reflexivity).
  rewrite Hax, Hay in Habs.
  eapply sf_below_mono; [|apply (binary_normalize_below (a + 1))]; try lia.
  pose proof (log2_add_le px py).
  assert (Z.log2 (Z.abs (op (cond_Zopp sx (Zpos px)) (cond_Zopp sy (Zpos py))))
          <= Z.log2 (Zpos px + Zpos py)) by (apply Z.log2_le_mono; lia).
  lia.
Qed.

(** The sum and the difference of two floats below [2^a]; of the arguments
    only the bound on the exponent is used. *)
Lemma SFadd_below_wide a x y :
  (forall s m e, x = S754_finite s m e -> e <= 971) ->
  (forall s m e, y = S754_finite s m e -> e <= 971) ->
  sf_below a x -> sf_below a y -> a <= 1022 ->
  sf_below (Z.max (a + 2) (-1072)) (SFadd prec emax x y).
Proof.
  intros Hvx Hvy Hx Hy Ha.
  destruct x as [sx|sx| |sx mx ex], y as [sy|sy| |sy my ey];
    cbn [sf_below] in *; try contradiction.
  - destruct sx, sy; exact I.
  - cbn [SFadd]. cbn [sf_below]. lia.
  - cbn [SFadd]. cbn [sf_below]. lia.
  - pose proof (Hvx _ _ _ eq_refl) as Hex. pose proof (Hvy _ _ _ eq_refl) as Hey.
    cbn [SFadd]. apply (aligned_sum_below a sx mx ex sy my ey Z.add); try assumption.
    intros u v. lia.
Qed.

Lemma SFsub_below_wide a x y :
  (forall s m e, x = S754_finite s m e -> e <= 971) ->
  (forall s m e, y = S754_finite s m e -> e <= 971) ->
  sf_below a x -> sf_below a y -> a <= 1022 ->
  sf_below (Z.max (a + 2) (-1072)) (SFsub prec emax x y).
Proof.
  intros Hvx Hvy Hx Hy Ha.
  destruct x as [sx|sx| |sx mx ex], y as [sy|sy| |sy my ey];
    cbn [sf_below] in *; try contradiction.
  - destruct sx, sy; exact I.
  - cbn [SFsub]. cbn [sf_below]. lia.
  - cbn [SFsub]. cbn [sf_below]. lia.
  - pose proof (Hvx _ _ _ eq_refl) as Hex. pose proof (Hvy _ _ _ eq_refl) as Hey.
    cbn [SFsub]. apply (aligned_sum_below a sx mx ex sy my ey Z.sub); try assumption.
    intros u v. lia.
Qed.

Lemma valid_exponent x s m e :
  valid_binary x = true -> x = S754_finite s m e -> e <= 971.
Proof.
  intros Hv ->. unfold valid_binary, bounded in Hv.
  apply andb_true_iff in Hv as [_ He]. apply Z.leb_le in He. exact He.
Qed.

Lemma SFadd_below a x y :
  valid_binary x = true -> valid_binary y = true ->
  sf_below a x -> sf_below a y -> a <= 1022 ->
  sf_below (Z.max (a + 2) (-1072)) (SFadd prec emax x y).
Proof.
  intros Hvx Hvy. apply SFadd_below_wide; intros s m e; now apply valid_exponent.
Qed.

Lemma SFsub_below a x y :
  valid_binary x = true -> valid_binary y = true ->
  sf_below a x -> sf_below a y -> a <= 1022 ->
  sf_below (Z.max (a + 2) (-1072)) (SFsub prec emax x y).
Proof.
  intros Hvx Hvy. apply SFsub_below_wide; intros s m e; now apply valid_exponent.
Qed.

(** The quotient of a float below [2^a] by one of magnitude at least [2^b]. *)
Lemma SFdiv_below a b x sy my ey :
  sf_below a x -> b <= Z.log2 (Zpos my) + ey -> a - b <= 1023 ->
  sf_below (Z.max (a - b + 2) (-1072)) (SFdiv prec emax x (S754_finite sy my ey)).
Proof.
  intros Hx Hy Hab.
  destruct x as [sx|sx| |sx mx ex]; cbn [sf_below] in Hx; try contradiction; [exact I|].
  cbn [SFdiv]. unfold SFdiv_core_binary.
  rewrite !Zdigits2_log2 by lia.
  pose proof (Z.log2_nonneg (Zpos mx)) as Hlx. pose proof (Z.log2_nonneg (Zpos my)) as Hly.
  remember (Z.min (fexp prec emax (Z.log2 (Zpos mx) + 1 + ex - (Z.log2 (Zpos my) + 1 + ey)))
                  (ex - ey)) as e' eqn:He'.
  rewrite fexp64 in He'.
  remember (ex - ey - e') as sh eqn:Hsh.
  assert (Hsh0 : 0 <= sh) by lia.
  set (m' := match sh with Zpos _ => Z.shiftl (Zpos mx) sh | Z0 => Zpos mx | Zneg _ => 0 end).
  assert (Hm' : m' = Z.shiftl (Zpos mx) sh).
  { unfold m'. destruct sh; [now rewrite Z.shiftl_0_r|reflexivity|lia]. }
  assert (Hlm' : Z.log2 m' = Z.log2 (Zpos mx) + sh).
  { rewrite Hm', Z.log2_shiftl by lia. reflexivity. }
  assert (Hm'pos : 0 < m').
  { rewrite Hm', Z.shiftl_mul_pow2 by lia. apply Z.mul_pos_pos; [lia|]. apply Z.pow_pos_nonneg; lia. }
  pose proof (Z_div_mod m' (Zpos my) ltac:(lia)) as Hdm.
  destruct (Z.div_eucl m' (Zpos my)) as [q r]. destruct Hdm as [Hdm Hr].
  assert (Hq0 : 0 <= q) by nia.
  destruct (Z.eq_dec q 0) as [->|Hqn].
  - eapply sf_below_mono; [|apply bra_zero_bound]; lia.
  - assert (Hlq : Z.log2 q + Z.log2 (Zpos my) <= Z.log2 m').
    { etransitivity; [apply Z.log2_mul_below; lia|]. apply Z.log2_le_mono. nia. }
    eapply sf_below_mono; [|apply bra_bound]; lia.
Qed.

Lemma log2_sqrt_le m : 0 < m -> 2 * Z.log2 (Z.sqrt m) <= Z.log2 m.
Proof.
  intros Hm. assert (Hs : 0 < Z.sqrt m) by (apply Z.sqrt_pos; lia).
  pose proof (Z.sqrt_spec m ltac:(lia)) as [Hle _].
  pose proof (Z.log2_mul_below (Z.sqrt m) (Z.sqrt m) Hs Hs).
  assert (Z.log2 (Z.sqrt m * Z.sqrt m) <= Z.log2 m) by (apply Z.log2_le_mono; lia).
  lia.
Qed.

(** The square root of a float below [2^a], [0 <= a]. *)
Lemma SFsqrt_below a x :
  valid_binary x = true -> sf_nonneg x = true -> sf_below a x -> 0 <= a <= 1024 ->
  sf_below (a + 2) (SFsqrt prec emax x).
Proof.
  intros Hv Hn Hx Ha.
  destruct x as [sx|sx| |[] mx ex]; cbn [sf_below sf_nonneg] in Hx, Hn;
    try contradiction; try discriminate; cbn [SFsqrt]; [exact I|].
  unfold valid_binary, bounded in Hv. apply andb_true_iff in Hv as [Hc Hex].
  apply canonical_inv in Hc as (Hl & Hemin & _).
  unfold SFsqrt_core_binary. rewrite Zdigits2_log2 by lia.
  pose proof (Z.log2_nonneg (Zpos mx)) as Hlx.
  remember (Z.min (fexp prec emax (Z.div2 (Z.log2 (Zpos mx) + 1 + ex + 1))) (Z.div2 ex))
    as e' eqn:He'.
  rewrite fexp64 in He'.
  pose proof (Z.div2_odd ex) as Hd1.
  pose proof (Z.div2_odd (Z.log2 (Zpos mx) + 1 + ex + 1)) as Hd2.
  assert (Hb : forall c, 0 <= Z.b2z c <= 1) by (intros []; cbn; lia).
  pose proof (Hb (Z.odd ex)) as Hb1.
  pose proof (Hb (Z.odd (Z.log2 (Zpos mx) + 1 + ex + 1))) as Hb2.
  remember (ex - 2 * e') as sh eqn:Hsh.
  assert (Hsh0 : 0 <= sh) by lia.
  set (m' := match sh with Zpos _ => Z.shiftl (Zpos mx) sh | Z0 => Zpos mx | Zneg _ => 0 end).
  assert (Hm' : m' = Z.shiftl (Zpos mx) sh).
  { unfold m'. destruct sh; [now rewrite Z.shiftl_0_r|reflexivity|lia]. }
  assert (Hlm' : Z.log2 m' = Z.log2 (Zpos mx) + sh).
  { rewrite Hm', Z.log2_shiftl by lia. reflexivity. }
  assert (Hm'pos : 0 < m').
  { rewrite Hm', Z.shiftl_mul_pow2 by lia. apply Z.mul_pos_pos; [lia|]. apply Z.pow_pos_nonneg; lia. }
  pose proof (Z.sqrtrem_sqrt m') as Hq.
  destruct (Z.sqrtrem m') as [q r]. cbn [fst] in Hq. subst q.
  assert (Hs : 0 < Z.sqrt m') by (apply Z.sqrt_pos; lia).
  pose proof (log2_sqrt_le m' Hm'pos) as Hls.
  pose proof (Z.log2_nonneg (Z.sqrt m')) as Hls0.
  eapply sf_below_mono; [|apply bra_bound]; lia.
Qed.

(** Rounding does not move a value down a binade. *)
Lemma binary_round_ge s p e : -1074 <= e ->
  exists m2 e2,
    binary_round prec emax s p e
      = (if e2 <=? 971 then S754_finite s m2 e2 else S754_infinity s) /\
    Z.log2 (Zpos p) + e <= Z.log2 (Zpos m2) + e2.
Proof.
  intros He. unfold binary_round, shl_align.
  rewrite digits2_pos_log2.
  set (f := fexp prec emax (Z.log2 (Z.pos p) + 1 + e)).
  assert (Hf : f = Z.max (Z.log2 (Zpos p) + 1 + e - 53) (-1074)) by reflexivity.
  assert (Hlp : 0 <= Z.log2 (Zpos p)) by apply Z.log2_nonneg.
  assert (Hgen : forall lm e0 n q m2 e2,
     Z.log2 q = lm - n ->
     (e2 = e0 + n /\ q <= m2 <= q + 1) \/
     (e2 = e0 + n + 1 /\ m2 = 2 ^ 52 /\ Z.log2 q = 52) ->
     lm + e0 <= Z.log2 m2 + e2).
  { intros lm e0 n q m2 e2 Hl H.
    destruct H as [[-> [H1 _]]|(-> & -> & H52)].
    - apply Z.log2_le_mono in H1. lia.
    - change (Z.log2 (2 ^ 52)) with 52. lia. }
  destruct (f - e) as [|d|d] eqn:Ed.
  - pose proof (bra_spec s (Zpos p) e loc_Exact) as B. cbv zeta in B. fold f in B.
    rewrite Ed, Z.shiftr_0_r in B.
    destruct B as (m2 & e2 & H1 & H2 & H3); try lia.
    exists m2, e2. split; [assumption|].
    apply (Hgen _ e 0 (Zpos p)); [lia|exact H3].
  - pose proof (bra_spec s (Zpos p) e loc_Exact) as B. cbv zeta in B. fold f in B.
    rewrite Ed in B.
    assert (Hq : 0 < Z.shiftr (Zpos p) (Zpos d)) by (apply shiftr_pos_iff; lia).
    destruct B as (m2 & e2 & H1 & H2 & H3); try lia.
    exists m2, e2. split; [assumption|].
    apply (Hgen _ e (Zpos d) (Z.shiftr (Zpos p) (Zpos d))); [|exact H3].
    apply log2_shiftr_le; lia.
  - assert (Hl : Z.log2 (Zpos (Pos.iter xO p d)) + 1 + f = Z.log2 (Zpos p) + 1 + e).
    { rewrite pos_iter_xO, Z.log2_mul_pow2 by lia. lia. }
    pose proof (bra_spec s (Zpos (Pos.iter xO p d)) f loc_Exact) as B. cbv zeta in B.
    rewrite Hl in B. fold f in B. rewrite Z.sub_diag, Z.shiftr_0_r in B.
    destruct B as (m2 & e2 & H1 & H2 & H3); try lia.
    exists m2, e2. split; [assumption|].
    replace (Z.log2 (Zpos p) + e) with (Z.log2 (Zpos (Pos.iter xO p d)) + f) by lia.
    apply (Hgen _ f 0 (Zpos (Pos.iter xO p d))); [lia|exact H3].
Qed.

(** [1.0 + y] for [y] not negative and below [2^a]: finite and at least 1. *)
Lemma one_plus_range a y :
  nonneg y = true -> below a y -> 1 <= a <= 1020 ->
  exists m e, Prim2SF (1 + y) = S754_finite false m e /\
              0 <= Z.log2 (Zpos m) + e < a + 2.
Proof.
  unfold nonneg, below. intros Hn Hb Ha.
  pose proof (Prim2SF_valid y) as Hv.
  assert (Hup : sf_below (Z.max (a + 2) (-1072)) (Prim2SF (1 + y))).
  { rewrite add_spec. apply SFadd_below; try assumption; [reflexivity| |lia].
    change (Prim2SF 1) with (S754_finite false 4503599627370496 (-52)).
    cbn [sf_below]. change (Z.log2 (Zpos 4503599627370496)) with 52. lia. }
  rewrite add_spec in *.
  change (Prim2SF 1) with (S754_finite false 4503599627370496 (-52)) in *.
  destruct (Prim2SF y) as [sy|sy| |[] my ey] eqn:E; cbn [sf_below sf_nonneg] in *;
    try contradiction; try discriminate.
  - exists 4503599627370496%positive, (-52). split; [reflexivity|].
    change (Z.log2 (Zpos 4503599627370496)) with 52. lia.
  - unfold valid_binary, bounded in Hv. apply andb_true_iff in Hv as [Hc _].
    apply canonical_inv in Hc as (_ & Hey & _).
    unfold SF64add, SFadd in *. cbn [cond_Zopp] in *.
    rewrite <- Pos2Z.inj_add in *. unfold binary_normalize in *.
    destruct (shl_align_spec 4503599627370496 (-52) (Z.min (-52) ey) ltac:(lia)) as [Hx1 Hx2].
    rewrite Hx2 in Hx1. change (Z.log2 (Zpos 4503599627370496)) with 52 in Hx1.
    set (px := fst (shl_align 4503599627370496 (-52) (Z.min (-52) ey))) in *.
    set (py := fst (shl_align my ey (Z.min (-52) ey))) in *.
    destruct (binary_round_ge false (px + py) (Z.min (-52) ey) ltac:(lia))
      as (m2 & e2 & H & Hlow).
    rewrite H in Hup |- *. destruct (e2 <=? 971); [|contradiction].
    exists m2, e2. split; [reflexivity|]. cbn [sf_below] in Hup.
    assert (Z.log2 (Zpos px) <= Z.log2 (Zpos (px + py))) by (apply Z.log2_le_mono; lia).
    lia.
Qed.

(** The same bounds on the primitive operations. *)
Lemma below_valid k x : below k x -> valid_binary (Prim2SF x) = true.
Proof. intros _. apply Prim2SF_valid. Qed.

Lemma below_mono k k' x : k <= k' -> below k x -> below k' x.
Proof. unfold below. apply sf_below_mono. Qed.

Lemma add_below a x y : below a x -> below a y -> -1074 <= a <= 1022 -> below (a + 2) (x + y).
Proof.
  unfold below. intros Hx Hy Ha. rewrite add_spec.
  eapply sf_below_mono; [|apply (SFadd_below a)]; try assumption;
    try apply Prim2SF_valid; lia.
Qed.

Lemma sub_below a x y : below a x -> below a y -> -1074 <= a <= 1022 -> below (a + 2) (x - y).
Proof.
  unfold below. intros Hx Hy Ha. rewrite sub_spec.
  eapply sf_below_mono; [|apply (SFsub_below a)]; try assumption;
    try apply Prim2SF_valid; lia.
Qed.

Lemma mul_below a b x y :
  below a x -> below b y -> -1073 <= a + b <= 1022 -> below (a + b + 1) (x * y).
Proof.
  unfold below. intros Hx Hy Ha. rewrite mul_spec.
  eapply sf_below_mono; [|apply (SFmul_below a b)]; try assumption;
    try apply Prim2SF_valid; lia.
Qed.

Lemma half_below a x : below a x -> -1073 <= a <= 1023 -> below (a + 1) (x / 2).
Proof.
  unfold below. intros Hx Ha. rewrite div_spec.
  change (Prim2SF 2) with (S754_finite false 4503599627370496 (-51)).
  eapply sf_below_mono; [|apply (SFdiv_below a 1)]; try assumption; try lia.
  change (Z.log2 (Zpos 4503599627370496)) with 52. lia.
Qed.

Lemma abs_below a x : below a x -> below a (abs x).
Proof. unfold below. rewrite abs_spec. destruct (Prim2SF x); cbn; auto. Qed.

Lemma below_finite k x : below k x -> is_nan x = false /\ is_infinity x = false.
Proof.
  unfold below, is_infinity. intros Hx. split.
  - apply is_nan_false. intros E. rewrite E in Hx. exact Hx.
  - rewrite FloatAxioms.eqb_spec, abs_spec.
    destruct (Prim2SF x); cbn [sf_below] in Hx; try contradiction; reflexivity.
Qed.

Lemma py_max_0_below a v : 0 <= a -> below a v -> below a (py_max 0 v).
Proof.
  intros Ha Hv. unfold py_max. destruct (0 <? v)%float; [assumption|]. exact I.
Qed.

Lemma sqrt_below a x :
  nonneg x = true -> below a x -> 0 <= a <= 1024 -> below (a + 2) (sqrt x).
Proof.
  unfold below, nonneg. intros Hn Hx Ha. rewrite sqrt_spec.
  apply SFsqrt_below; try assumption. apply Prim2SF_valid.
Qed.

(** What the range tests on the inputs give. *)
Lemma lt_pow52 m : (m < 4503599627370496)%positive -> Z.log2 (Zpos m) < 52.
Proof.
  intros H. apply Z.log2_lt_pow2; [reflexivity|].
  apply Pos2Z.pos_lt_pos in H. exact H.
Qed.

Lemma coord_ok_below x : coord_ok x = true -> below 500 x.
Proof.
  unfold coord_ok, below. rewrite FloatAxioms.ltb_spec, abs_spec.
  assert (HL : Prim2SF coord_limit = S754_finite false 4503599627370496 448)
    by (vm_compute; reflexivity).
  rewrite HL. clear HL.
  destruct (Prim2SF x) as [s|s| |s m e] eqn:E; cbn [SFabs sf_below];
    try discriminate; [auto|].
  destruct (Prim2SF_finite_inv _ _ _ _ E) as [Hc _].
  apply canonical_inv in Hc as (Hl & _ & _).
  unfold SFltb, SFcompare. destruct (Z.compare_spec e 448); try discriminate; [|lia].
  subst e.
  destruct (Pos.compare_cont Eq m 4503599627370496) eqn:Hcmp; try discriminate.
  intros _. apply lt_pow52 in Hcmp. lia.
Qed.

Lemma conf_in_unit_below d : conf_in_unit d = true -> below 1 (conf d).
Proof.
  unfold conf_in_unit, below. rewrite andb_true_iff, !FloatAxioms.leb_spec.
  change (Prim2SF 0) with (S754_zero false).
  change (Prim2SF 1) with (S754_finite false 4503599627370496 (-52)).
  destruct (Prim2SF (conf d)) as [s|[]| |[] m e] eqn:E; cbn [sf_below];
    intros [H0 H1]; try discriminate; [exact I|].
  destruct (Prim2SF_finite_inv _ _ _ _ E) as [Hc _].
  apply canonical_inv in Hc as (Hl & _ & _).
  unfold SFleb, SFcompare in H1. destruct (Z.compare_spec e (-52)); try discriminate; lia.
Qed.

(** The conversions of [w], [h] and [w * h] to floats. *)
Lemma round_int_spec z e f :
  -1074 <= e -> round_int z e = Ok f ->
  Prim2SF f = binary_normalize prec emax z e false.
Proof.
  intros He. unfold round_int, binary_normalize. destruct z as [|p|p].
  - intros [= <-]. reflexivity.
  - destruct (binary_round_spec false p e He) as (m2 & e2 & -> & Hc & _).
    destruct (e2 <=? 971) eqn:E; [|discriminate]. intros H.
    assert (Hf : f = SF2Prim (S754_finite false m2 e2)) by congruence.
    rewrite Hf. apply valid_finite; [assumption|now apply Z.leb_le].
  - destruct (binary_round_spec true p e He) as (m2 & e2 & -> & Hc & _).
    destruct (e2 <=? 971) eqn:E; [|discriminate]. intros H.
    assert (Hf : f = SF2Prim (S754_finite true m2 e2)) by congruence.
    rewrite Hf. apply valid_finite; [assumption|now apply Z.leb_le].
Qed.

Lemma round_int_below a z e :
  -1074 <= e <= 971 -> Z.log2 (Z.abs z) + e < a -> -1073 <= a <= 1022 ->
  exists f, round_int z e = Ok f /\ below (a + 1) f.
Proof.
  intros He Hz Ha. destruct (round_int_returns z e) as [f Hf]; [lia|lia|].
  exists f. split; [assumption|]. unfold below.
  rewrite (round_int_spec z e f) by (assumption || lia).
  eapply sf_below_mono; [|apply (binary_normalize_below a)]; lia.
Qed.

Lemma log2_abs_lt z k : 0 < k -> Z.abs z < 2 ^ k -> Z.log2 (Z.abs z) < k.
Proof.
  intros Hk Hz. destruct (Z.eq_dec z 0) as [->|Hnz]; [exact Hk|].
  apply Z.log2_lt_pow2; [lia|assumption].
Qed.

End Magnitudes.

(** ** Floats: neighbours

    [next_up] and [next_down] move a float by one unit in the last place, so
    they stay within two binades of it. *)

Section Neighbours.
Local Open Scope Z_scope.

Lemma bra_exponent s m e l s' m' e' :
  binary_round_aux prec emax s m e l = S754_finite s' m' e' -> e' <= 971.
Proof.
  unfold binary_round_aux.
  destruct (shr_fexp prec emax m e l) as [mrs1 e1].
  destruct (shr_fexp prec emax _ e1 loc_Exact) as [mrs2 e2].
  destruct (shr_m mrs2); try discriminate.
  destruct (e2 <=? emax - prec) eqn:E; [|discriminate].
  intros [= _ _ <-]. apply Z.leb_le in E. exact E.
Qed.

Lemma binary_round_exponent s p e s' m' e' :
  binary_round prec emax s p e = S754_finite s' m' e' -> e' <= 971.
Proof.
  unfold binary_round. destruct (shl_align _ _ _) as [mz ez]. apply bra_exponent.
Qed.

(** A power of two [2^k], as [SFulp] and [SFpred_pos] build it. *)
Lemma SFldexp_one_below k :
  k <= 1022 -> sf_below (Z.max (k + 2) (-1072)) (SFldexp prec emax (SFone prec emax) k).
Proof.
  intros Hk.
  change (SFone prec emax) with (S754_finite false 4503599627370496 (-52)).
  cbn [SFldexp].
  eapply sf_below_mono; [|apply binary_round_below];
    change (Z.log2 (Zpos 4503599627370496)) with 52; lia.
Qed.

Lemma SFldexp_one_exponent k s m e :
  SFldexp prec emax (SFone prec emax) k = S754_finite s m e -> e <= 971.
Proof.
  change (SFone prec emax) with (S754_finite false 4503599627370496 (-52)).
  cbn [SFldexp]. apply binary_round_exponent.
Qed.

Lemma SFfrexp_exponent s m e :
  snd (SFfrexp prec emax (S754_finite s m e)) <= e + Z.log2 (Zpos m) + 1.
Proof.
  cbn [SFfrexp]. rewrite digits2_pos_log2.
  destruct (prec <=? Z.log2 (Zpos m) + 1) eqn:E; cbn [snd].
  - apply Z.leb_le in E. lia.
  - lia.
Qed.

Lemma SFulp_below a s m e :
  Z.log2 (Zpos m) + e < a -> a <= 1022 ->
  sf_below (Z.max a (-1072)) (SFulp prec emax (S754_finite s m e)).
Proof.
  intros Hx Ha. unfold SFulp.
  pose proof (SFfrexp_exponent s m e) as Hf.
  set (k := snd (SFfrexp prec emax (S754_finite s m e))) in *.
  rewrite fexp64.
  eapply sf_below_mono; [|apply SFldexp_one_below]; lia.
Qed.

Lemma SFsucc_pos_below a m e :
  e <= 971 -> Z.log2 (Zpos m) + e < a -> -1072 <= a <= 1020 ->
  sf_below (a + 2) (SFadd prec emax (S754_finite false m e) (SFulp prec emax (S754_finite false m e))).
Proof.
  intros He Hx Ha.
  eapply sf_below_mono; [|apply (SFadd_below_wide a)].
  - lia.
  - intros s' m' e' [= _ _ <-]. exact He.
  - intros s' m' e'. apply SFldexp_one_exponent.
  - exact Hx.
  - eapply sf_below_mono; [|apply (SFulp_below a)]; lia.
  - lia.
Qed.

Lemma SFpred_pos_below a s m e :
  e <= 971 -> Z.log2 (Zpos m) + e < a -> -1072 <= a <= 1020 ->
  sf_below (a + 2) (SFpred_pos prec emax (S754_finite s m e)).
Proof.
  intros He Hx Ha. cbn [SFpred_pos].
  eapply sf_below_mono; [|apply (SFsub_below_wide a)].
  - lia.
  - intros s' m' e' [= _ _ <-]. exact He.
  - intros s' m' e'. destruct (_ =? _)%positive; apply SFldexp_one_exponent.
  - exact Hx.
  - destruct (_ =? _)%positive.
    + pose proof (SFfrexp_exponent s m e) as Hf.
      set (k := snd (SFfrexp prec emax (S754_finite s m e))) in *.
      rewrite fexp64.
      eapply sf_below_mono; [|apply SFldexp_one_below]; lia.
    + eapply sf_below_mono; [|apply (SFulp_below a)]; lia.
  - lia.
Qed.

Lemma sf_below_opp a x : sf_below a x -> sf_below a (SFopp x).
Proof. destruct x; exact id. Qed.

Lemma SFsucc_below a x :
  valid_binary x = true -> sf_below a x -> -1072 <= a <= 1020 ->
  sf_below (a + 2) (SFsucc prec emax x).
Proof.
  intros Hv Hx Ha. destruct x as [s|s| |[] m e]; cbn [sf_below] in Hx; try contradiction.
  - cbn [SFsucc].
    change (SFldexp prec emax (SFone prec emax) (SpecFloat.emin prec emax))
      with (S754_finite false 1 (-1074)).
    cbn [sf_below]. change (Z.log2 1) with 0. lia.
  - cbn [SFsucc]. apply sf_below_opp. cbn [SFopp negb].
    apply SFpred_pos_below; [eapply valid_exponent; eauto|assumption|assumption].
  - cbn [SFsucc]. apply SFsucc_pos_below; [eapply valid_exponent; eauto|assumption|assumption].
Qed.

Lemma valid_opp x : valid_binary x = true -> valid_binary (SFopp x) = true.
Proof. destruct x; exact id. Qed.

Lemma next_up_below a x : below a x -> -1072 <= a <= 1020 -> below (a + 2) (next_up x).
Proof.
  unfold below. intros Hx Ha. rewrite next_up_spec.
  apply SFsucc_below; [apply Prim2SF_valid|assumption|assumption].
Qed.

Lemma next_down_below a x : below a x -> -1072 <= a <= 1020 -> below (a + 2) (next_down x).
Proof.
  unfold below. intros Hx Ha. rewrite next_down_spec.
  apply sf_below_opp, SFsucc_below;
    [apply valid_opp, Prim2SF_valid|now apply sf_below_opp|assumption].
Qed.

Lemma within_one_below a r c :
  within_one r c -> below a c -> -1072 <= a <= 1020 -> below (a + 2) r.
Proof.
  intros [->|[->| ->]] Hc Ha.
  - eapply below_mono; [|exact Hc]. lia.
  - now apply next_up_below.
  - now apply next_down_below.
Qed.

End Neighbours.

(** ** [** 2] and [** 0.5]

    What the two powers of [score] return on a conforming platform. *)

Section Powers.
Local Open Scope Z_scope.

(** The square root of a float below [2^(2 b)]. *)
Lemma SFsqrt_below_half a b x :
  valid_binary x = true -> sf_nonneg x = true -> sf_below a x ->
  a <= 2 * b -> 0 <= b <= 512 ->
  sf_below (b + 2) (SFsqrt prec emax x).
Proof.
  intros Hv Hn Hx Hab Hb.
  destruct x as [sx|sx| |[] mx ex]; cbn [sf_below sf_nonneg] in Hx, Hn;
    try contradiction; try discriminate; cbn [SFsqrt]; [exact I|].
  unfold valid_binary, bounded in Hv. apply andb_true_iff in Hv as [Hc Hex].
  apply canonical_inv in Hc as (Hl & Hemin & _).
  unfold SFsqrt_core_binary. rewrite Zdigits2_log2 by lia.
  pose proof (Z.log2_nonneg (Zpos mx)) as Hlx.
  remember (Z.min (fexp prec emax (Z.div2 (Z.log2 (Zpos mx) + 1 + ex + 1))) (Z.div2 ex))
    as e' eqn:He'.
  rewrite fexp64 in He'.
  pose proof (Z.div2_odd ex) as Hd1.
  pose proof (Z.div2_odd (Z.log2 (Zpos mx) + 1 + ex + 1)) as Hd2.
  assert (Hbz : forall c, 0 <= Z.b2z c <= 1) by (intros []; cbn; lia).
  pose proof (Hbz (Z.odd ex)) as Hb1.
  pose proof (Hbz (Z.odd (Z.log2 (Zpos mx) + 1 + ex + 1))) as Hb2.
  remember (ex - 2 * e') as sh eqn:Hsh.
  assert (Hsh0 : 0 <= sh) by lia.
  set (m' := match sh with Zpos _ => Z.shiftl (Zpos mx) sh | Z0 => Zpos mx | Zneg _ => 0 end).
  assert (Hm' : m' = Z.shiftl (Zpos mx) sh).
  { unfold m'. destruct sh; [now rewrite Z.shiftl_0_r|reflexivity|lia]. }
  assert (Hlm' : Z.log2 m' = Z.log2 (Zpos mx) + sh).
  { rewrite Hm', Z.log2_shiftl by lia. reflexivity. }
  assert (Hm'pos : 0 < m').
  { rewrite Hm', Z.shiftl_mul_pow2 by lia. apply Z.mul_pos_pos; [lia|]. apply Z.pow_pos_nonneg; lia. }
  pose proof (Z.sqrtrem_sqrt m') as Hq.
  destruct (Z.sqrtrem m') as [q r]. cbn [fst] in Hq. subst q.
  assert (Hs : 0 < Z.sqrt m') by (apply Z.sqrt_pos; lia).
  pose proof (log2_sqrt_le m' Hm'pos) as Hls.
  pose proof (Z.log2_nonneg (Z.sqrt m')) as Hls0.
  eapply sf_below_mono; [|apply bra_bound]; lia.
Qed.

Lemma sqrt_below_half a b x :
  nonneg x = true -> below a x -> a <= 2 * b -> 0 <= b <= 512 -> below (b + 2) (sqrt x).
Proof.
  unfold below, nonneg. intros Hn Hx Hab Hb. rewrite sqrt_spec.
  apply (SFsqrt_below_half a); try assumption. apply Prim2SF_valid.
Qed.

(** A float that passes the three tests of [float_pow] is finite and not
    zero. *)
Lemma tested_finite x :
  is_nan x = false -> is_infinity x = false -> (x =? 0)%float = false ->
  exists s m e, Prim2SF x = S754_finite s m e.
Proof.
  intros Hn Hi Hz. apply is_nan_false in Hn.
  unfold is_infinity in Hi. rewrite FloatAxioms.eqb_spec, abs_spec in Hi.
  rewrite FloatAxioms.eqb_spec in Hz.
  destruct (Prim2SF x) as [s|s| |s m e]; try discriminate; [contradiction|].
  now exists s, m, e.
Qed.

Lemma finite_below x s m e : Prim2SF x = S754_finite s m e -> below 1024 x.
Proof.
  intros E. destruct (Prim2SF_finite_inv x s m e E) as [Hc He].
  apply canonical_inv in Hc as (Hl & _ & _).
  unfold below. rewrite E. cbn [sf_below]. lia.
Qed.

Lemma abs_base x s m e :
  Prim2SF x = S754_finite s m e ->
  (0 <? abs x)%float = true /\ (abs x <? infinity)%float = true.
Proof.
  intros E. rewrite !FloatAxioms.ltb_spec, abs_spec, E. split; reflexivity.
Qed.

Lemma positive_base x s m e :
  Prim2SF x = S754_finite s m e -> (x <? 0)%float = false ->
  (0 <? x)%float = true /\ (x <? infinity)%float = true.
Proof.
  intros E. rewrite !FloatAxioms.ltb_spec, E. destruct s; [discriminate|].
  intros _. split; reflexivity.
Qed.

Lemma not_negative_nonneg r : (r <? 0)%float = false -> nonneg r = true.
Proof.
  unfold nonneg. rewrite FloatAxioms.ltb_spec.
  destruct (Prim2SF r) as [s|[]| |[] m e]; try reflexivity; discriminate.
Qed.

(** From [2^512] on, the leading bit is at position 512 or above. *)
Lemma at_square_limit x s m e :
  Prim2SF x = S754_finite s m e -> (square_limit <=? abs x)%float = true ->
  512 <= Z.log2 (Zpos m) + e.
Proof.
  intros E. destruct (Prim2SF_finite_inv x s m e E) as [Hc _].
  apply canonical_inv in Hc as (_ & _ & Hn).
  rewrite FloatAxioms.leb_spec, abs_spec, E.
  change (Prim2SF square_limit) with (S754_finite false 4503599627370496 460).
  cbn [SFabs]. unfold SFleb, SFcompare.
  destruct (Z.compare_spec 460 e) as [<-|Hlt|Hgt]; [|lia|discriminate].
  change (Pos.compare_cont Eq 4503599627370496 m) with (Pos.compare 4503599627370496 m).
  intros Hm.
  assert (Hle : (4503599627370496 <= m)%positive).
  { unfold Pos.le. destruct (4503599627370496 ?= m)%positive; discriminate. }
  assert (Z.log2 (Zpos 4503599627370496) <= Z.log2 (Zpos m)) as Hl
    by (apply Z.log2_le_mono; exact Hle).
  change (Z.log2 (Zpos 4503599627370496)) with 52 in Hl. lia.
Qed.

(** Rounding a value of [2^1024] or more gives infinity. *)
Lemma bra_overflow s m e :
  0 < m -> -1074 <= e -> 52 <= Z.log2 m -> 1024 <= Z.log2 m + e ->
  binary_round_aux prec emax s m e loc_Exact = S754_infinity s.
Proof.
  intros Hm He Hl Hmag.
  assert (Hn : fexp prec emax (Z.log2 m + 1 + e) - e = Z.log2 m - 52)
    by (rewrite fexp64; lia).
  destruct (bra_spec s m e loc_Exact Hm) as (m2 & e2 & -> & Hc & Hcase).
  - lia.
  - apply shiftr_pos_iff; lia.
  - rewrite Hn in Hcase. destruct (e2 <=? 971) eqn:E2; [|reflexivity].
    apply Z.leb_le in E2. lia.
Qed.

Lemma square_out_of_range x s m e :
  Prim2SF x = S754_finite s m e -> (square_limit <=? abs x)%float = true ->
  is_infinity (x * x) = true.
Proof.
  intros E Hx. pose proof (at_square_limit x s m e E Hx) as Hmag.
  destruct (Prim2SF_finite_inv x s m e E) as [Hc _].
  apply canonical_inv in Hc as (Hl & He & Hn).
  pose proof (Z.log2_mul_below (Zpos m) (Zpos m) ltac:(lia) ltac:(lia)) as Hsq.
  unfold is_infinity. rewrite FloatAxioms.eqb_spec, abs_spec, mul_spec, E.
  unfold SF64mul. cbn [SFmul].
  rewrite bra_overflow; [reflexivity|lia|lia|rewrite Pos2Z.inj_mul; lia..].
Qed.

(** A finite base at or above [2^512]. *)
Lemma large_base x :
  (square_limit <=? abs x)%float = true -> (abs x <? infinity)%float = true ->
  exists s m e, Prim2SF x = S754_finite s m e.
Proof.
  rewrite FloatAxioms.leb_spec, FloatAxioms.ltb_spec, abs_spec.
  destruct (Prim2SF x) as [s|s| |s m e]; try discriminate. intros _ _. now exists s, m, e.
Qed.

Context {R : Runtime} {C : Conforms R}.

Lemma float_pow2_nonneg x r : float_pow2 x = Ok r -> nonneg r = true.
Proof.
  unfold float_pow2. cbv zeta.
  destruct (is_nan x) eqn:En.
  { intros [= <-]. unfold nonneg. apply is_nan_spec in En. now rewrite En. }
  destruct (is_infinity x) eqn:Ei. { intros [= <-]. reflexivity. }
  destruct (x =? 0)%float eqn:Ez. { intros [= <-]. reflexivity. }
  destruct (abs x =? 1)%float. { intros [= <-]. reflexivity. }
  destruct (is_infinity (libm_pow _ _)); [discriminate|]. intros [= <-].
  destruct (tested_finite x En Ei Ez) as (s & m & e & E).
  apply not_negative_nonneg, pow_sign. eapply abs_base; exact E.
Qed.

Lemma float_pow_half_nonneg x r : float_pow_half x = Ok r -> nonneg r = true.
Proof.
  unfold float_pow_half. cbv zeta.
  destruct (is_nan x) eqn:En.
  { intros [= <-]. unfold nonneg. apply is_nan_spec in En. now rewrite En. }
  destruct (is_infinity x) eqn:Ei. { intros [= <-]. reflexivity. }
  destruct (x =? 0)%float eqn:Ez. { intros [= <-]. reflexivity. }
  destruct (x <? 0)%float eqn:El; [discriminate|].
  destruct (x =? 1)%float. { intros [= <-]. reflexivity. }
  destruct (is_infinity (libm_pow _ _)); [discriminate|]. intros [= <-].
  destruct (tested_finite x En Ei Ez) as (s & m & e & E).
  apply not_negative_nonneg, pow_sign. eapply positive_base; eassumption.
Qed.

(** [** 0.5] of a float below [2^(2 b)] that is not negative. *)
Lemma float_pow_half_below a b x :
  below a x -> nonneg x = true -> a <= 2 * b -> 0 <= b <= 512 ->
  exists r, float_pow_half x = Ok r /\ below (b + 4) r /\ nonneg r = true.
Proof.
  intros Hx Hn Hab Hb. unfold float_pow_half. cbv zeta.
  destruct (below_finite a x Hx) as [En Ei]. rewrite En, Ei, (nonneg_ltb_0 x Hn).
  destruct (x =? 0)%float eqn:Ez; [exists 0%float; repeat split; lia|].
  destruct (x =? 1)%float.
  { exists 1%float. split; [reflexivity|]. split; [|reflexivity].
    unfold below. change (Prim2SF 1) with (S754_finite false 4503599627370496 (-52)).
    cbn [sf_below]. change (Z.log2 (Zpos 4503599627370496)) with 52. lia. }
  destruct (tested_finite x En Ei Ez) as (s & m & e & E).
  destruct (positive_base x s m e E (nonneg_ltb_0 x Hn)) as [H0 Hi].
  assert (Hr : below (b + 4) (libm_pow x 0.5)).
  { replace (b + 4) with (b + 2 + 2) by lia.
    apply (within_one_below _ _ (sqrt x)); [now apply pow_root| |lia].
    now apply (sqrt_below_half a). }
  destruct (below_finite _ _ Hr) as [_ ->].
  eexists. split; [reflexivity|]. split; [exact Hr|].
  now apply not_negative_nonneg, pow_sign.
Qed.

(** [** 0.5] of a float that is not negative returns: the result is a real
    number, and it is in range. *)
Lemma float_pow_half_real x e : nonneg x = true -> float_pow_half x = Raise e -> False.
Proof.
  intros Hx. unfold float_pow_half. cbv zeta.
  destruct (is_nan x) eqn:En; [discriminate|].
  destruct (is_infinity x) eqn:Ei; [discriminate|].
  destruct (x =? 0)%float eqn:Ez; [discriminate|].
  rewrite (nonneg_ltb_0 x Hx).
  destruct (x =? 1)%float eqn:E1; [discriminate|].
  destruct (tested_finite x En Ei Ez) as (s & m & ex & E).
  destruct (float_pow_half_below 1024 512 x) as (r & Hr & _);
    [eapply finite_below; exact E|assumption|lia|lia|].
  unfold float_pow_half in Hr. cbv zeta in Hr. rewrite En, Ei, Ez, (nonneg_ltb_0 x Hx), E1 in Hr.
  destruct (is_infinity (libm_pow _ _)); discriminate.
Qed.

(** [** 2] of a float below [2^a]. *)
Lemma float_pow2_below a x :
  below a x -> 0 <= a <= 509 ->
  exists r, float_pow2 x = Ok r /\ below (2 * a + 3) r /\ nonneg r = true.
Proof.
  intros Hx Ha. unfold float_pow2. cbv zeta.
  destruct (below_finite a x Hx) as [En Ei]. rewrite En, Ei.
  destruct (x =? 0)%float eqn:Ez; [exists 0%float; repeat split; lia|].
  destruct (abs x =? 1)%float.
  { exists 1%float. split; [reflexivity|]. split; [|reflexivity].
    unfold below. change (Prim2SF 1) with (S754_finite false 4503599627370496 (-52)).
    cbn [sf_below]. change (Z.log2 (Zpos 4503599627370496)) with 52. lia. }
  destruct (tested_finite x En Ei Ez) as (s & m & e & E).
  destruct (abs_base x s m e E) as [H0 Hi].
  assert (Hc : below (2 * a + 1) (abs x * abs x)).
  { replace (2 * a + 1) with (a + a + 1) by lia.
    apply mul_below; try apply abs_below; try assumption. lia. }
  assert (Hr : below (2 * a + 3) (libm_pow (abs x) 2)).
  { replace (2 * a + 3) with (2 * a + 1 + 2) by lia.
    apply (within_one_below _ _ (abs x * abs x)); [now apply pow_square|assumption|lia]. }
  destruct (below_finite _ _ Hr) as [_ ->].
  eexists. split; [reflexivity|]. split; [exact Hr|].
  now apply not_negative_nonneg, pow_sign.
Qed.

(** [** 2] raises from [2^512] on. *)
Lemma float_pow2_overflows x :
  (square_limit <=? abs x)%float = true -> (abs x <? infinity)%float = true ->
  float_pow2 x = Raise OverflowError.
Proof.
  intros Hx Hi. destruct (large_base x Hx Hi) as (s & m & e & E).
  unfold float_pow2. cbv zeta.
  assert (En : is_nan x = false) by (apply is_nan_false; rewrite E; discriminate).
  assert (Ei : is_infinity x = false)
    by (unfold is_infinity; now rewrite FloatAxioms.eqb_spec, abs_spec, E).
  assert (Ez : (x =? 0)%float = false)
    by (rewrite FloatAxioms.eqb_spec, E; now destruct s).
  rewrite En, Ei, Ez.
  destruct (abs x =? 1)%float eqn:E1.
  { exfalso. apply (eqb_finite_eq _ 1 false 4503599627370496 (-52)) in E1; [|reflexivity].
    rewrite E1 in Hx. discriminate Hx. }
  now rewrite pow_square_overflow.
Qed.

End Powers.

(** ** The stable descending sort *)

Section SortedFacts.
Context {A : Type}.
Implicit Types (x y : float * A) (l : list (float * A)).

Lemma insert_desc_perm x l : Permutation (insert_desc x l) (x :: l).
Proof.
  induction l as [|y l IH]; simpl; [reflexivity|].
  destruct (x.1 <? y.1)%float; [|reflexivity].
  rewrite IH. apply perm_swap.
Qed.

Lemma sort_desc_perm l : Permutation (sort_desc l) l.
Proof.
  induction l as [|x l IH]; simpl; [reflexivity|].
  rewrite insert_desc_perm. now constructor.
Qed.

(** An element is moved only past elements of another key class. *)
Lemma filter_insert_desc v x l :
  List.filter (key_is v) (insert_desc x l) = List.filter (key_is v) (x :: l).
Proof.
  induction l as [|y l IH]; [reflexivity|].
  cbn [insert_desc]. destruct (x.1 <? y.1)%float eqn:Hlt; [|reflexivity].
  cbn [List.filter] in *. rewrite IH.
  destruct (key_is v x) eqn:Hx; [|reflexivity].
  unfold key_is in *. rewrite (eqb_ltb_excl _ _ _ Hx Hlt). reflexivity.
Qed.

Lemma filter_sort_desc v l :
  List.filter (key_is v) (sort_desc l) = List.filter (key_is v) l.
Proof.
  induction l as [|x l IH]; [reflexivity|].
  cbn [sort_desc]. rewrite filter_insert_desc. cbn [List.filter]. now rewrite IH.
Qed.

Lemma insert_desc_sorted x l :
  key_number x -> Forall key_number l ->
  StronglySorted key_ge l -> StronglySorted key_ge (insert_desc x l).
Proof.
  intros Hx Hl Hs. induction Hs as [|y l Hs IH Hy]; cbn [insert_desc].
  - repeat constructor.
  - apply Forall_cons in Hl as [Hny Hl].
    destruct (x.1 <? y.1)%float eqn:Hlt.
    + constructor; [now apply IH|].
      eapply Permutation_Forall; [symmetry; apply insert_desc_perm|].
      constructor; [|assumption]. now apply ltb_leb.
    + assert (Hxy : key_ge x y) by now apply not_ltb_leb.
      constructor; [now constructor|].
      constructor; [assumption|].
      eapply Forall_impl; [exact Hy|]. intros z Hz. unfold key_ge in *.
      eapply leb_trans; eassumption.
Qed.

Lemma sort_desc_sorted l :
  Forall key_number l -> StronglySorted key_ge (sort_desc l).
Proof.
  induction l as [|x l IH]; cbn [sort_desc]; [constructor|].
  intros [Hx Hl]%Forall_cons. apply insert_desc_sorted; [assumption| |now apply IH].
  eapply Permutation_Forall; [symmetry; apply sort_desc_perm|assumption].
Qed.

(** Decoration pairs every element with its key. *)
Lemma decorate_spec (key : A -> result float) ds kl :
  decorate key ds = Ok kl ->
  map snd kl = ds /\ Forall (fun kd => key kd.2 = Ok kd.1) kl.
Proof.
  revert kl. induction ds as [|d ds IH]; intros kl; cbn [decorate].
  - intros [= <-]. split; [reflexivity|constructor].
  - destruct (key d) as [k|e] eqn:Hk; [|discriminate]. cbn.
    destruct (decorate key ds) as [kl'|e]; [|discriminate]. cbn.
    intros [= <-]. destruct (IH kl' eq_refl) as [Hm Hf].
    split; [cbn; now rewrite Hm|]. constructor; assumption.
Qed.

Lemma decorate_returns (key : A -> result float) ds :
  Forall (fun d => returns (key d)) ds -> returns (decorate key ds).
Proof.
  induction 1 as [|d ds [k Hk] _ [kl Hkl]]; cbn [decorate].
  - now exists [].
  - rewrite Hk. cbn. rewrite Hkl. cbn. now eexists.
Qed.

Lemma decorate_raise (key : A -> result float) ds e :
  decorate key ds = Raise e -> exists d, d ∈ ds /\ key d = Raise e.
Proof.
  induction ds as [|d ds IH]; cbn [decorate]; [discriminate|].
  destruct (key d) as [k|e'] eqn:Hk; cbn.
  - destruct (decorate key ds) as [kl'|e'']; cbn; [discriminate|].
    intros [= ->]. destruct (IH eq_refl) as (d' & Hin & Hd').
    exists d'. split; [now right|assumption].
  - intros [= ->]. exists d. split; [left|assumption].
Qed.

(** Filtering the elements by their key commutes with undecorating. *)
Lemma filter_undecorate (p : A -> bool) (q : float * A -> bool) l :
  Forall (fun kd => p kd.2 = q kd) l ->
  List.filter p (map snd l) = map snd (List.filter q l).
Proof.
  induction 1 as [|kd l Hkd _ IH]; [reflexivity|].
  cbn. rewrite Hkd, IH. destruct (q kd); reflexivity.
Qed.
End SortedFacts.

(** The reference platform conforms. *)
#[global] Instance reference_conforms : Conforms reference_runtime.
Proof.
  split.
  - intros a b Ha%ltb_0_nonneg. apply nonneg_ltb_0. cbn [libm_pow reference_runtime].
    destruct (b =? 2)%float; [now apply mul_nonneg|].
    destruct (b =? 0.5)%float; [apply sqrt_nonneg|reflexivity].
  - intros a _ _. left. reflexivity.
  - intros a Ha Hi.
    assert (Habs : abs a = a).
    { apply Prim2SF_inj. rewrite abs_spec. rewrite FloatAxioms.ltb_spec in Hi.
      rewrite FloatAxioms.leb_spec in Ha. revert Ha Hi.
      change (Prim2SF square_limit) with (S754_finite false 4503599627370496 460).
      change (Prim2SF infinity) with (S754_infinity false).
      destruct (Prim2SF a) as [s|[]| |[] m e]; try discriminate; reflexivity. }
    rewrite <- Habs in Ha, Hi.
    destruct (large_base a Ha Hi) as (s & m & e & E).
    exact (square_out_of_range a s m e E Ha).
  - intros a _ _. left. reflexivity.
  - intros A l. apply sort_desc_perm.
  - intros A l _. reflexivity.
Qed.

(** ** Ranking *)

Section Ranking.
Context {R : Runtime} {C : Conforms R}.

Lemma salience_score w h cx cy d :
  int_truediv2 w = Ok cx -> int_truediv2 h = Ok cy ->
  salience w h d = score cx cy (Z.max (w * h) 1) d.
Proof. intros Hw Hh. unfold salience. now rewrite Hw, Hh. Qed.

Lemma rank_objects_inv dets w h out :
  dets <> [] -> rank_objects dets w h = Ok out ->
  exists cx cy kl,
    int_truediv2 w = Ok cx /\ int_truediv2 h = Ok cy /\
    decorate (score cx cy (Z.max (w * h) 1)) dets = Ok kl /\
    out = map snd (list_sort _ kl).
Proof.
  intros Hne. unfold rank_objects. destruct dets as [|d dets]; [congruence|].
  destruct (int_truediv2 w) as [cx|]; [|discriminate].
  destruct (int_truediv2 h) as [cy|]; [|discriminate].
  cbn [mbind result_bind]. unfold sorted_desc.
  destruct (decorate (score cx cy (Z.max (w * h) 1)) (d :: dets)) as [kl|] eqn:Hd;
    [|discriminate].
  cbn [mbind result_bind]. intros [= <-]. exists cx, cy, kl. repeat split. exact Hd.
Qed.

(** The decorated list carries the salience of each detection. *)
Lemma decorated_salience w h cx cy dets kl :
  int_truediv2 w = Ok cx -> int_truediv2 h = Ok cy ->
  decorate (score cx cy (Z.max (w * h) 1)) dets = Ok kl ->
  map snd kl = dets /\ Forall (fun kd => salience w h kd.2 = Ok kd.1) kl.
Proof.
  intros Hw Hh [Hm Hf]%decorate_spec. split; [assumption|].
  eapply Forall_impl; [exact Hf|]. intros kd Hkd. cbn beta in *.
  now rewrite (salience_score w h cx cy).
Qed.

Lemma rank_objects_perm dets w h out :
  rank_objects dets w h = Ok out -> Permutation dets out.
Proof.
  destruct dets as [|d dets]; [intros [= <-]; reflexivity|].
  intros (cx & cy & kl & Hw & Hh & Hd & ->)%rank_objects_inv; [|discriminate].
  destruct (decorated_salience _ _ _ _ _ _ Hw Hh Hd) as [<- _].
  apply Permutation_map. symmetry. apply sort_permutes.
Qed.

Lemma scored_spec w h d :
  scored w h d = true <-> exists s, salience w h d = Ok s /\ is_nan s = false.
Proof.
  unfold scored. destruct (salience w h d) as [s|e].
  - rewrite negb_true_iff. split; [intros H; now exists s|intros (s' & [= <-] & H); exact H].
  - split; [discriminate|intros (s' & [=] & _)].
Qed.

(** When every score is a number, the order of the output is the stable
    descending one. *)
Lemma rank_objects_inv_scored dets w h out :
  dets <> [] -> forallb (scored w h) dets = true -> rank_objects dets w h = Ok out ->
  exists cx cy kl,
    int_truediv2 w = Ok cx /\ int_truediv2 h = Ok cy /\
    decorate (score cx cy (Z.max (w * h) 1)) dets = Ok kl /\
    Forall key_number kl /\
    out = map snd (sort_desc kl).
Proof.
  intros Hne Hall (cx & cy & kl & Hw & Hh & Hd & ->)%rank_objects_inv; [|assumption].
  destruct (decorated_salience _ _ _ _ _ _ Hw Hh Hd) as [Hm Hf].
  assert (Hn : Forall key_number kl).
  { rewrite forallb_forall in Hall. rewrite List.Forall_forall in Hf |- *.
    intros kd Hin. unfold key_number.
    destruct (proj1 (scored_spec w h kd.2)) as (s & Hs & Hnan).
    - apply Hall. rewrite <- Hm. now apply in_map.
    - rewrite (Hf kd Hin) in Hs. congruence. }
  exists cx, cy, kl. rewrite (sort_stable _ kl Hn). repeat split; assumption.
Qed.

Lemma rank_objects_stable dets w h out v :
  forallb (scored w h) dets = true ->
  rank_objects dets w h = Ok out ->
  List.filter (has_score w h v) out = List.filter (has_score w h v) dets.
Proof.
  intros Hall. destruct dets as [|d dets]; [intros [= <-]; reflexivity|].
  intros (cx & cy & kl & Hw & Hh & Hd & _ & ->)%rank_objects_inv_scored;
    [|discriminate|assumption].
  destruct (decorated_salience _ _ _ _ _ _ Hw Hh Hd) as [<- Hf].
  assert (Hq : Forall (fun kd : float * detection =>
                         has_score w h v kd.2 = key_is v kd) kl).
  { eapply Forall_impl; [exact Hf|]. intros kd Hkd. cbn beta in *.
    unfold has_score. now rewrite Hkd. }
  rewrite (filter_undecorate _ (key_is v)), (filter_undecorate _ (key_is v) kl Hq).
  - now rewrite filter_sort_desc.
  - eapply Permutation_Forall; [symmetry; apply sort_desc_perm|exact Hq].
Qed.

Lemma rank_objects_returns dets w h :
  forallb (scored w h) dets = true -> returns (rank_objects dets w h).
Proof.
  intros Hall. destruct dets as [|d dets]; [now exists []|].
  rewrite forallb_forall in Hall.
  destruct (proj1 (scored_spec w h d)) as (s & Hs & _); [apply Hall; now left|].
  unfold salience in Hs. unfold rank_objects.
  destruct (int_truediv2 w) as [cx|] eqn:Hw; [|discriminate].
  destruct (int_truediv2 h) as [cy|] eqn:Hh; [|discriminate].
  cbn [mbind result_bind]. unfold sorted_desc.
  destruct (decorate_returns (score cx cy (Z.max (w * h) 1)) (d :: dets)) as [kl ->].
  - apply List.Forall_forall. intros d' Hin.
    destruct (proj1 (scored_spec w h d') (Hall d' Hin)) as (s' & Hs' & _).
    rewrite (salience_score w h cx cy) in Hs' by assumption. now exists s'.
  - cbn [mbind result_bind]. now eexists.
Qed.

Lemma sorted_undecorate w h (l : list (float * detection)) :
  Forall (fun kd => salience w h kd.2 = Ok kd.1) l ->
  StronglySorted key_ge l -> StronglySorted (outranks w h) (map snd l).
Proof.
  intros Hf Hs. induction Hs as [|kd l Hs IH Hkd]; cbn [map]; [constructor|].
  apply Forall_cons in Hf as [Hk Hf]. constructor; [now apply IH|].
  rewrite List.Forall_map. rewrite List.Forall_forall in Hkd, Hf |- *.
  intros kd' Hin. exists kd.1, kd'.1. repeat split; [exact Hk|now apply Hf|now apply Hkd].
Qed.

Lemma rank_objects_sorted dets w h out :
  forallb (scored w h) dets = true ->
  rank_objects dets w h = Ok out -> StronglySorted (outranks w h) out.
Proof.
  intros Hall. destruct dets as [|d dets]; [intros [= <-]; constructor|].
  intros (cx & cy & kl & Hw & Hh & Hd & Hn & ->)%rank_objects_inv_scored;
    [|discriminate|assumption].
  destruct (decorated_salience _ _ _ _ _ _ Hw Hh Hd) as [Hm Hf].
  apply sorted_undecorate.
  - eapply Permutation_Forall; [symmetry; apply sort_desc_perm|exact Hf].
  - now apply sort_desc_sorted.
Qed.

(** ** What the arithmetic of the core can raise *)

Lemma float_pow2_raise x e : float_pow2 x = Raise e -> e = OverflowError.
Proof.
  unfold float_pow2.
  destruct (is_nan x); [discriminate|].
  destruct (is_infinity x); [discriminate|].
  destruct (x =? 0)%float; [discriminate|].
  destruct (abs x =? 1)%float; [discriminate|].
  cbv zeta. destruct (is_infinity (libm_pow _ _)); congruence.
Qed.

Lemma float_of_int_pos z f :
  (0 < z)%Z -> float_of_int z = Ok f ->
  (f =? 0)%float = false /\ nonneg f = true.
Proof.
  intros Hz Hf. destruct (round_int_pos z 0 f Hz ltac:(lia) Hf) as (m & e & H).
  split; [eapply finite_pos_nonzero|eapply finite_pos_nonneg]; exact H.
Qed.

(** The centre score [1.0 / (1.0 + dist)] never divides by zero. *)
Lemma center_score_returns dist :
  nonneg dist = true ->
  exists c, float_truediv 1 (1 + dist) = Ok c /\ nonneg c = true.
Proof.
  intros Hd. unfold float_truediv. rewrite (one_plus_nonzero dist Hd).
  eexists. split; [reflexivity|].
  apply div_nonneg; [reflexivity| |now apply one_plus_nonzero].
  now apply add_nonneg.
Qed.

(** The distance to the frame centre is a float: the sum of the two squares
    is never negative. *)
Lemma centre_distance_returns dx2 dy2 a b :
  float_pow2 a = Ok dx2 -> float_pow2 b = Ok dy2 ->
  exists dist, float_pow_half (dx2 + dy2) = Ok dist /\ nonneg dist = true.
Proof.
  intros Ha%float_pow2_nonneg Hb%float_pow2_nonneg.
  pose proof (add_nonneg _ _ Ha Hb) as Hs.
  destruct (float_pow_half (dx2 + dy2)) as [dist|e] eqn:E.
  - exists dist. split; [reflexivity|]. eapply float_pow_half_nonneg; exact E.
  - exfalso. eapply float_pow_half_real; eassumption.
Qed.

Lemma weighted_inv cx_img cy_img img_area d :
  (0 < img_area)%Z ->
  let '(x1, y1, x2, y2) := bbox d in
  match float_pow2 ((x1 + x2) / 2 - cx_img),
        float_pow2 ((y1 + y2) / 2 - cy_img),
        float_of_int img_area with
  | Ok _, Ok _, Ok _ =>
      exists t, weighted cx_img cy_img img_area d = Ok t /\
                ((0 <=? conf d)%float = true -> nonneg t = true)
  | _, _, _ => weighted cx_img cy_img img_area d = Raise OverflowError
  end.
Proof.
  intros Hia. unfold weighted. destruct (bbox d) as [[[x1 y1] x2] y2] eqn:Hb.
  destruct (float_pow2 ((x1 + x2) / 2 - cx_img)) as [dx2|e1] eqn:E1.
  2:{ apply float_pow2_raise in E1 as ->. reflexivity. }
  destruct (float_pow2 ((y1 + y2) / 2 - cy_img)) as [dy2|e2] eqn:E2.
  2:{ apply float_pow2_raise in E2 as ->. reflexivity. }
  cbn [mbind result_bind].
  destruct (centre_distance_returns _ _ _ _ E1 E2) as (dist & -> & Hd).
  cbn [mbind result_bind].
  destruct (center_score_returns dist Hd) as (c & -> & Hc).
  cbn [mbind result_bind].
  destruct (float_of_int img_area) as [ia|e3] eqn:E3.
  2:{ apply round_int_raise in E3 as ->. reflexivity. }
  cbn [mbind result_bind]. eexists. split; [reflexivity|].
  intros Hconf%leb_0_nonneg.
  destruct (float_of_int_pos _ _ Hia E3) as [_ Hian].
  apply mul_nonneg; [|assumption].
  apply add_nonneg.
  - apply mul_nonneg; [reflexivity|]. unfold bbox_area.
    apply mul_nonneg; apply py_max_0_nonneg.
  - apply mul_nonneg; [|assumption]. apply mul_nonneg; [reflexivity|assumption].
Qed.

Lemma weighted_raise cx_img cy_img img_area d e :
  (0 < img_area)%Z ->
  weighted cx_img cy_img img_area d = Raise e -> e = OverflowError.
Proof.
  intros Hia He. pose proof (weighted_inv cx_img cy_img img_area d Hia) as H.
  destruct (bbox d) as [[[x1 y1] x2] y2].
  destruct (float_pow2 _); [destruct (float_pow2 _); [destruct (float_of_int _)|]|];
    try congruence.
  destruct H as (t & Ht & _). congruence.
Qed.

Lemma weighted_nonneg cx_img cy_img img_area d t :
  (0 < img_area)%Z -> (0 <=? conf d)%float = true ->
  weighted cx_img cy_img img_area d = Ok t -> nonneg t = true.
Proof.
  intros Hia Hc Ht. pose proof (weighted_inv cx_img cy_img img_area d Hia) as H.
  destruct (bbox d) as [[[x1 y1] x2] y2].
  destruct (float_pow2 _); [destruct (float_pow2 _); [destruct (float_of_int _)|]|];
    try congruence.
  destruct H as (t' & Ht' & Hn). rewrite Ht in Ht'. injection Ht' as <-. now apply Hn.
Qed.

Lemma score_raise cx_img cy_img img_area d e :
  (0 < img_area)%Z ->
  score cx_img cy_img img_area d = Raise e -> e = OverflowError.
Proof.
  intros Hia. unfold score.
  destruct (weighted cx_img cy_img img_area d) as [t|e'] eqn:E; [discriminate|].
  cbn [mbind result_bind]. intros [= <-]. eapply weighted_raise; eassumption.
Qed.

(** The score never leaves the floats and never divides by zero. *)
Lemma score_stays_real w h d e : salience w h d = Raise e -> e = OverflowError.
Proof.
  unfold salience.
  destruct (int_truediv2 w) as [cx|e1] eqn:E1.
  2:{ intros [= <-]. eapply round_int_raise; exact E1. }
  destruct (int_truediv2 h) as [cy|e2] eqn:E2.
  2:{ intros [= <-]. eapply round_int_raise; exact E2. }
  cbn [mbind result_bind]. apply score_raise. lia.
Qed.

Lemma rank_objects_raise dets w h e :
  rank_objects dets w h = Raise e -> e = OverflowError.
Proof.
  unfold rank_objects. destruct dets as [|d dets]; [discriminate|].
  destruct (int_truediv2 w) as [cx|e1] eqn:E1.
  2:{ intros [= <-]. eapply round_int_raise; exact E1. }
  destruct (int_truediv2 h) as [cy|e2] eqn:E2.
  2:{ intros [= <-]. eapply round_int_raise; exact E2. }
  cbn [mbind result_bind]. unfold sorted_desc.
  destruct (decorate (score cx cy (Z.max (w * h) 1)) (d :: dets)) as [kl|e3] eqn:E3;
    [discriminate|].
  cbn [mbind result_bind]. intros [= <-].
  apply decorate_raise in E3 as (d' & _ & Hd'). eapply score_raise; [|exact Hd']. lia.
Qed.

End Ranking.

(** ** Descriptors *)

Lemma float_of_int_returns z :
  (0 < z < int_limit)%Z -> returns (float_of_int z).
Proof.
  intros [Hz Hlt]. apply round_int_returns; [lia|].
  rewrite Z.abs_eq by lia. unfold int_limit in Hlt.
  apply Z.log2_lt_pow2 in Hlt; [|assumption]. clear Hz. lia.
Qed.

Lemma max_1_in_range z : (z < int_limit)%Z -> (0 < Z.max z 1 < int_limit)%Z.
Proof.
  intros Hz. split; [lia|]. apply Z.max_lub_lt; [assumption|reflexivity].
Qed.

(** [a / z] for a float [a] and a positive int [z] never divides by zero. *)
Lemma div_by_int_ok (a : float) (z : Z) m :
  (0 < z)%Z -> float_of_int z = Ok m -> float_truediv a m = Ok (a / m)%float.
Proof.
  intros Hz E. unfold float_truediv.
  destruct (float_of_int_pos z m Hz E) as [-> _]. reflexivity.
Qed.

Lemma area_ratio_raise obj w h e :
  area_ratio obj w h = Raise e -> e = OverflowError.
Proof.
  unfold area_ratio.
  destruct (float_of_int (Z.max (w * h) 1)) as [m|e1] eqn:E; cbn [mbind result_bind].
  - rewrite (div_by_int_ok _ (Z.max (w * h) 1) _ ltac:(lia) E). discriminate.
  - intros [= <-]. eapply round_int_raise; exact E.
Qed.

Lemma area_ratio_returns obj w h :
  (w * h < int_limit)%Z -> returns (area_ratio obj w h).
Proof.
  intros Hwh. unfold area_ratio.
  destruct (float_of_int_returns (Z.max (w * h) 1)) as [m Hm];
    [now apply max_1_in_range|].
  rewrite Hm. cbn [mbind result_bind].
  rewrite (div_by_int_ok _ (Z.max (w * h) 1) _ ltac:(lia) Hm). now eexists.
Qed.

Lemma pos_word_raise cx w e : pos_word cx w = Raise e -> e = OverflowError.
Proof.
  unfold pos_word.
  destruct (float_of_int (Z.max w 1)) as [m|e1] eqn:E; cbn [mbind result_bind].
  - rewrite (div_by_int_ok _ (Z.max w 1) _ ltac:(lia) E). cbn [mbind result_bind].
    destruct (_ <? 0.35)%float; [discriminate|]. destruct (0.65 <? _)%float; discriminate.
  - intros [= <-]. eapply round_int_raise; exact E.
Qed.

Lemma pos_word_returns cx w : (w < int_limit)%Z -> returns (pos_word cx w).
Proof.
  intros Hw. unfold pos_word.
  destruct (float_of_int_returns (Z.max w 1)) as [m Hm];
    [now apply max_1_in_range|].
  rewrite Hm. cbn [mbind result_bind].
  rewrite (div_by_int_ok _ (Z.max w 1) _ ltac:(lia) Hm). cbn [mbind result_bind].
  destruct (_ <? 0.35)%float; [now eexists|]. destruct (0.65 <? _)%float; now eexists.
Qed.

Lemma describe_raise obj w h e : describe obj w h = Raise e -> e = OverflowError.
Proof.
  unfold describe. destruct (bbox obj) as [[[x1 y1] x2] y2].
  destruct (area_ratio obj w h) as [r|e1] eqn:E1; cbn [mbind result_bind].
  - destruct (pos_word _ w) as [p|e2] eqn:E2; cbn [mbind result_bind]; [discriminate|].
    intros [= <-]. eapply pos_word_raise; exact E2.
  - intros [= <-]. eapply area_ratio_raise; exact E1.
Qed.

Lemma describe_returns obj w h :
  (w < int_limit)%Z -> (w * h < int_limit)%Z -> returns (describe obj w h).
Proof.
  intros Hw Hwh. unfold describe. destruct (bbox obj) as [[[x1 y1] x2] y2].
  destruct (area_ratio_returns obj w h Hwh) as [r ->]. cbn [mbind result_bind].
  destruct (pos_word_returns ((x1 + x2) / 2) w Hw) as [p ->]. cbn [mbind result_bind].
  now eexists.
Qed.

Lemma make_phrase_raise objs w h e :
  make_phrase objs w h = Raise e -> e = OverflowError.
Proof.
  unfold make_phrase. destruct objs as [|o1 objs]; [discriminate|].
  destruct (describe o1 w h) as [a|e1] eqn:E1; cbn [mbind result_bind].
  - destruct objs as [|o2 objs]; [discriminate|].
    destruct (describe o2 w h) as [b|e2] eqn:E2; cbn [mbind result_bind]; [discriminate|].
    intros [= <-]. eapply describe_raise; exact E2.
  - intros [= <-]. eapply describe_raise; exact E1.
Qed.

Lemma make_phrase_returns objs w h :
  (w < int_limit)%Z -> (w * h < int_limit)%Z -> returns (make_phrase objs w h).
Proof.
  intros Hw Hwh. unfold make_phrase. destruct objs as [|o1 objs]; [now eexists|].
  destruct (describe_returns o1 w h Hw Hwh) as [a ->]. cbn [mbind result_bind].
  destruct objs as [|o2 objs]; [now eexists|].
  destruct (describe_returns o2 w h Hw Hwh) as [b ->]. cbn [mbind result_bind].
  now eexists.
Qed.

Section Squares.
Context {R : Runtime} {C : Conforms R}.

(** [rank_objects] returns as soon as the squares of the centre offsets and
    the frame area are in range. *)
Lemma squares_fit_scored_returns w h d :
  (w * h < int_limit)%Z -> squares_fit w h d = true -> returns (salience w h d).
Proof.
  intros Hwh. unfold squares_fit, salience.
  destruct (int_truediv2 w) as [cx|]; [|discriminate].
  destruct (int_truediv2 h) as [cy|]; [|discriminate].
  cbn [mbind result_bind]. unfold score.
  pose proof (weighted_inv cx cy (Z.max (w * h) 1) d ltac:(lia)) as H.
  destruct (bbox d) as [[[x1 y1] x2] y2].
  destruct (float_pow2 _); [|discriminate].
  destruct (float_pow2 _); [|discriminate].
  destruct (float_of_int_returns (Z.max (w * h) 1)) as [ia Hia];
    [now apply max_1_in_range|].
  rewrite Hia in H. destruct H as (t & -> & _). intros _. cbn [mbind result_bind].
  now eexists.
Qed.

Lemma rank_objects_returns_in_range dets w h :
  (w * h < int_limit)%Z -> forallb (squares_fit w h) dets = true ->
  returns (rank_objects dets w h).
Proof.
  intros Hwh Hall. destruct dets as [|d dets]; [now exists []|].
  rewrite forallb_forall in Hall.
  destruct (squares_fit_scored_returns w h d Hwh) as [s Hs]; [apply Hall; now left|].
  unfold salience in Hs. unfold rank_objects.
  destruct (int_truediv2 w) as [cx|] eqn:Hw; [|discriminate].
  destruct (int_truediv2 h) as [cy|] eqn:Hh; [|discriminate].
  cbn [mbind result_bind]. unfold sorted_desc.
  destruct (decorate_returns (score cx cy (Z.max (w * h) 1)) (d :: dets)) as [kl ->].
  - apply List.Forall_forall. intros d' Hin.
    destruct (squares_fit_scored_returns w h d' Hwh (Hall d' Hin)) as [s' Hs'].
    rewrite (salience_score w h cx cy) in Hs' by assumption. now exists s'.
  - cbn [mbind result_bind]. now eexists.
Qed.

End Squares.

(** ** The range of the score

    Inside the ranges [frame_in_range], [box_in_range] and [conf_in_unit]
    no step of [score] leaves the floats. *)

Section ScoreRange.
Context {R : Runtime} {C : Conforms R}.
Local Open Scope Z_scope.

(** The centre score of a distance below [2^a]. *)
Lemma center_score_below a dist :
  nonneg dist = true -> below a dist -> 1 <= a <= 1020 ->
  exists c, float_truediv 1 (1 + dist) = Ok c /\ below 3 c /\ nonneg c = true.
Proof.
  intros Hn Hb Ha.
  destruct (center_score_returns dist Hn) as (c & Hc & Hcn).
  exists c. split; [assumption|]. split; [|assumption].
  unfold float_truediv in Hc. rewrite (one_plus_nonzero dist Hn) in Hc.
  injection Hc as <-.
  destruct (one_plus_range a dist Hn Hb Ha) as (m & e & Hy & Hlow & _).
  unfold below. rewrite div_spec, Hy.
  change (Prim2SF 1) with (S754_finite false 4503599627370496 (-52)).
  eapply sf_below_mono; [|apply (SFdiv_below 1 0)]; try lia.
  cbn [sf_below]. change (Z.log2 (Zpos 4503599627370496)) with 52. lia.
Qed.

(** The constants of [score]. *)
Lemma below_04 : below (-1) 0.4%float.
Proof. unfold below. vm_compute. reflexivity. Qed.
Lemma below_06 : below 0 0.6%float.
Proof. unfold below. vm_compute. reflexivity. Qed.

Lemma priority_below l : below 1 (priority l).
Proof.
  unfold priority. destruct (decide _); unfold below; vm_compute; reflexivity.
Qed.

Lemma frame_side_below w :
  Z.abs w < frame_limit -> exists c, int_truediv2 w = Ok c /\ below 500 c.
Proof.
  intros Hw. unfold int_truediv2.
  destruct (round_int_below 499 w (-1)) as (f & Hf & Hb); try lia.
  - apply (log2_abs_lt w 500) in Hw; lia.
  - exists f. split; assumption.
Qed.

Lemma frame_area_below w h :
  Z.abs w < frame_limit -> Z.abs h < frame_limit ->
  exists ia, float_of_int (Z.max (w * h) 1) = Ok ia /\ below 1001 ia.
Proof.
  intros Hw Hh. unfold float_of_int.
  destruct (round_int_below 1000 (Z.max (w * h) 1) 0) as (f & Hf & Hb); try lia.
  - assert (H : Z.abs (Z.max (w * h) 1) < 2 ^ 1000).
    { change (2 ^ 1000) with (frame_limit * frame_limit).
      assert (Z.abs (w * h) < frame_limit * frame_limit).
      { rewrite Z.abs_mul. unfold frame_limit in *.
        assert (0 < 2 ^ 500) by (apply Z.pow_pos_nonneg; lia).
        remember (2 ^ 500) as L. nia. }
      assert (1 < frame_limit * frame_limit) by (vm_compute; reflexivity).
      remember (frame_limit * frame_limit) as L. lia. }
    apply (log2_abs_lt _ 1000) in H; lia.
  - exists f. split; assumption.
Qed.

(** One centre offset squared: [((a + b) / 2 - c) ** 2]. *)
Lemma offset_square_below a b c :
  below 500 a -> below 500 b -> below 500 c ->
  exists r, float_pow2 ((a + b) / 2 - c) = Ok r /\ below 1013 r /\ nonneg r = true.
Proof.
  intros Ha Hb Hc.
  assert (H1 : below 502 (a + b)) by (apply (add_below 500); try assumption; lia).
  assert (H2 : below 503 ((a + b) / 2)) by (apply (half_below 502); try assumption; lia).
  assert (H3 : below 505 ((a + b) / 2 - c)).
  { apply (sub_below 503); try assumption; try lia.
    eapply below_mono; [|exact Hc]. lia. }
  destruct (float_pow2_below 505 _ H3) as (r & Hr & Hrb & Hrn); [lia|].
  exists r. repeat split; assumption.
Qed.

Lemma side_below a b : below 500 a -> below 500 b -> below 502 (py_max 0 (b - a)).
Proof.
  intros Ha Hb. apply py_max_0_below; [lia|].
  apply (sub_below 500); try assumption; lia.
Qed.

Lemma bbox_area_below d : box_in_range d = true -> below 1005 (bbox_area (bbox d)).
Proof.
  unfold box_in_range, bbox_area. destruct (bbox d) as [[[x1 y1] x2] y2].
  rewrite !andb_true_iff. intros [[[H1 H2] H3] H4].
  apply coord_ok_below in H1, H2, H3, H4.
  apply (mul_below 502 502); try (apply side_below; assumption). lia.
Qed.

(** The steps of [score] in order: coordinates below [2^500] give offsets
    below [2^505], squares below [2^1013], a distance below [2^512], and a
    weighted sum below [2^1010]. *)
Lemma weighted_below cx cy ia d :
  below 500 cx -> below 500 cy ->
  (exists f, float_of_int ia = Ok f /\ below 1001 f) ->
  box_in_range d = true -> conf_in_unit d = true ->
  exists t, weighted cx cy ia d = Ok t /\ below 1010 t.
Proof.
  intros Hcx Hcy (f & Hf & Hfb) Hbox Hconf. unfold weighted.
  pose proof (bbox_area_below d Hbox) as Harea.
  pose proof (conf_in_unit_below d Hconf) as Hc.
  unfold box_in_range in Hbox. destruct (bbox d) as [[[x1 y1] x2] y2].
  rewrite !andb_true_iff in Hbox. destruct Hbox as [[[H1 H2] H3] H4].
  apply coord_ok_below in H1, H2, H3, H4.
  destruct (offset_square_below x1 x2 cx H1 H3 Hcx) as (dx2 & -> & Hdx & Hdxn).
  destruct (offset_square_below y1 y2 cy H2 H4 Hcy) as (dy2 & -> & Hdy & Hdyn).
  cbn [mbind result_bind].
  assert (Hs : below 1015 (dx2 + dy2)) by (apply (add_below 1013); try assumption; lia).
  assert (Hsn : nonneg (dx2 + dy2) = true) by (apply add_nonneg; assumption).
  destruct (float_pow_half_below 1015 508 _ Hs Hsn) as (dist & -> & Hd & Hdn); [lia|lia|].
  cbn [mbind result_bind].
  destruct (center_score_below 512 dist Hdn Hd) as (c & -> & Hcs & _); [lia|].
  cbn [mbind result_bind]. rewrite Hf. cbn [mbind result_bind].
  eexists. split; [reflexivity|].
  assert (Ha : below 1006 (0.6 * bbox_area (x1, y1, x2, y2))).
  { apply (mul_below 0 1005); [apply below_06|assumption|lia]. }
  assert (Hb : below 3 (0.4 * c)).
  { apply (mul_below (-1) 3); [apply below_04|assumption|lia]. }
  assert (Hb' : below 1005 (0.4 * c * f)).
  { apply (mul_below 3 1001); try assumption. lia. }
  assert (Hab : below 1008 (0.6 * bbox_area (x1, y1, x2, y2) + 0.4 * c * f)).
  { apply (add_below 1006); try assumption; try lia.
    eapply below_mono; [|exact Hb']. lia. }
  apply (mul_below 1008 1); try assumption. lia.
Qed.

(** Inside the ranges the score is a number. *)
Lemma in_range_salience w h d :
  frame_in_range w h = true -> box_in_range d = true -> conf_in_unit d = true ->
  exists s, salience w h d = Ok s /\ below 1012 s.
Proof.
  unfold frame_in_range. rewrite andb_true_iff, !Z.ltb_lt. intros [Hw Hh] Hbox Hconf.
  unfold salience.
  destruct (frame_side_below w Hw) as (cx & -> & Hcx).
  destruct (frame_side_below h Hh) as (cy & -> & Hcy).
  cbn [mbind result_bind]. unfold score.
  destruct (weighted_below cx cy (Z.max (w * h) 1) d Hcx Hcy
              (frame_area_below w h Hw Hh) Hbox Hconf) as (t & -> & Ht).
  cbn [mbind result_bind]. eexists. split; [reflexivity|].
  apply (mul_below 1010 1); [assumption|apply priority_below|lia].
Qed.

Lemma in_range_scored w h d :
  frame_in_range w h = true -> box_in_range d = true -> conf_in_unit d = true ->
  scored w h d = true.
Proof.
  intros Hf Hb Hc. apply scored_spec.
  destruct (in_range_salience w h d Hf Hb Hc) as (s & Hs & Hbelow).
  exists s. split; [assumption|]. apply (below_finite _ _ Hbelow).
Qed.

Lemma in_range_all_scored dets w h :
  frame_in_range w h = true ->
  forallb box_in_range dets = true -> forallb conf_in_unit dets = true ->
  forallb (scored w h) dets = true.
Proof.
  intros Hf Hb Hc. rewrite forallb_forall in *. intros d Hd.
  apply in_range_scored; [assumption|now apply Hb|now apply Hc].
Qed.

(** In range, neither [** 2] of [score] raises, whatever the confidence. *)
Lemma in_range_squares_fit w h d :
  frame_in_range w h = true -> box_in_range d = true -> squares_fit w h d = true.
Proof.
  unfold frame_in_range, box_in_range, squares_fit.
  rewrite andb_true_iff, !Z.ltb_lt. intros [Hw Hh].
  destruct (frame_side_below w Hw) as (cx & -> & Hcx).
  destruct (frame_side_below h Hh) as (cy & -> & Hcy).
  destruct (bbox d) as [[[x1 y1] x2] y2].
  rewrite !andb_true_iff. intros [[[H1 H2] H3] H4].
  apply coord_ok_below in H1, H2, H3, H4.
  destruct (offset_square_below x1 x2 cx H1 H3 Hcx) as (dx2 & -> & _).
  destruct (offset_square_below y1 y2 cy H2 H4 Hcy) as (dy2 & -> & _).
  reflexivity.
Qed.

(** A frame in range is one whose sides and area convert to floats. *)
Lemma frame_in_range_limits w h :
  frame_in_range w h = true -> w < int_limit /\ w * h < int_limit.
Proof.
  unfold frame_in_range. rewrite andb_true_iff, !Z.ltb_lt. intros [Hw Hh].
  assert (Hl : frame_limit * frame_limit < int_limit) by (vm_compute; reflexivity).
  assert (H1 : 1 < frame_limit) by (vm_compute; reflexivity).
  assert (Hwh : Z.abs (w * h) < frame_limit * frame_limit).
  { rewrite Z.abs_mul. remember frame_limit as L. nia. }
  remember frame_limit as L. remember int_limit as M. split; nia.
Qed.

Lemma rank_objects_returns_inside dets w h :
  frame_in_range w h = true -> forallb box_in_range dets = true ->
  returns (rank_objects dets w h).
Proof.
  intros Hf Hb. destruct (frame_in_range_limits w h Hf) as [_ Hwh].
  apply rank_objects_returns_in_range; [assumption|].
  rewrite forallb_forall in *. intros d Hd. apply in_range_squares_fit; auto.
Qed.

End ScoreRange.

(** * The claims of the specification *)

(** ** Ranking *)

(** In every frame and for every list in which each score evaluates to a
    number (no exception, not [nan]), whatever the sizes, [rank_objects]
    returns a permutation of the input in non-increasing order of score
    that keeps detections of equal score in input order. *)
Lemma rank_objects_sorted_when_scored {R : Runtime} {C : Conforms R} dets w h :
  forallb (scored w h) dets = true ->
  exists out,
    rank_objects dets w h = Ok out /\
    Permutation dets out /\
    StronglySorted (outranks w h) out /\
    forall v,
      List.filter (has_score w h v) out = List.filter (has_score w h v) dets.
Proof.
  intros Hall. destruct (rank_objects_returns dets w h Hall) as [out Hout].
  exists out. split; [exact Hout|]. split; [|split].
  - eapply rank_objects_perm; exact Hout.
  - eapply rank_objects_sorted; eassumption.
  - intros v. eapply rank_objects_stable; eassumption.
Qed.

(** C1.  For every list of detections and every frame of the data model
    (confidences in [[0, 1]]; coordinates and sides of the frame below 2^500
    in absolute value, which leaves room for boxes that reach out of the
    frame), [rank_objects] returns a permutation of the input whose scores
    are non-increasing, and detections with exactly equal scores keep their
    relative input order. *)
Theorem rank_objects_sorted_stable {R : Runtime} {C : Conforms R} dets w h :
  frame_in_range w h = true ->
  forallb box_in_range dets = true -> forallb conf_in_unit dets = true ->
  exists out,
    rank_objects dets w h = Ok out /\
    Permutation dets out /\
    StronglySorted (outranks w h) out /\
    forall v,
      List.filter (has_score w h v) out = List.filter (has_score w h v) dets.
Proof.
  intros Hf Hb Hc. apply rank_objects_sorted_when_scored.
  now apply in_range_all_scored.
Qed.

Lemma rank_objects_sorted_stable_witness :
  frame_in_range 640 480 = true /\
  forallb box_in_range [chair_det; outside_det; bus_det; car_det] = true /\
  forallb conf_in_unit [chair_det; outside_det; bus_det; car_det] = true /\
  exists out,
    rank_objects [chair_det; outside_det; bus_det; car_det] 640 480 = Ok out /\
    Permutation [chair_det; outside_det; bus_det; car_det] out /\
    StronglySorted (outranks 640 480) out /\
    forall v,
      List.filter (has_score 640 480 v) out
      = List.filter (has_score 640 480 v) [chair_det; outside_det; bus_det; car_det].
Proof.
  refine (conj eq_refl (conj eq_refl (conj eq_refl _))).
  apply (rank_objects_sorted_stable [chair_det; outside_det; bus_det; car_det] 640 480);
    reflexivity.
Defined.

(** ** Selection *)

Lemma in_DANGER l : bool_decide (l ∈ DANGER) = true -> l ∈ DANGER.
Proof. apply bool_decide_eq_true. Qed.

Lemma not_in_DANGER l : bool_decide (l ∈ DANGER) = false -> l ∉ DANGER.
Proof. apply bool_decide_eq_false. Qed.

Lemma dangerous_other_test main d :
  bool_decide (label d ∈ DANGER) && negb (String.eqb (label d) (label main)) = true
  <-> dangerous_other main d.
Proof.
  unfold dangerous_other.
  rewrite andb_true_iff, bool_decide_eq_true, negb_true_iff, String.eqb_neq.
  reflexivity.
Qed.

Lemma first_danger_found main pre d post :
  Forall (fun d' => ~ dangerous_other main d') pre -> dangerous_other main d ->
  first_danger (label main) (pre ++ d :: post) = Some d.
Proof.
  intros Hpre Hd. induction Hpre as [|d' pre Hd' _ IH]; cbn [app first_danger].
  - apply dangerous_other_test in Hd. now rewrite Hd.
  - destruct (bool_decide _ && _) eqn:E; [|exact IH].
    apply dangerous_other_test in E. contradiction.
Qed.

Lemma first_danger_none main rest :
  Forall (fun d' => ~ dangerous_other main d') rest ->
  first_danger (label main) rest = None.
Proof.
  induction 1 as [|d' rest Hd' _ IH]; cbn [first_danger]; [reflexivity|].
  destruct (bool_decide _ && _) eqn:E; [|exact IH].
  apply dangerous_other_test in E. contradiction.
Qed.

(** C2.  For a non-empty ranked list the selection starts with [ranked[0]];
    the secondary is the first detection of [ranked[1:]] with a dangerous
    label other than the primary's, if there is one; otherwise it is
    [ranked[1]] if that exists with a confidence of at least 0.45; otherwise
    the selection is the primary alone. *)
Theorem pick_main_and_danger_spec main rest :
  head (pick_main_and_danger (main :: rest)) = Some main /\
  (forall (pre : list detection) d post,
      rest = (pre ++ d :: post)%list ->
      Forall (fun d' => ~ dangerous_other main d') pre ->
      dangerous_other main d ->
      pick_main_and_danger (main :: rest) = [main; d]) /\
  (forall second others,
      Forall (fun d' => ~ dangerous_other main d') rest ->
      rest = second :: others ->
      (0.45 <=? conf second)%float = true ->
      pick_main_and_danger (main :: rest) = [main; second]) /\
  (Forall (fun d' => ~ dangerous_other main d') rest ->
   (rest = [] \/
    exists second others,
      rest = second :: others /\ (0.45 <=? conf second)%float = false) ->
   pick_main_and_danger (main :: rest) = [main]).
Proof.
  repeat split.
  - cbn [pick_main_and_danger]. destruct (first_danger (label main) rest); [reflexivity|].
    destruct rest as [|second others]; [reflexivity|].
    destruct (0.45 <=? conf second)%float; reflexivity.
  - intros pre d post -> Hpre Hd. cbn [pick_main_and_danger].
    now rewrite (first_danger_found main pre d post Hpre Hd).
  - intros second others Hrest -> Hc. cbn [pick_main_and_danger].
    rewrite (first_danger_none main _ Hrest). now rewrite Hc.
  - intros Hrest Hcase. cbn [pick_main_and_danger].
    rewrite (first_danger_none main _ Hrest).
    destruct Hcase as [->|(second & others & -> & Hc)]; [reflexivity|now rewrite Hc].
Qed.

Lemma pick_main_and_danger_spec_witness :
  pick_main_and_danger [car_det; person_det; chair_det; bus_det] = [car_det; bus_det] /\
  pick_main_and_danger [car_det; chair_det; bus_det] = [car_det; bus_det] /\
  pick_main_and_danger [person_det; chair_det] = [person_det; chair_det] /\
  pick_main_and_danger [person_det; inverted_det; car_det] = [person_det; car_det] /\
  pick_main_and_danger [car_det; {| label := "cat"; conf := 0.4; bbox := (0, 0, 1, 1)%float |}]
    = [car_det].
Proof.
  refine (conj _ (conj _ (conj _ (conj _ _)))).
  - apply (proj1 (proj2 (pick_main_and_danger_spec car_det [person_det; chair_det; bus_det]))
             [person_det; chair_det] bus_det []); [reflexivity| |].
    + repeat apply Forall_cons_2; try apply Forall_nil_2; intros [H _]; revert H;
        apply not_in_DANGER; vm_compute; reflexivity.
    + split; [apply in_DANGER; vm_compute; reflexivity|discriminate].
  - apply (proj1 (proj2 (pick_main_and_danger_spec car_det [chair_det; bus_det]))
             [chair_det] bus_det []); [reflexivity| |].
    + repeat apply Forall_cons_2; try apply Forall_nil_2; intros [H _]; revert H;
        apply not_in_DANGER; vm_compute; reflexivity.
    + split; [apply in_DANGER; vm_compute; reflexivity|discriminate].
  - apply (proj1 (proj2 (proj2 (pick_main_and_danger_spec person_det [chair_det])))
             chair_det []); [|reflexivity|vm_compute; reflexivity].
    repeat apply Forall_cons_2; try apply Forall_nil_2; intros [H _]; revert H;
      apply not_in_DANGER; vm_compute; reflexivity.
  - apply (proj1 (proj2 (pick_main_and_danger_spec person_det [inverted_det; car_det]))
             [inverted_det] car_det []); [reflexivity| |].
    + repeat apply Forall_cons_2; try apply Forall_nil_2; intros [H _]; revert H;
        apply not_in_DANGER; vm_compute; reflexivity.
    + split; [apply in_DANGER; vm_compute; reflexivity|discriminate].
  - apply (proj2 (proj2 (proj2 (pick_main_and_danger_spec car_det
             [{| label := "cat"; conf := 0.4; bbox := (0, 0, 1, 1)%float |}])))).
    + repeat apply Forall_cons_2; try apply Forall_nil_2; intros [H _]; revert H;
        apply not_in_DANGER; vm_compute; reflexivity.
    + right. eexists _, _. split; [reflexivity|vm_compute; reflexivity].
Defined.

(** ** The speech gate *)

(** C3.  [should_speak] returns [False] exactly when the phrase equals
    [LAST["phrase"]] and [now - LAST["time"] < cooldown_sec]; in every other
    case it returns [True] and stores the phrase and [now]; the stored state
    changes only when it returns [True]. *)
Theorem should_speak_spec phrase cooldown_sec now st :
  ((should_speak phrase cooldown_sec now st).1 = false <->
     phrase = last_phrase st /\ (now - last_time st <? cooldown_sec)%float = true) /\
  ((should_speak phrase cooldown_sec now st).1 = true ->
     (should_speak phrase cooldown_sec now st).2
     = {| last_phrase := phrase; last_time := now |}) /\
  ((should_speak phrase cooldown_sec now st).1 = false ->
     (should_speak phrase cooldown_sec now st).2 = st).
Proof.
  unfold should_speak.
  destruct (String.eqb phrase (last_phrase st)) eqn:Ep;
    destruct (now - last_time st <? cooldown_sec)%float eqn:Ec; cbn;
    (split; [|split]); try discriminate; try reflexivity.
  - apply String.eqb_eq in Ep. split; auto.
  - split; [discriminate|]. intros [_ H]. discriminate.
  - apply String.eqb_neq in Ep. split; [discriminate|]. intros [H _]. contradiction.
  - apply String.eqb_neq in Ep. split; [discriminate|]. intros [H _]. contradiction.
Qed.

(** C10.  On the initial state ([LAST = {"phrase": "", "time": 0.0}]) the
    empty phrase within the cooldown is refused and the state is left as it
    was: the first call speaks exactly when the phrase is not empty or the
    cooldown, counted from time 0.0, is over. *)
Theorem should_speak_first_call cooldown_sec now :
  ((now - 0 <? cooldown_sec)%float = true ->
   should_speak "" cooldown_sec now LAST = (false, LAST)) /\
  forall phrase,
    (should_speak phrase cooldown_sec now LAST).1 = true <->
    phrase <> "" \/ (now - 0 <? cooldown_sec)%float = false.
Proof.
  unfold should_speak. cbn [LAST last_phrase last_time]. split.
  - intros ->. reflexivity.
  - intros phrase.
    destruct (String.eqb phrase "") eqn:Ep;
      destruct (now - 0 <? cooldown_sec)%float eqn:Ec; cbn.
    + apply String.eqb_eq in Ep. split; [discriminate|]. intros [H|H]; [contradiction|discriminate].
    + split; [right|]; reflexivity.
    + apply String.eqb_neq in Ep. split; [left; exact Ep|reflexivity].
    + split; [right|]; reflexivity.
Qed.

Lemma should_speak_first_call_witness :
  (1 - 0 <? 3)%float = true /\
  should_speak "" 3 1 LAST = (false, LAST).
Proof.
  split; [reflexivity|].
  apply (proj1 (should_speak_first_call 3 1)). reflexivity.
Defined.

(** ** Descriptors *)

(** C4.  The buckets follow the strict comparisons of the code: a relative
    centre [x] equal to 0.35 or to 0.65 is "по центру" (centre), and an area
    ratio equal to 0.22, 0.10 or 0.04 falls into the lower bucket, "близко"
    (close), "на среднем расстоянии" (medium) and "далеко" (far). *)
Theorem bucket_boundaries :
  (forall cx w m,
      float_of_int (Z.max w 1) = Ok m ->
      (cx / m =? 0.35)%float = true \/ (cx / m =? 0.65)%float = true ->
      pos_word cx w = Ok "по центру") /\
  (forall r, (r =? 0.22)%float = true -> distance_word r = "близко") /\
  (forall r, (r =? 0.10)%float = true ->
             distance_word r = "на среднем расстоянии") /\
  (forall r, (r =? 0.04)%float = true -> distance_word r = "далеко").
Proof.
  split; [|split; [|split]].
  - intros cx w m Hm Hx. unfold pos_word. rewrite Hm. cbn [mbind result_bind].
    rewrite (div_by_int_ok cx (Z.max w 1) m ltac:(lia) Hm). cbn [mbind result_bind].
    destruct Hx as [Hx|Hx];
      eapply eqb_finite_eq in Hx; try (vm_compute; reflexivity);
      rewrite Hx; reflexivity.
  - intros r Hr. eapply eqb_finite_eq in Hr; [|vm_compute; reflexivity].
    rewrite Hr. reflexivity.
  - intros r Hr. eapply eqb_finite_eq in Hr; [|vm_compute; reflexivity].
    rewrite Hr. reflexivity.
  - intros r Hr. eapply eqb_finite_eq in Hr; [|vm_compute; reflexivity].
    rewrite Hr. reflexivity.
Qed.

Lemma bucket_boundaries_witness :
  pos_word 224 640 = Ok "по центру" /\
  pos_word 416 640 = Ok "по центру" /\
  distance_word 0.22 = "близко" /\
  distance_word 0.10 = "на среднем расстоянии" /\
  distance_word 0.04 = "далеко".
Proof.
  destruct bucket_boundaries as (Hp & H22 & H10 & H04).
  refine (conj _ (conj _ (conj _ (conj _ _)))).
  - apply (Hp 224%float 640%Z 640%float); [vm_compute; reflexivity|].
    left. vm_compute. reflexivity.
  - apply (Hp 416%float 640%Z 640%float); [vm_compute; reflexivity|].
    right. vm_compute. reflexivity.
  - apply H22. reflexivity.
  - apply H10. reflexivity.
  - apply H04. reflexivity.
Defined.

(** The label enters the score through the multiplier only. *)
Lemma weighted_ext {R : Runtime} cx_img cy_img img_area d d' :
  bbox d = bbox d' -> conf d = conf d' ->
  weighted cx_img cy_img img_area d = weighted cx_img cy_img img_area d'.
Proof. intros Hb Hc. unfold weighted. now rewrite Hb, Hc. Qed.

(** C5.  The ranker and the descriptor consult the same set.  The function
    [score] of [rank_objects] multiplies by 1.35 exactly when [danger_word],
    and so the descriptor that [describe] returns, says "опасно"
    (dangerous), and by 1.0 when they say "не опасно" (not dangerous): that
    is, exactly when the label is in [DANGER].  The two multipliers differ,
    and nothing else in the score reads the label. *)
Theorem danger_set_shared {R : Runtime} cx_img cy_img img_area w h d :
  score cx_img cy_img img_area d
  = (t ← weighted cx_img cy_img img_area d;
     Ok (t * (if String.eqb (danger_word (label d)) "опасно"
              then 1.35 else 1.0))%float) /\
  (forall a, describe d w h = Ok a ->
     score cx_img cy_img img_area d
     = (t ← weighted cx_img cy_img img_area d;
        Ok (t * (if String.eqb (danger a) "опасно" then 1.35 else 1.0))%float)) /\
  ((label d ∈ DANGER) /\ danger_word (label d) = "опасно" \/
   (label d ∉ DANGER) /\ danger_word (label d) = "не опасно") /\
  (1.0 <? 1.35)%float = true /\
  (forall d', bbox d' = bbox d -> conf d' = conf d ->
     weighted cx_img cy_img img_area d' = weighted cx_img cy_img img_area d).
Proof.
  assert (Hs : score cx_img cy_img img_area d
    = (t ← weighted cx_img cy_img img_area d;
       Ok (t * (if String.eqb (danger_word (label d)) "опасно"
                then 1.35 else 1.0))%float)).
  { unfold score, priority, danger_word.
    destruct (decide (label d ∈ DANGER)); reflexivity. }
  refine (conj Hs (conj _ (conj _ (conj eq_refl _)))).
  - intros a Ha. rewrite Hs. unfold describe in Ha.
    destruct (bbox d) as [[[x1 y1] x2] y2].
    destruct (area_ratio d w h) as [r|]; [|discriminate Ha].
    destruct (pos_word _ w) as [p|]; [|discriminate Ha].
    injection Ha as <-. reflexivity.
  - unfold danger_word. destruct (decide (label d ∈ DANGER)); [left|right]; now split.
  - intros d'. apply weighted_ext.
Qed.

(** ** Empty input *)

(** C9.  On empty input every stage degrades without an error: no
    detections rank to the empty list, the empty list selects nothing, and
    nothing selected is narrated by the fixed sentence that asks to come
    closer or to improve the lighting. *)
Theorem empty_input_degrades {R : Runtime} w h :
  rank_objects [] w h = Ok [] /\
  pick_main_and_danger [] = [] /\
  make_phrase [] w h
  = Ok "Я не вижу уверенных объектов. Подойдите ближе или улучшите освещение." /\
  narrate [] w h = make_phrase [] w h.
Proof. repeat split. Qed.

(** ** The scenario of one car *)

(** C7, counterexample.  The car of the scenario is not described as
    centred: its centre is at [x = 200] of 640, that is 0.3125, which is
    below 0.35. *)
Lemma car_scenario_not_centred :
  pos_word ((100 + 300) / 2) 640 = Ok "слева" /\
  ~ exists a, describe car_det 640 480 = Ok a /\ pos a = "по центру".
Proof.
  split; [vm_compute; reflexivity|].
  intros (a & Ha & Hp). vm_compute in Ha. injection Ha as <-. discriminate Hp.
Qed.

(** A single detection is ranked first, whatever its score. *)
Lemma rank_objects_single {R : Runtime} {C : Conforms R} d w h out :
  rank_objects [d] w h = Ok out -> out = [d].
Proof.
  intros Hout%rank_objects_perm. symmetry. now apply Permutation_singleton_l.
Qed.

(** C7, as amended.  For the single detection of a car with confidence 0.9
    and box (100, 100, 300, 300) in a 640 by 480 frame: the ranked list is
    that detection, the selection is that detection, its area is 40000 and
    its area ratio 40000 / 307200, between 0.10 and 0.22; it is described as
    "машина" (car), "слева" (on the left), "близко" (close) and "опасно"
    (dangerous), and the sentence says so. *)
Theorem car_scenario {R : Runtime} {C : Conforms R} :
  rank_objects [car_det] 640 480 = Ok [car_det] /\
  pick_main_and_danger [car_det] = [car_det] /\
  bbox_area (bbox car_det) = 40000%float /\
  area_ratio car_det 640 480 = Ok (40000 / 307200)%float /\
  (0.10 <? 40000 / 307200)%float = true /\
  (40000 / 307200 <=? 0.22)%float = true /\
  describe car_det 640 480
  = Ok {| name := "машина"; pos := "слева"; dist := "близко"; danger := "опасно" |} /\
  make_phrase [car_det] 640 480
  = Ok "Перед вами машина, слева, близко. Это опасно." /\
  narrate [car_det] 640 480 = Ok "Перед вами машина, слева, близко. Это опасно.".
Proof.
  assert (Hr : rank_objects [car_det] 640 480 = Ok [car_det]).
  { destruct (rank_objects_returns_inside [car_det] 640 480 eq_refl eq_refl) as [out Hout].
    now rewrite Hout, (rank_objects_single _ _ _ _ Hout). }
  split; [exact Hr|]. unfold narrate. rewrite Hr.
  repeat split; vm_compute; reflexivity.
Qed.

Lemma car_scenario_witness :
  rank_objects [car_det] 640 480 = Ok [car_det] /\
  narrate [car_det] 640 480 = Ok "Перед вами машина, слева, близко. Это опасно.".
Proof.
  destruct (@car_scenario reference_runtime reference_conforms)
    as (Hr & _ & _ & _ & _ & _ & _ & _ & Hn).
  exact (conj Hr Hn).
Defined.

(** ** Dangerous twins *)

Lemma StronglySorted_lookup_lt {A} (R : A -> A -> Prop) l i j a b :
  StronglySorted R l -> l !! i = Some a -> l !! j = Some b -> (i < j)%nat -> R a b.
Proof.
  intros Hs. revert i j. induction Hs as [|x l Hs IH Hx]; intros i j Hi Hj Hlt.
  - discriminate Hi.
  - destruct j as [|j]; [lia|]. cbn in Hj. destruct i as [|i]; cbn in Hi.
    + injection Hi as <-. rewrite Forall_forall in Hx. apply Hx.
      eapply list_elem_of_lookup_2; exact Hj.
    + apply (IH i j); [assumption|assumption|lia].
Qed.

Lemma salience_inv {R : Runtime} w h d s :
  salience w h d = Ok s ->
  exists cx cy t,
    int_truediv2 w = Ok cx /\ int_truediv2 h = Ok cy /\
    weighted cx cy (Z.max (w * h) 1) d = Ok t /\
    s = (t * priority (label d))%float.
Proof.
  unfold salience, score.
  destruct (int_truediv2 w) as [cx|]; [|discriminate].
  destruct (int_truediv2 h) as [cy|]; [|discriminate].
  cbn [mbind result_bind].
  destruct (weighted cx cy (Z.max (w * h) 1) d) as [t|] eqn:Ht; [|discriminate].
  cbn [mbind result_bind]. intros [= <-]. exists cx, cy, t. repeat split. exact Ht.
Qed.

(** Two detections that differ in the label only, one dangerous and one
    not, in any frame where the score of the second is a number: the first
    scores 1.35 times what the second is weighted with. *)
Lemma danger_twin_scores {R : Runtime} {C : Conforms R} w h dd dn sn :
  bbox dd = bbox dn -> conf dd = conf dn ->
  (label dd ∈ DANGER) -> (label dn ∉ DANGER) ->
  (0 <=? conf dn)%float = true ->
  salience w h dn = Ok sn -> is_nan sn = false ->
  exists cx cy t,
    int_truediv2 w = Ok cx /\ int_truediv2 h = Ok cy /\
    weighted cx cy (Z.max (w * h) 1) dn = Ok t /\
    weighted cx cy (Z.max (w * h) 1) dd = Ok t /\
    sn = (t * 1.0)%float /\
    salience w h dd = Ok (t * 1.35)%float /\
    (t * 1.0 <=? t * 1.35)%float = true.
Proof.
  intros Hb Hc Hd Hn Hconf Hsn Hnan.
  assert (Hpd : priority (label dd) = 1.35%float)
    by (unfold priority; destruct (decide (label dd ∈ DANGER)); [reflexivity|contradiction]).
  assert (Hpn : priority (label dn) = 1%float)
    by (unfold priority; destruct (decide (label dn ∈ DANGER)); [contradiction|reflexivity]).
  destruct (salience_inv w h dn sn Hsn) as (cx & cy & t & Hw & Hh & Ht & ->).
  rewrite Hpn in *.
  assert (Htd : weighted cx cy (Z.max (w * h) 1) dd = Ok t)
    by now rewrite (weighted_ext cx cy _ dd dn Hb Hc).
  exists cx, cy, t. repeat split; try assumption.
  - rewrite (salience_score w h cx cy) by assumption. unfold score.
    rewrite Htd. cbn [mbind result_bind]. now rewrite Hpd.
  - apply mul_priority_mono.
    + eapply weighted_nonneg; [|exact Hconf|exact Ht]. lia.
    + eapply is_nan_mul_l; exact Hnan.
Qed.

(** C6.  Take two detections of the data model with the same box and the
    same confidence, one with a label in [DANGER] and one with a label
    outside it, in a frame of the data model; let [t] be what [score]
    computes for either before the multiplier.  Then the score of the
    first is [t * 1.35] and that of the second [t * 1.0]; the multiplier
    1.35 strictly exceeds 1.0; the score of the first is at least that of
    the second; and in the output of [rank_objects], on any list of the
    data model, the second comes before the first only when their scores
    are equal. *)
Theorem danger_twin_outranks {R : Runtime} {C : Conforms R} w h dd dn :
  bbox dd = bbox dn -> conf dd = conf dn ->
  (label dd ∈ DANGER) -> (label dn ∉ DANGER) ->
  frame_in_range w h = true -> box_in_range dn = true -> conf_in_unit dn = true ->
  exists cx cy t,
    int_truediv2 w = Ok cx /\ int_truediv2 h = Ok cy /\
    weighted cx cy (Z.max (w * h) 1) dn = Ok t /\
    weighted cx cy (Z.max (w * h) 1) dd = Ok t /\
    salience w h dn = Ok (t * 1.0)%float /\
    salience w h dd = Ok (t * 1.35)%float /\
    (1.0 <? 1.35)%float = true /\
    (t * 1.0 <=? t * 1.35)%float = true /\
    forall dets out i j,
      forallb box_in_range dets = true -> forallb conf_in_unit dets = true ->
      rank_objects dets w h = Ok out ->
      out !! i = Some dn -> out !! j = Some dd -> (i < j)%nat ->
      (t * 1.35 =? t * 1.0)%float = true.
Proof.
  intros Hb Hc Hd Hn Hf Hbox Hconf.
  destruct (in_range_salience w h dn Hf Hbox Hconf) as (sn & Hsn & Hbelow).
  assert (Hc0 : (0 <=? conf dn)%float = true).
  { unfold conf_in_unit in Hconf. now apply andb_true_iff in Hconf as [? _]. }
  destruct (danger_twin_scores w h dd dn sn Hb Hc Hd Hn Hc0 Hsn)
    as (cx & cy & t & Hw & Hh & Ht & Htd & -> & Hsd & Hle);
    [apply (below_finite _ _ Hbelow)|].
  exists cx, cy, t. refine (conj Hw (conj Hh (conj Ht (conj Htd (conj Hsn
    (conj Hsd (conj eq_refl (conj Hle _)))))))).
  intros dets out i j Hboxes Hconfs Hout Hi Hj Hlt.
  pose proof (in_range_all_scored dets w h Hf Hboxes Hconfs) as Hall.
  pose proof (rank_objects_sorted dets w h out Hall Hout) as Hs.
  destruct (StronglySorted_lookup_lt _ _ _ _ _ _ Hs Hi Hj Hlt)
    as (sa & sb & Ha & Hb' & Hba).
  rewrite Hsn in Ha. rewrite Hsd in Hb'. injection Ha as <-. injection Hb' as <-.
  apply leb_antisym; assumption.
Qed.

Lemma danger_twin_outranks_witness :
  exists cx cy t,
    int_truediv2 640 = Ok cx /\ int_truediv2 480 = Ok cy /\
    weighted cx cy (Z.max (640 * 480) 1) person_det = Ok t /\
    weighted cx cy (Z.max (640 * 480) 1) car_det = Ok t /\
    salience 640 480 person_det = Ok (t * 1.0)%float /\
    salience 640 480 car_det = Ok (t * 1.35)%float /\
    (1.0 <? 1.35)%float = true /\
    (t * 1.0 <=? t * 1.35)%float = true /\
    forall dets out i j,
      forallb box_in_range dets = true -> forallb conf_in_unit dets = true ->
      rank_objects dets 640 480 = Ok out ->
      out !! i = Some person_det -> out !! j = Some car_det -> (i < j)%nat ->
      (t * 1.35 =? t * 1.0)%float = true.
Proof.
  apply (danger_twin_outranks 640 480 car_det person_det).
  - reflexivity.
  - reflexivity.
  - apply in_DANGER. vm_compute. reflexivity.
  - apply not_in_DANGER. vm_compute. reflexivity.
  - reflexivity.
  - reflexivity.
  - reflexivity.
Defined.

(** ** Totality *)

Section Totality.
Context {R : Runtime} {C : Conforms R}.

Lemma narrate_raise dets w h e : narrate dets w h = Raise e -> e = OverflowError.
Proof.
  unfold narrate. destruct (rank_objects dets w h) as [ranked|e1] eqn:E1;
    cbn [mbind result_bind].
  - apply make_phrase_raise.
  - intros [= <-]. eapply rank_objects_raise; exact E1.
Qed.

Lemma narrate_returns dets w h :
  (w < int_limit)%Z -> (w * h < int_limit)%Z ->
  forallb (squares_fit w h) dets = true -> returns (narrate dets w h).
Proof.
  intros Hw Hwh Hall. unfold narrate.
  destruct (rank_objects_returns_in_range dets w h Hwh Hall) as [ranked ->].
  cbn [mbind result_bind]. now apply make_phrase_returns.
Qed.

Lemma narrate_returns_inside dets w h :
  frame_in_range w h = true -> forallb box_in_range dets = true ->
  returns (narrate dets w h).
Proof.
  intros Hf Hb. destruct (frame_in_range_limits w h Hf) as [Hw Hwh].
  unfold narrate. destruct (rank_objects_returns_inside dets w h Hf Hb) as [ranked ->].
  cbn [mbind result_bind]. now apply make_phrase_returns.
Qed.

(** A box whose centre is [2^512] or more away from the centre of the frame
    along x makes [** 2] raise, and with it the whole ranking. *)
Lemma rank_objects_overflows d dets w h cx_img cy_img x1 y1 x2 y2 :
  int_truediv2 w = Ok cx_img -> int_truediv2 h = Ok cy_img ->
  bbox d = (x1, y1, x2, y2) ->
  (square_limit <=? abs ((x1 + x2) / 2 - cx_img))%float = true ->
  (abs ((x1 + x2) / 2 - cx_img) <? infinity)%float = true ->
  rank_objects (d :: dets) w h = Raise OverflowError.
Proof.
  intros Hw Hh Hb Hx Hi. unfold rank_objects, sorted_desc. rewrite Hw, Hh.
  cbn [mbind result_bind decorate].
  assert (Hs : score cx_img cy_img (Z.max (w * h) 1) d = Raise OverflowError).
  { unfold score, weighted. rewrite Hb. now rewrite (float_pow2_overflows _ Hx Hi). }
  now rewrite Hs.
Qed.

End Totality.

(** C8, counterexample.  The core is not total: a frame too wide for a
    float raises [OverflowError] in [describe] and [make_phrase], and a box
    far out of a 640 by 480 frame, or a frame far wider than its box, raises
    it in [rank_objects] and in the whole pipeline. *)
Lemma core_not_total :
  describe dot_det (10 ^ 400) 1 = Raise OverflowError /\
  make_phrase [dot_det] (10 ^ 400) 1 = Raise OverflowError /\
  forall R : Runtime, Conforms R ->
    rank_objects [far_det] 640 480 = Raise OverflowError /\
    narrate [far_det] 640 480 = Raise OverflowError /\
    rank_objects [dot_det] (10 ^ 200) 1 = Raise OverflowError.
Proof.
  split; [vm_compute; reflexivity|]. split; [vm_compute; reflexivity|].
  intros R C.
  assert (Hfar : rank_objects [far_det] 640 480 = Raise OverflowError).
  { apply (rank_objects_overflows far_det [] 640 480 320 240 0 0 1e200 1e200);
      vm_compute; reflexivity. }
  split; [exact Hfar|]. split; [unfold narrate; now rewrite Hfar|].
  apply (rank_objects_overflows dot_det [] (10 ^ 200) 1 5e199 0.5 0 0 0 0);
    vm_compute; reflexivity.
Qed.

(** C8, as amended.  [rank_objects], [describe], [make_phrase] and their
    composition raise nothing but [OverflowError]: no geometry, however
    degenerate, makes them divide by zero.  [describe] and [make_phrase]
    return for every detection in every frame with [w] and [w * h] below
    2^1023, zero and negative sizes included; [rank_objects] and the whole
    pipeline return in such a frame whenever the squares of the centre
    offsets of the boxes are in the range of the floats, and so they do
    whenever the sides of the frame and the coordinates of the boxes are
    below 2^500 in absolute value: inverted boxes and boxes out of the
    frame included. *)
Theorem core_raises_only_overflow {R : Runtime} {C : Conforms R} :
  (forall dets w h e, rank_objects dets w h = Raise e -> e = OverflowError) /\
  (forall obj w h e, describe obj w h = Raise e -> e = OverflowError) /\
  (forall objs w h e, make_phrase objs w h = Raise e -> e = OverflowError) /\
  (forall dets w h e, narrate dets w h = Raise e -> e = OverflowError) /\
  (forall obj w h,
      (w < int_limit)%Z -> (w * h < int_limit)%Z -> returns (describe obj w h)) /\
  (forall objs w h,
      (w < int_limit)%Z -> (w * h < int_limit)%Z -> returns (make_phrase objs w h)) /\
  (forall dets w h,
      (w * h < int_limit)%Z -> forallb (squares_fit w h) dets = true ->
      returns (rank_objects dets w h)) /\
  (forall dets w h,
      (w < int_limit)%Z -> (w * h < int_limit)%Z ->
      forallb (squares_fit w h) dets = true -> returns (narrate dets w h)) /\
  (forall dets w h,
      frame_in_range w h = true -> forallb box_in_range dets = true ->
      returns (rank_objects dets w h)) /\
  (forall dets w h,
      frame_in_range w h = true -> forallb box_in_range dets = true ->
      returns (narrate dets w h)).
Proof.
  refine (conj _ (conj _ (conj _ (conj _ (conj _ (conj _ (conj _
            (conj _ (conj _ _))))))))).
  - exact rank_objects_raise.
  - exact describe_raise.
  - exact make_phrase_raise.
  - exact narrate_raise.
  - exact describe_returns.
  - exact make_phrase_returns.
  - exact rank_objects_returns_in_range.
  - exact narrate_returns.
  - exact rank_objects_returns_inside.
  - exact narrate_returns_inside.
Qed.

Lemma core_raises_only_overflow_witness :
  returns (describe inverted_det 0 0) /\
  returns (make_phrase [inverted_det; flat_car] (-5) 480) /\
  returns (rank_objects [inverted_det; flat_car; car_det] 0 0) /\
  returns (narrate [inverted_det; car_det] (2 ^ 400) (2 ^ 400)) /\
  returns (rank_objects [inverted_det; outside_det; dot_det] 0 480) /\
  returns (narrate [outside_det; inverted_det; dot_det] 640 (-480)).
Proof.
  destruct (@core_raises_only_overflow reference_runtime reference_conforms)
    as (_ & _ & _ & _ & Hd & Hm & Hr & Hn & Hri & Hni).
  refine (conj _ (conj _ (conj _ (conj _ (conj _ _))))).
  - apply Hd; reflexivity.
  - apply Hm; reflexivity.
  - apply Hr; [reflexivity|vm_compute; reflexivity].
  - apply Hn; [reflexivity|reflexivity|vm_compute; reflexivity].
  - apply Hri; reflexivity.
  - apply Hni; reflexivity.
Defined.

(** * Further properties of the code

    Properties that the code shows beyond the claims above: of the
    selection, the ranking, the gate over several calls, the descriptors on
    degenerate input, the sentences, and the handlers of the service. *)

(** ** Selection, read backwards *)

Lemma first_danger_inv main rest d :
  first_danger (label main) rest = Some d ->
  exists pre post,
    rest = (pre ++ d :: post)%list /\
    Forall (fun d' => ~ dangerous_other main d') pre /\
    dangerous_other main d.
Proof.
  induction rest as [|d' rest IH]; cbn [first_danger]; [discriminate|].
  destruct (bool_decide _ && _) eqn:E.
  - intros [= <-]. exists [], rest. split; [reflexivity|]. split; [constructor|].
    now apply dangerous_other_test.
  - intros H. destruct (IH H) as (pre & post & -> & Hpre & Hd).
    exists (d' :: pre), post. split; [reflexivity|]. split; [|assumption].
    constructor; [|assumption]. intros Hd'. apply dangerous_other_test in Hd'. congruence.
Qed.

Lemma first_danger_none_inv main rest :
  first_danger (label main) rest = None ->
  Forall (fun d' => ~ dangerous_other main d') rest.
Proof.
  induction rest as [|d' rest IH]; cbn [first_danger]; [constructor|].
  destruct (bool_decide _ && _) eqn:E; [discriminate|].
  intros H. constructor; [|now apply IH].
  intros Hd'. apply dangerous_other_test in Hd'. congruence.
Qed.

Lemma pick_nil_iff ranked : pick_main_and_danger ranked = [] <-> ranked = [].
Proof.
  destruct ranked as [|main rest]; [tauto|]. cbn [pick_main_and_danger].
  destruct (first_danger _ rest); [split; discriminate|].
  destruct rest as [|second ?]; [split; discriminate|].
  destruct (0.45 <=? conf second)%float; split; discriminate.
Qed.

Lemma pick_sublist ranked : pick_main_and_danger ranked `sublist_of` ranked.
Proof.
  destruct ranked as [|main rest]; cbn [pick_main_and_danger]; [reflexivity|].
  destruct (first_danger (label main) rest) as [d|] eqn:E.
  - assert (Hin : [d] `sublist_of` rest).
    { clear -E. induction rest as [|d' rest IH]; cbn [first_danger] in E; [discriminate|].
      destruct (bool_decide _ && _).
      - injection E as ->. apply sublist_skip, sublist_nil_l.
      - apply sublist_cons. now apply IH. }
    now apply sublist_skip.
  - destruct rest as [|second others]; [reflexivity|].
    destruct (0.45 <=? conf second)%float.
    + do 2 apply sublist_skip. apply sublist_nil_l.
    + apply sublist_skip, sublist_nil_l.
Qed.

Lemma pick_length ranked : (length (pick_main_and_danger ranked) <= 2)%nat.
Proof.
  destruct ranked as [|main rest]; cbn [pick_main_and_danger]; [cbn; lia|].
  destruct (first_danger (label main) rest); [cbn; lia|].
  destruct rest as [|second others]; [cbn; lia|].
  destruct (0.45 <=? conf second)%float; cbn; lia.
Qed.

(** X1.  The selection has at most two detections, taken from the ranked
    list in ranked order; it starts with the first ranked detection, and it
    is empty only for the empty list. *)
Theorem pick_main_and_danger_shape ranked :
  (length (pick_main_and_danger ranked) <= 2)%nat /\
  pick_main_and_danger ranked `sublist_of` ranked /\
  head (pick_main_and_danger ranked) = head ranked /\
  (pick_main_and_danger ranked = [] <-> ranked = []).
Proof.
  split; [apply pick_length|]. split; [apply pick_sublist|].
  split; [|apply pick_nil_iff].
  destruct ranked as [|main rest]; cbn [pick_main_and_danger]; [reflexivity|].
  destruct (first_danger _ rest); [reflexivity|].
  destruct rest as [|second ?]; [reflexivity|].
  destruct (0.45 <=? conf second)%float; reflexivity.
Qed.

(** X2.  A second detection is selected for one of two reasons only: it
    is the first detection after the main one with a dangerous label other
    than the main label; or nothing after the main one is such, and it is
    the second ranked detection with a confidence of at least 0.45. *)
Theorem pick_secondary_justified ranked m s :
  pick_main_and_danger ranked = [m; s] ->
  exists rest,
    ranked = m :: rest /\
    ((exists pre post,
         rest = (pre ++ s :: post)%list /\
         Forall (fun d' => ~ dangerous_other m d') pre /\
         dangerous_other m s) \/
     (Forall (fun d' => ~ dangerous_other m d') rest /\
      head rest = Some s /\ (0.45 <=? conf s)%float = true)).
Proof.
  destruct ranked as [|main rest]; cbn [pick_main_and_danger]; [discriminate|].
  destruct (first_danger (label main) rest) as [d|] eqn:E.
  - intros [= -> ->]. exists rest. split; [reflexivity|]. left.
    now apply first_danger_inv.
  - apply first_danger_none_inv in E.
    destruct rest as [|second others]; [discriminate|].
    destruct (0.45 <=? conf second)%float eqn:Ec; [|discriminate].
    intros [= -> ->]. exists (s :: others). split; [reflexivity|]. right.
    split; [assumption|]. split; [reflexivity|assumption].
Qed.

Lemma pick_secondary_justified_witness :
  exists rest,
    [person_det; chair_det; bus_det] = person_det :: rest /\
    ((exists pre post,
         rest = (pre ++ bus_det :: post)%list /\
         Forall (fun d' => ~ dangerous_other person_det d') pre /\
         dangerous_other person_det bus_det) \/
     (Forall (fun d' => ~ dangerous_other person_det d') rest /\
      head rest = Some bus_det /\ (0.45 <=? conf bus_det)%float = true)).
Proof.
  apply (pick_secondary_justified [person_det; chair_det; bus_det] person_det bus_det).
  vm_compute. reflexivity.
Defined.

(** X3.  Selecting from a selection changes nothing. *)
Theorem pick_main_and_danger_idempotent ranked :
  pick_main_and_danger (pick_main_and_danger ranked) = pick_main_and_danger ranked.
Proof.
  destruct ranked as [|main rest]; cbn [pick_main_and_danger]; [reflexivity|].
  destruct (first_danger (label main) rest) as [d|] eqn:E.
  - destruct (first_danger_inv main rest d E) as (_ & _ & _ & _ & Hd).
    apply dangerous_other_test in Hd.
    cbn [pick_main_and_danger first_danger]. now rewrite Hd.
  - pose proof (first_danger_none_inv main rest E) as Hall.
    destruct rest as [|second others]; [reflexivity|].
    destruct (0.45 <=? conf second)%float eqn:Ec; [|reflexivity].
    cbn [pick_main_and_danger first_danger].
    apply Forall_cons_1 in Hall as [Hs _].
    destruct (bool_decide _ && _) eqn:E2.
    + apply dangerous_other_test in E2. contradiction.
    + now rewrite Ec.
Qed.

(** ** Ranking: what is kept, when it fails, sign, and ranking twice *)

Lemma SFleb_not_ltb x y : SFleb y x = true -> SFltb x y = false.
Proof.
  unfold SFleb, SFltb, SFcompare.
  destruct x as [[]|[]| |[] m1 e1], y as [[]|[]| |[] m2 e2];
    simpl; try congruence; intros H1; cmp_cases; simpl in *; try congruence; try lia.
Qed.

Lemma leb_not_ltb a b : (b <=? a)%float = true -> (a <? b)%float = false.
Proof. rewrite FloatAxioms.leb_spec, FloatAxioms.ltb_spec. apply SFleb_not_ltb. Qed.

Lemma decorate_all_return {A} (key : A -> result float) ds :
  returns (decorate key ds) <-> Forall (fun d => returns (key d)) ds.
Proof.
  split; [|apply decorate_returns].
  induction ds as [|d ds IH]; [constructor|]. cbn [decorate].
  destruct (key d) as [k|e] eqn:Ek; cbn [mbind result_bind]; [|intros [? [=]]].
  destruct (decorate key ds) as [kl|e] eqn:Ekl; cbn [mbind result_bind]; [|intros [? [=]]].
  intros _. constructor; [now exists k|]. apply IH. now exists kl.
Qed.

Lemma sort_desc_sorted_id {A} (l : list (float * A)) :
  StronglySorted key_ge l -> sort_desc l = l.
Proof.
  induction 1 as [|x l Hs IH Hx]; [reflexivity|]. cbn [sort_desc]. rewrite IH.
  destruct l as [|y l]; [reflexivity|]. cbn [insert_desc].
  apply Forall_cons_1 in Hx as [Hy _]. unfold key_ge in Hy.
  now rewrite (leb_not_ltb _ _ Hy).
Qed.

Lemma decorate_undecorate {A} (key : A -> result float) (l : list (float * A)) :
  Forall (fun kd => key kd.2 = Ok kd.1) l -> decorate key (map snd l) = Ok l.
Proof.
  induction 1 as [|[k x] l Hx _ IH]; [reflexivity|]. cbn [map decorate snd].
  cbn in Hx. rewrite Hx. cbn [mbind result_bind]. rewrite IH. reflexivity.
Qed.

(** X4.  Whatever the scores are ([nan] included), a ranking that returns
    has lost nothing and added nothing: it is a permutation of the input. *)
Theorem rank_objects_keeps_all {R : Runtime} {C : Conforms R} dets w h out :
  rank_objects dets w h = Ok out ->
  Permutation dets out /\ length out = length dets /\
  forall d, d ∈ out <-> d ∈ dets.
Proof.
  intros H. apply rank_objects_perm in H. split; [assumption|].
  split; [symmetry; now apply Permutation_length|].
  intros d. now rewrite H.
Qed.

Lemma rank_objects_keeps_all_witness :
  Permutation [chair_det; person_det; bus_det; car_det]
              [car_det; person_det; chair_det; bus_det] /\
  length [car_det; person_det; chair_det; bus_det]
  = length [chair_det; person_det; bus_det; car_det] /\
  forall d, d ∈ [car_det; person_det; chair_det; bus_det]
            <-> d ∈ [chair_det; person_det; bus_det; car_det].
Proof.
  apply (rank_objects_keeps_all [chair_det; person_det; bus_det; car_det] 640 480).
  vm_compute. reflexivity.
Defined.

(** X5.  The ranking of a list that is not empty fails exactly when the
    score of one of its detections fails: one box far out of the frame
    spoils the frame, wherever it is in the list.  The empty list is ranked
    in every frame. *)
Theorem rank_objects_returns_iff {R : Runtime} dets w h :
  returns (rank_objects dets w h) <->
  dets = [] \/ Forall (fun d => returns (salience w h d)) dets.
Proof.
  destruct dets as [|d dets].
  { split; [now left|]. intros _. now exists []. }
  unfold rank_objects, salience.
  destruct (int_truediv2 w) as [cx|e1]; cbn [mbind result_bind].
  2:{ split; [intros [? [=]]|]. intros [[=]|H]. apply Forall_cons_1 in H as [[? [=]] _]. }
  destruct (int_truediv2 h) as [cy|e2]; cbn [mbind result_bind].
  2:{ split; [intros [? [=]]|]. intros [[=]|H]. apply Forall_cons_1 in H as [[? [=]] _]. }
  unfold sorted_desc. rewrite <- (decorate_all_return (score cx cy (Z.max (w * h) 1))).
  split.
  - intros [out H]. right.
    destruct (decorate _ (d :: dets)) as [kl|e]; [now exists kl|discriminate].
  - intros [[=]|[kl ->]]. cbn [mbind result_bind]. now eexists.
Qed.

(** X6.  With a confidence that is not negative, a score is never below
    zero. *)
Theorem salience_not_negative {R : Runtime} {C : Conforms R} w h d s :
  (0 <=? conf d)%float = true -> salience w h d = Ok s -> (s <? 0)%float = false.
Proof.
  intros Hc Hs. destruct (salience_inv w h d s Hs) as (cx & cy & t & _ & _ & Ht & ->).
  apply nonneg_ltb_0. apply mul_nonneg.
  - eapply weighted_nonneg; [|exact Hc|exact Ht]. lia.
  - unfold priority. destruct (decide _); reflexivity.
Qed.

Lemma salience_not_negative_witness : (person_score <? 0)%float = false.
Proof.
  apply (salience_not_negative 640 480 person_det person_score);
    vm_compute; reflexivity.
Defined.

(** X7.  When the scores are numbers, ranking a ranked list changes
    nothing. *)
Theorem rank_objects_idempotent {R : Runtime} {C : Conforms R} dets w h out :
  forallb (scored w h) dets = true ->
  rank_objects dets w h = Ok out -> rank_objects out w h = Ok out.
Proof.
  intros Hall Hout. destruct dets as [|d dets].
  { cbn in Hout. injection Hout as <-. reflexivity. }
  destruct (rank_objects_inv_scored (d :: dets) w h out ltac:(discriminate) Hall Hout)
    as (cx & cy & kl & Hw & Hh & Hd & Hnum & ->).
  destruct (decorated_salience _ _ _ _ _ _ Hw Hh Hd) as [Hmap Hkeys].
  assert (Hnum' : Forall key_number (sort_desc kl))
    by (eapply Permutation_Forall; [symmetry; apply sort_desc_perm|exact Hnum]).
  assert (Hkeys' : Forall (fun kd => score cx cy (Z.max (w * h) 1) kd.2 = Ok kd.1)
                     (sort_desc kl)).
  { rewrite sort_desc_perm. rewrite List.Forall_forall in *. intros kd Hin.
    rewrite <- (salience_score w h cx cy) by assumption. now apply Hkeys. }
  destruct (sort_desc kl) as [|kd skl] eqn:Es.
  { reflexivity. }
  unfold rank_objects. cbn [map]. rewrite Hw, Hh. cbn [mbind result_bind].
  unfold sorted_desc. change (kd.2 :: map snd skl) with (map snd (kd :: skl)).
  rewrite (decorate_undecorate _ _ Hkeys'). cbn [mbind result_bind].
  rewrite (sort_stable _ _ Hnum'), <- Es, sort_desc_sorted_id; [reflexivity|].
  now apply sort_desc_sorted.
Qed.

Lemma rank_objects_idempotent_witness :
  rank_objects [car_det; person_det; chair_det; bus_det] 640 480
  = Ok [car_det; person_det; chair_det; bus_det].
Proof.
  apply (rank_objects_idempotent [chair_det; person_det; bus_det; car_det] 640 480);
    vm_compute; reflexivity.
Defined.

(** ** Floats: the sign of a difference, and chains of comparisons *)

Section DifferenceSigns.
Local Open Scope Z_scope.

Lemma shl_align_value m e e' :
  e' <= e -> Zpos (fst (shl_align m e e')) = Zpos m * 2 ^ (e - e').
Proof.
  intros He. unfold shl_align. destruct (e' - e) as [|d|d] eqn:Ed; cbn [fst].
  - replace (e - e') with 0 by lia. lia.
  - lia.
  - rewrite pos_iter_xO. f_equal. f_equal. lia.
Qed.

Lemma aligned_lt mx my k :
  Z.log2 (Zpos mx) <= 52 -> Z.log2 (Zpos my) = 52 -> 0 < k ->
  Zpos mx < Zpos my * 2 ^ k.
Proof.
  intros Hx Hy Hk.
  assert (H1 : Zpos mx < 2 ^ 53) by (apply Z.log2_lt_pow2; lia).
  destruct (Z.log2_spec (Zpos my) ltac:(lia)) as [H2 _]. rewrite Hy in H2.
  assert (H3 : 2 ^ 1 <= 2 ^ k) by (apply Z.pow_le_mono_r; lia).
  change (2 ^ 1) with 2 in H3. change (2 ^ 53) with (2 * 2 ^ 52) in H1.
  remember (2 ^ 52) as P. remember (2 ^ k) as Q. nia.
Qed.

(** The sign of a difference: [y - x] for [x <= y] carries no minus sign. *)
Lemma SFsub_nonneg_of_le x y :
  valid_binary x = true -> valid_binary y = true ->
  SFleb x y = true -> sf_nonneg (SFsub prec emax y x) = true.
Proof.
  intros Hvx Hvy. unfold SFleb, SFcompare.
  destruct x as [sx|sx| |sx mx ex], y as [sy|sy| |sy my ey]; cbn [SFsub sf_nonneg];
    try (destruct sx; try destruct sy; try reflexivity; discriminate);
    try (destruct sy; try reflexivity; discriminate);
    try discriminate.
  unfold valid_binary, bounded in Hvx, Hvy.
  apply andb_true_iff in Hvx as [Hcx _]. apply andb_true_iff in Hvy as [Hcy _].
  apply canonical_inv in Hcx as (Hlx & Hex & Hnx).
  apply canonical_inv in Hcy as (Hly & Hey & Hny).
  intros Hcmp.
  pose proof (shl_align_value mx ex (Z.min ey ex) ltac:(lia)) as HA.
  pose proof (shl_align_value my ey (Z.min ey ex) ltac:(lia)) as HB.
  set (A := fst (shl_align mx ex (Z.min ey ex))) in *.
  set (B := fst (shl_align my ey (Z.min ey ex))) in *.
  assert (Hz : 0 <= cond_Zopp sy (Zpos B) - cond_Zopp sx (Zpos A)).
  { destruct sx, sy; cbn [cond_Zopp]; try discriminate; try lia.
    - (* both negative *)
      destruct (Z.compare_spec ex ey) as [->|Hlt|Hgt]; try discriminate.
      + rewrite Z.min_id, Z.sub_diag, Z.mul_1_r in HA, HB.
        change (Pos.compare_cont Eq mx my) with (Pos.compare mx my) in Hcmp.
        destruct (Pos.compare_spec mx my); try discriminate; lia.
      + rewrite Z.min_l in HA, HB by lia. rewrite Z.sub_diag, Z.mul_1_r in HB.
        pose proof (aligned_lt my mx (ex - ey) Hly ltac:(lia) ltac:(lia)). lia.
    - (* both positive *)
      destruct (Z.compare_spec ex ey) as [->|Hlt|Hgt]; try discriminate.
      + rewrite Z.min_id, Z.sub_diag, Z.mul_1_r in HA, HB.
        change (Pos.compare_cont Eq mx my) with (Pos.compare mx my) in Hcmp.
        destruct (Pos.compare_spec mx my); try discriminate; lia.
      + rewrite Z.min_r in HA, HB by lia. rewrite Z.sub_diag, Z.mul_1_r in HA.
        pose proof (aligned_lt mx my (ey - ex) Hlx ltac:(lia) ltac:(lia)). lia. }
  destruct (cond_Zopp sy (Zpos B) - cond_Zopp sx (Zpos A)) as [|p|p]; [reflexivity| |lia].
  cbn [binary_normalize]. unfold binary_round. destruct (shl_align p _ _). apply bra_nonneg.
Qed.

Lemma sub_nonneg_of_le a b : (a <=? b)%float = true -> nonneg (b - a) = true.
Proof.
  rewrite FloatAxioms.leb_spec. unfold nonneg. rewrite sub_spec.
  apply SFsub_nonneg_of_le; apply Prim2SF_valid.
Qed.

End DifferenceSigns.

Section ComparisonChains.
Local Open Scope Z_scope.

Lemma bra_not_positive m e l :
  SFltb (S754_zero false) (binary_round_aux prec emax true m e l) = false.
Proof.
  unfold binary_round_aux.
  destruct (shr_fexp prec emax m e l) as [mrs1 e1].
  destruct (shr_fexp _ _ _ _ _) as [mrs2 e2].
  destruct (shr_m mrs2); try reflexivity.
  destruct (_ <=? _); reflexivity.
Qed.

(** [x - y] for [x <= y] is not positive. *)
Lemma SFsub_not_positive_of_le x y :
  valid_binary x = true -> valid_binary y = true ->
  SFleb x y = true -> SFltb (S754_zero false) (SFsub prec emax x y) = false.
Proof.
  intros Hvx Hvy. unfold SFleb, SFcompare.
  destruct x as [sx|sx| |sx mx ex], y as [sy|sy| |sy my ey]; cbn [SFsub];
    try (destruct sx; try destruct sy; try reflexivity; discriminate);
    try (destruct sy; try reflexivity; discriminate);
    try discriminate.
  unfold valid_binary, bounded in Hvx, Hvy.
  apply andb_true_iff in Hvx as [Hcx _]. apply andb_true_iff in Hvy as [Hcy _].
  apply canonical_inv in Hcx as (Hlx & Hex & Hnx).
  apply canonical_inv in Hcy as (Hly & Hey & Hny).
  intros Hcmp.
  pose proof (shl_align_value mx ex (Z.min ex ey) ltac:(lia)) as HA.
  pose proof (shl_align_value my ey (Z.min ex ey) ltac:(lia)) as HB.
  set (A := fst (shl_align mx ex (Z.min ex ey))) in *.
  set (B := fst (shl_align my ey (Z.min ex ey))) in *.
  assert (Hz : cond_Zopp sx (Zpos A) - cond_Zopp sy (Zpos B) <= 0).
  { destruct sx, sy; cbn [cond_Zopp]; try discriminate; try lia.
    - destruct (Z.compare_spec ex ey) as [->|Hlt|Hgt]; try discriminate.
      + rewrite Z.min_id, Z.sub_diag, Z.mul_1_r in HA, HB.
        change (Pos.compare_cont Eq mx my) with (Pos.compare mx my) in Hcmp.
        destruct (Pos.compare_spec mx my); try discriminate; lia.
      + rewrite Z.min_r in HA, HB by lia. rewrite Z.sub_diag, Z.mul_1_r in HB.
        pose proof (aligned_lt my mx (ex - ey) Hly ltac:(lia) ltac:(lia)). lia.
    - destruct (Z.compare_spec ex ey) as [->|Hlt|Hgt]; try discriminate.
      + rewrite Z.min_id, Z.sub_diag, Z.mul_1_r in HA, HB.
        change (Pos.compare_cont Eq mx my) with (Pos.compare mx my) in Hcmp.
        destruct (Pos.compare_spec mx my); try discriminate; lia.
      + rewrite Z.min_l in HA, HB by lia. rewrite Z.sub_diag, Z.mul_1_r in HA.
        pose proof (aligned_lt mx my (ey - ex) Hlx ltac:(lia) ltac:(lia)). lia. }
  destruct (cond_Zopp sx (Zpos A) - cond_Zopp sy (Zpos B)) as [|p|p]; [reflexivity|lia|].
  cbn [binary_normalize]. unfold binary_round. destruct (shl_align p _ _).
  apply bra_not_positive.
Qed.

Lemma sub_not_positive_of_le a b : (a <=? b)%float = true -> (0 <? a - b)%float = false.
Proof.
  rewrite FloatAxioms.leb_spec, FloatAxioms.ltb_spec, sub_spec.
  apply SFsub_not_positive_of_le; apply Prim2SF_valid.
Qed.

Lemma SFltb_leb_trans x y z : SFltb x y = true -> SFleb y z = true -> SFltb x z = true.
Proof.
  unfold SFleb, SFltb, SFcompare.
  destruct x as [[]|[]| |[] m1 e1], y as [[]|[]| |[] m2 e2], z as [[]|[]| |[] m3 e3];
    simpl; try congruence; intros H1 H2; cmp_cases; simpl in *; try congruence; try lia.
Qed.

Lemma ltb_leb_trans a b c :
  (a <? b)%float = true -> (b <=? c)%float = true -> (a <? c)%float = true.
Proof. rewrite !FloatAxioms.ltb_spec, FloatAxioms.leb_spec. apply SFltb_leb_trans. Qed.

(** Nothing without a minus sign is below a bound that is at most zero. *)
Lemma nonneg_not_below x c :
  nonneg x = true -> (c <=? 0)%float = true -> (x <? c)%float = false.
Proof.
  unfold nonneg. rewrite FloatAxioms.leb_spec, FloatAxioms.ltb_spec.
  change (Prim2SF 0) with (S754_zero false).
  unfold SFleb, SFltb, SFcompare.
  destruct (Prim2SF x) as [[]|[]| |[] m1 e1], (Prim2SF c) as [[]|[]| |[] m2 e2];
    simpl; congruence.
Qed.

End ComparisonChains.


(** ** The gate over several calls *)

(** X8.  After a call that spoke, the same phrase is refused exactly as
    long as the time since that call is below the cooldown; a refusal
    leaves the stored time where it was. *)
Theorem should_speak_repeat phrase cd t st cd' t' :
  (should_speak phrase cd t st).1 = true ->
  should_speak phrase cd' t' (should_speak phrase cd t st).2
  = (negb (t' - t <? cd')%float,
     {| last_phrase := phrase;
        last_time := if (t' - t <? cd')%float then t else t' |}).
Proof.
  unfold should_speak.
  destruct (String.eqb phrase (last_phrase st) && (t - last_time st <? cd)%float);
    [discriminate|]. intros _. cbn [snd last_phrase last_time].
  rewrite String.eqb_refl. cbn [andb].
  destruct (t' - t <? cd')%float; reflexivity.
Qed.

Lemma should_speak_repeat_witness :
  should_speak "a" 3 11 (should_speak "a" 3 10 LAST).2
  = (negb (11 - 10 <? 3)%float,
     {| last_phrase := "a"; last_time := if (11 - 10 <? 3)%float then 10 else 11 |}).
Proof. apply (should_speak_repeat "a" 3 10 LAST 3 11). reflexivity. Defined.

(** X9.  A phrase other than the last one always speaks, so two
    phrases in turn are never held back, however short the delay: the gate
    remembers one phrase only. *)
Theorem should_speak_alternating p q st c1 t1 c2 t2 c3 t3 :
  p <> q ->
  let st1 := (should_speak p c1 t1 st).2 in
  let st2 := (should_speak q c2 t2 st1).2 in
  last_phrase st1 = p /\
  should_speak q c2 t2 st1 = (true, {| last_phrase := q; last_time := t2 |}) /\
  should_speak p c3 t3 st2 = (true, {| last_phrase := p; last_time := t3 |}).
Proof.
  intros Hpq st1 st2.
  assert (H1 : last_phrase st1 = p).
  { unfold st1, should_speak.
    destruct (String.eqb p (last_phrase st)) eqn:E; cbn [andb]; [|reflexivity].
    apply String.eqb_eq in E.
    destruct (t1 - last_time st <? c1)%float; cbn; congruence. }
  assert (H2 : should_speak q c2 t2 st1 = (true, {| last_phrase := q; last_time := t2 |})).
  { unfold should_speak. rewrite H1.
    destruct (String.eqb q p) eqn:E; [apply String.eqb_eq in E; congruence|reflexivity]. }
  split; [assumption|]. split; [assumption|].
  unfold st2. rewrite H2. unfold should_speak. cbn [snd last_phrase].
  destruct (String.eqb p q) eqn:E; [apply String.eqb_eq in E; congruence|reflexivity].
Qed.

Lemma should_speak_alternating_witness :
  last_phrase (should_speak "a" 3 10 LAST).2 = "a" /\
  should_speak "b" 3 10 (should_speak "a" 3 10 LAST).2
  = (true, {| last_phrase := "b"; last_time := 10 |}) /\
  should_speak "a" 3 10 (should_speak "b" 3 10 (should_speak "a" 3 10 LAST).2).2
  = (true, {| last_phrase := "a"; last_time := 10 |}).
Proof. apply (should_speak_alternating "a" "b" LAST 3 10 3 10 3 10). discriminate. Defined.

(** X10.  A cooldown of zero or less switches the gate off, as long as
    the clock has not gone back. *)
Theorem should_speak_no_cooldown phrase cd now st :
  (cd <=? 0)%float = true -> (last_time st <=? now)%float = true ->
  should_speak phrase cd now st
  = (true, {| last_phrase := phrase; last_time := now |}).
Proof.
  intros Hcd Hclock. unfold should_speak.
  rewrite (nonneg_not_below (now - last_time st) cd); [|now apply sub_nonneg_of_le|assumption].
  now rewrite andb_false_r.
Qed.

Lemma should_speak_no_cooldown_witness :
  should_speak "" 0 5 LAST = (true, {| last_phrase := ""; last_time := 5 |}).
Proof. apply (should_speak_no_cooldown "" 0 5 LAST); reflexivity. Defined.

Section FiniteDifferences.
Local Open Scope Z_scope.

Lemma SFleb_ltb_trans x y z : SFleb x y = true -> SFltb y z = true -> SFltb x z = true.
Proof.
  unfold SFleb, SFltb, SFcompare.
  destruct x as [[]|[]| |[] m1 e1], y as [[]|[]| |[] m2 e2], z as [[]|[]| |[] m3 e3];
    simpl; try congruence; intros H1 H2; cmp_cases; simpl in *; try congruence; try lia.
Qed.

Lemma leb_ltb_trans a b c :
  (a <=? b)%float = true -> (b <? c)%float = true -> (a <? c)%float = true.
Proof. rewrite !FloatAxioms.ltb_spec, FloatAxioms.leb_spec. apply SFleb_ltb_trans. Qed.

Lemma is_finite_spec x :
  is_finite x = true ->
  (exists s, Prim2SF x = S754_zero s) \/ (exists s m e, Prim2SF x = S754_finite s m e).
Proof.
  unfold is_finite. rewrite negb_true_iff, orb_false_iff. intros [Hn Hi].
  apply is_nan_false in Hn. unfold is_infinity in Hi.
  rewrite FloatAxioms.eqb_spec, abs_spec in Hi.
  destruct (Prim2SF x) as [s|s| |s m e]; [left; now exists s| |congruence|right; now exists s, m, e].
  destruct s; discriminate Hi.
Qed.

(** The difference of two finite floats is never [nan]. *)
Lemma sub_finite_not_nan a b :
  is_finite a = true -> is_finite b = true -> is_nan (a - b) = false.
Proof.
  intros Ha Hb. apply is_nan_false. rewrite sub_spec.
  destruct (is_finite_spec a Ha) as [[sa Ea]|(sa & ma & ea & Ea)],
           (is_finite_spec b Hb) as [[sb Eb]|(sb & mb & eb & Eb)].
  - rewrite Ea, Eb. destruct sa, sb; discriminate.
  - rewrite Ea, Eb. discriminate.
  - rewrite Ea, Eb. discriminate.
  - destruct (Prim2SF_finite_inv _ _ _ _ Ea) as [Hca _].
    destruct (Prim2SF_finite_inv _ _ _ _ Eb) as [Hcb _].
    apply canonical_inv in Hca as (_ & Hea & _). apply canonical_inv in Hcb as (_ & Heb & _).
    rewrite Ea, Eb. unfold SF64sub, SFsub, binary_normalize.
    destruct (_ - _) as [|p|p]; [discriminate| |].
    + destruct (binary_round_spec false p (Z.min ea eb)) as (m2 & e2 & -> & _); [lia|].
      destruct (e2 <=? 971); discriminate.
    + destruct (binary_round_spec true p (Z.min ea eb)) as (m2 & e2 & -> & _); [lia|].
      destruct (e2 <=? 971); discriminate.
Qed.

End FiniteDifferences.


(** X11.  When the clock has gone back to or behind the stored time,
    the stored phrase is refused for every positive cooldown. *)
Theorem should_speak_clock_set_back cd now st :
  is_finite now = true -> is_finite (last_time st) = true ->
  (now <=? last_time st)%float = true -> (0 <? cd)%float = true ->
  should_speak (last_phrase st) cd now st = (false, st).
Proof.
  intros Hn Hl Hback Hcd. unfold should_speak. rewrite String.eqb_refl. cbn [andb].
  assert (Hx : (now - last_time st <=? 0)%float = true).
  { apply not_ltb_leb; [reflexivity|now apply sub_finite_not_nan|].
    now apply sub_not_positive_of_le. }
  now rewrite (leb_ltb_trans _ _ _ Hx Hcd).
Qed.

Lemma should_speak_clock_set_back_witness :
  should_speak "a" 3 5 {| last_phrase := "a"; last_time := 1000 |}
  = (false, {| last_phrase := "a"; last_time := 1000 |}).
Proof.
  apply (should_speak_clock_set_back 3 5 {| last_phrase := "a"; last_time := 1000 |});
    reflexivity.
Defined.

(** ** Descriptors: vocabulary, order, degenerate boxes, large frames *)

Lemma pos_word_inv cx w p :
  pos_word cx w = Ok p -> p = "слева" \/ p = "справа" \/ p = "по центру".
Proof.
  unfold pos_word. destruct (float_of_int _) as [m|]; [|discriminate].
  cbn [mbind result_bind]. destruct (float_truediv cx m) as [x|]; [|discriminate].
  cbn [mbind result_bind]. destruct (x <? 0.35)%float; [intros [= <-]; auto|].
  destruct (0.65 <? x)%float; intros [= <-]; auto.
Qed.

Lemma distance_word_cases r :
  distance_word r = "очень близко" \/ distance_word r = "близко" \/
  distance_word r = "на среднем расстоянии" \/ distance_word r = "далеко".
Proof.
  unfold distance_word. destruct (0.22 <? r)%float; [auto|].
  destruct (0.10 <? r)%float; [auto|]. destruct (0.04 <? r)%float; auto.
Qed.

(** X12.  The fields of a descriptor come from fixed vocabularies: the
    name is the label as [ru_label] gives it, the position is one of three
    words, the distance one of four, and the danger word is "опасно"
    exactly for the labels in [DANGER]. *)
Theorem describe_vocabulary obj w h a :
  describe obj w h = Ok a ->
  name a = ru_label (label obj) /\
  (pos a = "слева" \/ pos a = "справа" \/ pos a = "по центру") /\
  (dist a = "очень близко" \/ dist a = "близко" \/
   dist a = "на среднем расстоянии" \/ dist a = "далеко") /\
  (danger a = "опасно" /\ label obj ∈ DANGER \/
   danger a = "не опасно" /\ label obj ∉ DANGER).
Proof.
  unfold describe. destruct (bbox obj) as [[[x1 y1] x2] y2].
  destruct (area_ratio obj w h) as [r|]; [|discriminate]. cbn [mbind result_bind].
  destruct (pos_word _ w) as [p|] eqn:Ep; [|discriminate]. cbn [mbind result_bind].
  intros [= <-]. cbn [name pos dist danger].
  split; [reflexivity|]. split; [eapply pos_word_inv; exact Ep|].
  split; [apply distance_word_cases|].
  unfold danger_word. destruct (decide (label obj ∈ DANGER)); auto.
Qed.

Lemma describe_vocabulary_witness :
  let a := {| name := "машина"; pos := "слева"; dist := "близко"; danger := "опасно" |} in
  name a = ru_label (label car_det) /\
  (pos a = "слева" \/ pos a = "справа" \/ pos a = "по центру") /\
  (dist a = "очень близко" \/ dist a = "близко" \/
   dist a = "на среднем расстоянии" \/ dist a = "далеко") /\
  (danger a = "опасно" /\ label car_det ∈ DANGER \/
   danger a = "не опасно" /\ label car_det ∉ DANGER).
Proof.
  apply (describe_vocabulary car_det 640 480). vm_compute. reflexivity.
Defined.

(** X13.  A larger area ratio never reads as farther away. *)
Theorem distance_word_monotone r1 r2 :
  (r1 <=? r2)%float = true ->
  (closeness (distance_word r1) <= closeness (distance_word r2))%nat.
Proof.
  intros Hle. unfold distance_word.
  destruct (0.22 <? r1)%float eqn:E1.
  { rewrite (ltb_leb_trans _ _ _ E1 Hle). reflexivity. }
  destruct (0.10 <? r1)%float eqn:E2.
  { rewrite (ltb_leb_trans _ _ _ E2 Hle). destruct (0.22 <? r2)%float; vm_compute; lia. }
  destruct (0.04 <? r1)%float eqn:E3.
  { rewrite (ltb_leb_trans _ _ _ E3 Hle).
    destruct (0.22 <? r2)%float; [vm_compute; lia|].
    destruct (0.10 <? r2)%float; vm_compute; lia. }
  change (closeness "далеко") with 0%nat. lia.
Qed.

Lemma distance_word_monotone_witness :
  (closeness (distance_word 0.05) <= closeness (distance_word 0.3))%nat.
Proof. apply (distance_word_monotone 0.05 0.3). reflexivity. Defined.

(** ** Degenerate boxes *)

Lemma null_nothing_below c x :
  null x = true -> (0 <? c)%float = true -> (c <? x)%float = false.
Proof.
  unfold null. rewrite !FloatAxioms.ltb_spec.
  change (Prim2SF 0) with (S754_zero false).
  unfold SFltb, SFcompare.
  destruct (Prim2SF x) as [[]|[]| |[] m1 e1], (Prim2SF c) as [[]|[]| |[] m2 e2];
    simpl; congruence.
Qed.

Lemma distance_word_null r : null r = true -> distance_word r = "далеко".
Proof.
  intros Hr. unfold distance_word.
  rewrite !(null_nothing_below _ r Hr) by reflexivity. reflexivity.
Qed.

Lemma py_max_0_not_positive v : (0 <? v)%float = false -> py_max 0 v = 0%float.
Proof. unfold py_max. now intros ->. Qed.

Lemma mul_0_l y : null (0 * y) = true.
Proof.
  unfold null. rewrite mul_spec. change (Prim2SF 0) with (S754_zero false).
  destruct (Prim2SF y) as [s|s| |s m e]; reflexivity.
Qed.

Lemma mul_0_r y : null (y * 0) = true.
Proof.
  unfold null. rewrite mul_spec. change (Prim2SF 0) with (S754_zero false).
  destruct (Prim2SF y) as [s|s| |s m e]; reflexivity.
Qed.

Lemma null_div x m : null x = true -> (m =? 0)%float = false -> null (x / m) = true.
Proof.
  unfold null. rewrite FloatAxioms.eqb_spec, div_spec.
  change (Prim2SF 0) with (S754_zero false).
  destruct (Prim2SF x) as [s|s| |s mx ex], (Prim2SF m) as [s'|s'| |s' mm em];
    try reflexivity; try discriminate.
Qed.

(** The area of a box with its corners swapped on either axis. *)
Lemma bbox_area_inverted x1 y1 x2 y2 :
  (x2 <=? x1)%float = true \/ (y2 <=? y1)%float = true ->
  null (bbox_area (x1, y1, x2, y2)) = true.
Proof.
  unfold bbox_area. intros [H|H]; apply sub_not_positive_of_le in H;
    rewrite (py_max_0_not_positive _ H);
    [apply mul_0_l|apply mul_0_r].
Qed.

(** X14.  A box with its corners swapped on either axis has a null area
    (zero, or [nan] when the other side is infinite), and is told as far
    away ("далеко"). *)
Theorem describe_inverted obj w h a x1 y1 x2 y2 :
  bbox obj = (x1, y1, x2, y2) ->
  (x2 <=? x1)%float = true \/ (y2 <=? y1)%float = true ->
  describe obj w h = Ok a ->
  null (bbox_area (bbox obj)) = true /\ dist a = "далеко".
Proof.
  intros Hb Hinv Hd. pose proof (bbox_area_inverted x1 y1 x2 y2 Hinv) as Hnull.
  rewrite <- Hb in Hnull. split; [assumption|]. revert Hd.
  unfold describe, area_ratio. rewrite Hb.
  destruct (float_of_int (Z.max (w * h) 1)) as [m|] eqn:Em; [|discriminate].
  cbn [mbind result_bind].
  destruct (float_of_int_pos (Z.max (w * h) 1) m ltac:(lia) Em) as [Hm _].
  unfold float_truediv at 1. rewrite Hm. cbn [mbind result_bind].
  destruct (pos_word _ w) as [p|]; [|discriminate]. cbn [mbind result_bind].
  intros [= <-]. cbn [dist]. apply distance_word_null.
  rewrite Hb in Hnull. now apply null_div.
Qed.

Lemma describe_inverted_witness :
  null (bbox_area (bbox inverted_det)) = true /\
  dist {| name := "собака"; pos := "слева"; dist := "далеко"; danger := "не опасно" |}
  = "далеко".
Proof.
  apply (describe_inverted inverted_det 640 480 _ 300 300 100 100);
    [reflexivity|left; reflexivity|vm_compute; reflexivity].
Defined.

(** ** Boxes with a coordinate that is not a number *)

Lemma nan_add x y : is_nan x = true \/ is_nan y = true -> is_nan (x + y) = true.
Proof.
  rewrite !is_nan_spec, add_spec. intros [->| ->]; [reflexivity|].
  destruct (Prim2SF x); reflexivity.
Qed.

Lemma nan_sub x y : is_nan x = true \/ is_nan y = true -> is_nan (x - y) = true.
Proof.
  rewrite !is_nan_spec, sub_spec. intros [->| ->]; [reflexivity|].
  destruct (Prim2SF x); reflexivity.
Qed.

Lemma nan_div x y : is_nan x = true -> is_nan (x / y) = true.
Proof. rewrite !is_nan_spec, div_spec. intros ->. reflexivity. Qed.

Lemma nan_compares_false x c : is_nan x = true -> (x <? c)%float = false /\ (c <? x)%float = false.
Proof.
  rewrite is_nan_spec, !FloatAxioms.ltb_spec. intros ->.
  split; [reflexivity|]. unfold SFltb, SFcompare. destruct (Prim2SF c); reflexivity.
Qed.

(** X15.  A box with an [x] coordinate that is [nan] is told as in the
    centre ("по центру") and far away ("далеко"). *)
Theorem describe_nan_box obj w h a x1 y1 x2 y2 :
  bbox obj = (x1, y1, x2, y2) ->
  is_nan x1 = true \/ is_nan x2 = true ->
  describe obj w h = Ok a ->
  pos a = "по центру" /\ dist a = "далеко".
Proof.
  intros Hb Hnan. unfold describe, area_ratio. rewrite Hb.
  destruct (float_of_int (Z.max (w * h) 1)) as [m|] eqn:Em; [|discriminate].
  cbn [mbind result_bind].
  destruct (float_of_int_pos (Z.max (w * h) 1) m ltac:(lia) Em) as [Hm _].
  unfold float_truediv at 1. rewrite Hm. cbn [mbind result_bind].
  unfold pos_word.
  destruct (float_of_int (Z.max w 1)) as [mw|] eqn:Ew; [|discriminate].
  cbn [mbind result_bind].
  destruct (float_of_int_pos (Z.max w 1) mw ltac:(lia) Ew) as [Hmw _].
  unfold float_truediv. rewrite Hmw. cbn [mbind result_bind].
  assert (Hx : is_nan ((x1 + x2) / 2 / mw) = true) by (do 2 apply nan_div; now apply nan_add).
  destruct (nan_compares_false _ 0.35 Hx) as [-> _].
  destruct (nan_compares_false _ 0.65 Hx) as [_ ->].
  intros [= <-]. cbn [pos dist]. split; [reflexivity|].
  apply distance_word_null, null_div; [|assumption].
  unfold bbox_area.
  assert (Hd : is_nan (x2 - x1) = true) by (apply nan_sub; tauto).
  destruct (nan_compares_false _ 0 Hd) as [_ H0].
  rewrite (py_max_0_not_positive _ H0). apply mul_0_l.
Qed.

Lemma describe_nan_box_witness :
  pos {| name := "cow"; pos := "по центру"; dist := "далеко"; danger := "не опасно" |}
  = "по центру" /\
  dist {| name := "cow"; pos := "по центру"; dist := "далеко"; danger := "не опасно" |}
  = "далеко".
Proof.
  apply (describe_nan_box {| label := "cow"; conf := 0.5; bbox := (nan, 0, 10, 10)%float |}
           640 480 _ nan 0 10 10);
    [reflexivity|left; reflexivity|vm_compute; reflexivity].
Defined.

(** ** When [describe] fails *)

Section Limits.
Local Open Scope Z_scope.

Lemma round_int_too_large z e :
  z <> 0 -> -1074 <= e -> 1024 <= Z.log2 (Z.abs z) + e ->
  round_int z e = Raise OverflowError.
Proof.
  intros Hnz He Hz. unfold round_int, binary_normalize.
  destruct z as [|p|p]; [contradiction| |]; change (Z.abs _) with (Zpos p) in Hz.
  - destruct (binary_round_ge false p e He) as (m2 & e2 & H & Hge).
    destruct (binary_round_spec false p e He) as (m3 & e3 & H' & Hc & _).
    rewrite H in H'. rewrite H.
    destruct (e2 <=? 971) eqn:E2; [|reflexivity]. exfalso.
    destruct (e3 <=? 971) eqn:E3; [|discriminate].
    injection H' as -> ->. apply canonical_inv in Hc as (Hl & _ & _).
    apply Z.leb_le in E2. lia.
  - destruct (binary_round_ge true p e He) as (m2 & e2 & H & Hge).
    destruct (binary_round_spec true p e He) as (m3 & e3 & H' & Hc & _).
    rewrite H in H'. rewrite H.
    destruct (e2 <=? 971) eqn:E2; [|reflexivity]. exfalso.
    destruct (e3 <=? 971) eqn:E3; [|discriminate].
    injection H' as -> ->. apply canonical_inv in Hc as (Hl & _ & _).
    apply Z.leb_le in E2. lia.
Qed.

Lemma float_of_int_too_large z :
  float_limit <= z -> float_of_int (Z.max z 1) = Raise OverflowError.
Proof.
  intros Hz. assert (H1 : 0 < float_limit) by reflexivity.
  apply round_int_too_large; [lia|lia|].
  rewrite Z.max_l, Z.abs_eq, Z.add_0_r by lia.
  change 1024 with (Z.log2 float_limit). apply Z.log2_le_mono. assumption.
Qed.

End Limits.

Lemma describe_returns_iff obj w h :
  returns (describe obj w h) <->
  returns (float_of_int (Z.max w 1)) /\ returns (float_of_int (Z.max (w * h) 1)).
Proof.
  unfold describe, area_ratio, pos_word. destruct (bbox obj) as [[[x1 y1] x2] y2].
  destruct (float_of_int (Z.max (w * h) 1)) as [m|] eqn:Em; cbn [mbind result_bind].
  2:{ split; [intros [? [=]]|intros [_ [? [=]]]]. }
  rewrite (div_by_int_ok _ (Z.max (w * h) 1) m ltac:(lia) Em). cbn [mbind result_bind].
  destruct (float_of_int (Z.max w 1)) as [mw|] eqn:Ew; cbn [mbind result_bind].
  2:{ split; [intros [? [=]]|intros [[? [=]] _]]. }
  rewrite (div_by_int_ok _ (Z.max w 1) mw ltac:(lia) Ew). cbn [mbind result_bind].
  split; [intros _; split; eexists; reflexivity|intros _].
  destruct (_ <? 0.35)%float; [now eexists|]. destruct (0.65 <? _)%float; now eexists.
Qed.

(** X16.  Whether [describe] fails is decided by the frame alone: it
    returns exactly when [max(w, 1)] and [max(w * h, 1)] convert to floats,
    whatever the detection. *)
Theorem describe_fails_by_frame obj obj' w h :
  (returns (describe obj w h) <-> returns (describe obj' w h)) /\
  (returns (describe obj w h) <->
   returns (float_of_int (Z.max w 1)) /\ returns (float_of_int (Z.max (w * h) 1))).
Proof.
  split; [|apply describe_returns_iff]. now rewrite !describe_returns_iff.
Qed.

(** X17.  In a frame of width or area [2^1024] or more, nothing can be
    described: [describe] raises [OverflowError] for every detection. *)
Theorem describe_frame_too_large obj w h :
  (float_limit <= w)%Z \/ (float_limit <= w * h)%Z ->
  describe obj w h = Raise OverflowError.
Proof.
  intros Hbig. destruct (describe obj w h) as [a|e] eqn:E.
  - exfalso. assert (Hr : returns (describe obj w h)) by (now exists a).
    apply describe_returns_iff in Hr as [[mw Hw] [m Hm]].
    destruct Hbig as [H|H]; apply float_of_int_too_large in H; congruence.
  - f_equal. eapply describe_raise; exact E.
Qed.

Lemma describe_frame_too_large_witness :
  describe car_det (2 ^ 1024) 0 = Raise OverflowError.
Proof. apply describe_frame_too_large. left. reflexivity. Defined.

(** ** The label table *)

Lemma RU_LABELS_values x v : RU_LABELS !! x = Some v -> RU_LABELS !! v = None.
Proof.
  intros H. apply elem_of_list_to_map_2 in H.
  repeat (apply elem_of_cons in H as [[= -> ->]|H]; [vm_compute; reflexivity|]).
  now apply elem_of_nil in H.
Qed.

Lemma DANGER_cases l :
  l ∈ DANGER ->
  l = "car" \/ l = "bus" \/ l = "truck" \/ l = "motorcycle" \/ l = "bicycle".
Proof. unfold DANGER. rewrite !elem_of_union, !elem_of_singleton. tauto. Qed.

(** X18.  Every dangerous class has a Russian name in the table, so a
    dangerous object is never named by its raw label; and no name in the
    table is itself a key, so translating twice is translating once. *)
Theorem ru_label_table :
  (forall l, l ∈ DANGER -> RU_LABELS !! l = Some (ru_label l) /\ ru_label l <> l) /\
  (forall x, ru_label (ru_label x) = ru_label x).
Proof.
  split.
  - intros l Hl. apply DANGER_cases in Hl.
    destruct Hl as [->|[->|[->|[->| ->]]]]; (split; [vm_compute; reflexivity|discriminate]).
  - intros x. unfold ru_label. destruct (RU_LABELS !! x) as [v|] eqn:E; cbn [from_option id].
    + now rewrite (RU_LABELS_values x v E).
    + now rewrite E.
Qed.

(** ** Sentences *)

Lemma make_phrase_inv objs w h p :
  make_phrase objs w h = Ok p ->
  (objs = [] /\ p = no_objects) \/
  (exists o objs' rest, objs = o :: objs' /\ p = "Перед вами " +:+ rest).
Proof.
  unfold make_phrase. destruct objs as [|o1 objs]; [intros [= <-]; now left|].
  intros Hp. right. exists o1, objs. revert Hp.
  destruct (describe o1 w h) as [a|]; [|discriminate]. cbn [mbind result_bind].
  destruct objs as [|o2 objs].
  - intros [= <-]. eexists. split; reflexivity.
  - destruct (describe o2 w h) as [b|]; [|discriminate]. cbn [mbind result_bind].
    intros [= <-]. eexists. split; [reflexivity|].
    cbn [String.append]. reflexivity.
Qed.

Lemma make_phrase_nil_iff objs w h :
  make_phrase objs w h = Ok no_objects <-> objs = [].
Proof.
  split; [|intros ->; reflexivity].
  intros H. destruct (make_phrase_inv objs w h _ H) as [[-> _]|(o & objs' & rest & _ & Hp)];
    [reflexivity|].
  exfalso. unfold no_objects in Hp. cbn [String.append] in Hp. discriminate Hp.
Qed.

Lemma make_phrase_not_empty objs w h p : make_phrase objs w h = Ok p -> p <> "".
Proof.
  intros H. destruct (make_phrase_inv objs w h _ H) as [[_ ->]|(o & objs' & rest & _ & ->)];
    discriminate.
Qed.

(** X19.  The fallback sentence is said for the empty selection and for
    no other. *)
Theorem make_phrase_fallback_iff objs w h :
  make_phrase objs w h = Ok no_objects <-> objs = [].
Proof. apply make_phrase_nil_iff. Qed.

(** X20.  No sentence of [make_phrase] is empty; so on the initial state
    of the gate the first sentence is spoken, whatever the clock and the
    cooldown. *)
Theorem first_sentence_is_spoken objs w h p cooldown_sec now :
  make_phrase objs w h = Ok p ->
  p <> "" /\
  should_speak p cooldown_sec now LAST
  = (true, {| last_phrase := p; last_time := now |}).
Proof.
  intros H. apply make_phrase_not_empty in H. split; [assumption|].
  unfold should_speak. cbn [LAST last_phrase].
  destruct (String.eqb p "") eqn:E; [apply String.eqb_eq in E; contradiction|reflexivity].
Qed.

Lemma first_sentence_is_spoken_witness :
  no_objects <> "" /\
  should_speak no_objects 3 1 LAST
  = (true, {| last_phrase := no_objects; last_time := 1 |}).
Proof. apply (first_sentence_is_spoken [] 0 0 no_objects 3 1). reflexivity. Defined.

(** X21.  At most two objects are told: the sentence for a longer list is
    that of its first two objects, and it is the sentence for the first
    object followed by a space and the "Также ..." sentence of the second. *)
Theorem make_phrase_two o1 o2 rest w h p :
  make_phrase (o1 :: o2 :: rest) w h = Ok p ->
  make_phrase [o1; o2] w h = Ok p /\
  exists p1 b,
    make_phrase [o1] w h = Ok p1 /\ describe o2 w h = Ok b /\
    p = p1 +:+ " " +:+ "Также " +:+ name b +:+ ", " +:+ pos b +:+ ", " +:+ dist b
          +:+ ". Это " +:+ danger b +:+ ".".
Proof.
  intros H. split; [exact H|]. revert H. unfold make_phrase.
  destruct (describe o1 w h) as [a|]; [|discriminate]. cbn [mbind result_bind].
  destruct (describe o2 w h) as [b|]; [|discriminate]. cbn [mbind result_bind].
  intros [= <-]. eexists _, b. split; [reflexivity|]. split; reflexivity.
Qed.

Lemma make_phrase_two_witness :
  make_phrase [car_det; person_det] 640 480
  = Ok "Перед вами машина, слева, близко. Это опасно. Также человек, слева, близко. Это не опасно." /\
  exists p1 b,
    make_phrase [car_det] 640 480 = Ok p1 /\ describe person_det 640 480 = Ok b /\
    "Перед вами машина, слева, близко. Это опасно. Также человек, слева, близко. Это не опасно."
    = p1 +:+ " " +:+ "Также " +:+ name b +:+ ", " +:+ pos b +:+ ", " +:+ dist b
          +:+ ". Это " +:+ danger b +:+ ".".
Proof.
  apply (make_phrase_two car_det person_det [chair_det; bus_det] 640 480).
  vm_compute. reflexivity.
Defined.

(** X22.  The pipeline from detections to sentence says the fallback
    sentence exactly when nothing was detected. *)
Theorem narrate_fallback_iff {R : Runtime} {C : Conforms R} dets w h p :
  narrate dets w h = Ok p -> (p = no_objects <-> dets = []).
Proof.
  unfold narrate. destruct (rank_objects dets w h) as [ranked|] eqn:Er; [|discriminate].
  cbn [mbind result_bind]. intros Hp. apply rank_objects_perm in Er.
  split.
  - intros ->. apply (proj1 (make_phrase_nil_iff _ _ _)) in Hp.
    apply (proj1 (pick_nil_iff _)) in Hp. subst ranked.
    symmetry in Er. now apply Permutation.Permutation_nil in Er.
  - intros ->. apply Permutation.Permutation_nil in Er. subst ranked.
    cbn in Hp. now injection Hp as <-.
Qed.

Lemma narrate_fallback_iff_witness :
  "Перед вами машина, слева, близко. Это опасно." = no_objects <-> [car_det] = [].
Proof. apply (narrate_fallback_iff [car_det] 640 480). vm_compute. reflexivity. Defined.

(** ** The service *)

Lemma length_append a b :
  String.length (a +:+ b) = (String.length a + String.length b)%nat.
Proof. induction a as [|c a IH]; simpl; [reflexivity|now f_equal]. Qed.

Lemma append_inj_r a b s : a +:+ s = b +:+ s -> a = b.
Proof.
  revert b. induction a as [|c a IH]; intros [|c' b] H.
  - reflexivity.
  - exfalso. apply (f_equal String.length) in H.
    rewrite !length_append in H. simpl in H. lia.
  - exfalso. apply (f_equal String.length) in H.
    rewrite !length_append in H. simpl in H. lia.
  - simpl in H. injection H as -> H. f_equal. now apply IH.
Qed.

Lemma detect_from_image_bytes_inv {R : Runtime} {X : Externals} image_bytes p :
  detect_from_image_bytes image_bytes = Ok p ->
  exists w h boxes ranked,
    vision image_bytes = (w, h, boxes) /\
    rank_objects (detections boxes) w h = Ok ranked /\
    make_phrase (pick_main_and_danger ranked) w h = Ok (phrase p) /\
    detected_count p = length (detections boxes) /\
    picked p = map (fun d => (label d, round3 (conf d))) (pick_main_and_danger ranked).
Proof.
  unfold detect_from_image_bytes. destruct (vision image_bytes) as [[w h] boxes].
  destruct (rank_objects _ w h) as [ranked|] eqn:Er; [|discriminate].
  cbn [mbind result_bind].
  destruct (make_phrase _ w h) as [ph|] eqn:Ep; [|discriminate].
  cbn [mbind result_bind]. intros [= <-]. now exists w, h, boxes, ranked.
Qed.

(** X23.  Both handlers refuse an upload without an ["image"] part with
    status 400 and "no image", and one whose image is empty with status 400
    and "empty image"; nothing is detected, spoken or stored. *)
Theorem bad_upload_refused {R : Runtime} {X : Externals} req s :
  (files req !! "image" = None ->
   predict_frame req s = (inr (ErrorBody "no image", 400%Z), s) /\
   predict_photo req s = (inr (ErrorBody "no image", 400%Z), s)) /\
  (files req !! "image" = Some [] ->
   predict_frame req s = (inr (ErrorBody "empty image", 400%Z), s) /\
   predict_photo req s = (inr (ErrorBody "empty image", 400%Z), s)).
Proof.
  unfold predict_frame, predict_photo. split; intros ->; split; reflexivity.
Qed.

Lemma bad_upload_refused_witness :
  (predict_frame (X := sample_externals) {| files := ∅; form := {[ "voice" := "1" ]} |} start
   = (inr (ErrorBody "no image", 400%Z), start) /\
   predict_photo (X := sample_externals) {| files := ∅; form := {[ "voice" := "1" ]} |} start
   = (inr (ErrorBody "no image", 400%Z), start)) /\
  (predict_frame (X := sample_externals)
     {| files := {[ "image" := [] ]}; form := {[ "voice" := "1" ]} |} start
   = (inr (ErrorBody "empty image", 400%Z), start) /\
   predict_photo (X := sample_externals)
     {| files := {[ "image" := [] ]}; form := {[ "voice" := "1" ]} |} start
   = (inr (ErrorBody "empty image", 400%Z), start)).
Proof.
  split.
  - apply (proj1 (bad_upload_refused (X := sample_externals)
                    {| files := ∅; form := {[ "voice" := "1" ]} |} start)).
    reflexivity.
  - apply (proj2 (bad_upload_refused (X := sample_externals)
                    {| files := {[ "image" := [] ]}; form := {[ "voice" := "1" ]} |} start)).
    reflexivity.
Defined.

(** X24.  Unless the form field ["voice"] is exactly "1", neither
    handler speaks: the state is as it was (the gate is not consulted, the
    clock is not read, no file is written) and the answer has an empty
    ["audio_url"]. *)
Theorem voice_off_changes_nothing {R : Runtime} {X : Externals} req s :
  form req !! "voice" <> Some "1" ->
  (predict_frame req s).2 = s /\ (predict_photo req s).2 = s /\
  forall p url code,
    (predict_frame req s).1 = inr (PayloadBody p url, code) \/
    (predict_photo req s).1 = inr (PayloadBody p url, code) ->
    url = "".
Proof.
  intros Hv. unfold predict_frame, predict_photo.
  rewrite (bool_decide_eq_false_2 _ Hv).
  destruct (files req !! "image") as [[|b bs]|]; cbn [fst snd];
    [split; [reflexivity|split; [reflexivity|intros p url code [[=]|[=]]]]| |
     split; [reflexivity|split; [reflexivity|intros p url code [[=]|[=]]]]].
  destruct (detect_from_image_bytes (b :: bs)) as [p|e]; cbn [fst snd].
  - split; [reflexivity|]. split; [reflexivity|]. intros p' url code [[=]|[=]]; now subst.
  - split; [reflexivity|]. split; [reflexivity|]. intros p' url code [[=]|[=]].
Qed.

Lemma voice_off_changes_nothing_witness :
  (predict_frame (X := sample_externals) (sample_request "0") start).2 = start /\
  (predict_photo (X := sample_externals) (sample_request "0") start).2 = start /\
  forall p url code,
    (predict_frame (X := sample_externals) (sample_request "0") start).1
    = inr (PayloadBody p url, code) \/
    (predict_photo (X := sample_externals) (sample_request "0") start).1
    = inr (PayloadBody p url, code) ->
    url = "".
Proof.
  apply (voice_off_changes_nothing (X := sample_externals) (sample_request "0") start).
  vm_compute. discriminate.
Defined.

(** X25.  An uploaded photo never touches the gate of the camera frames,
    whatever the request. *)
Theorem predict_photo_keeps_gate {R : Runtime} {X : Externals} req s :
  gate_of (predict_photo req s).2 = gate_of s.
Proof.
  unfold predict_photo.
  destruct (files req !! "image") as [[|b bs]|]; [reflexivity| |reflexivity].
  destruct (detect_from_image_bytes (b :: bs)) as [p|e]; [|reflexivity].
  destruct (bool_decide _); [|reflexivity].
  unfold speak_ru, time_time. destruct (int_of_float _); [reflexivity|].
  cbn [ticks]. destruct (synthesis _ _); reflexivity.
Qed.

(** X26.  On a process that has just started, the first frame with the
    voice on passes the gate, which stores the sentence and the first clock
    reading before anything is spoken.  When the speech service then
    answers, the response has status 200 and the URL of the file named after
    the second reading, in milliseconds, and that file holds the sentence.
    When the speech service fails, its exception leaves the handler, no
    file holds a sentence, and the gate keeps the sentence that was never
    spoken. *)
Theorem first_frame_is_spoken {R : Runtime} {X : Externals} req b bs p ms :
  files req !! "image" = Some (b :: bs) ->
  form req !! "voice" = Some "1" ->
  detect_from_image_bytes (b :: bs) = Ok p ->
  int_of_float (clock 1 * 1000) = inr ms ->
  (synthesis 2 (phrase p) = Saved ->
   predict_frame req start
   = (inr (PayloadBody p ("/static/audio/say_" +:+ pretty ms +:+ ".mp3"), 200%Z),
      {| gate_of := {| last_phrase := phrase p; last_time := clock 0 |};
         audio := {[ "say_" +:+ pretty ms +:+ ".mp3" := phrase p ]};
         ticks := 2 |})) /\
  (synthesis 2 (phrase p) <> Saved ->
   predict_frame req start
   = (inl SynthesisError,
      {| gate_of := {| last_phrase := phrase p; last_time := clock 0 |};
         audio := ∅;
         ticks := 2 |})).
Proof.
  intros Hf Hv Hd Hms.
  assert (Hrun : predict_frame req start
    = match synthesis 2 (phrase p) with
      | Saved =>
          (inr (PayloadBody p ("/static/audio/say_" +:+ pretty ms +:+ ".mp3"), 200%Z),
           {| gate_of := {| last_phrase := phrase p; last_time := clock 0 |};
              audio := {[ "say_" +:+ pretty ms +:+ ".mp3" := phrase p ]};
              ticks := 2 |})
      | _ =>
          (inl SynthesisError,
           {| gate_of := {| last_phrase := phrase p; last_time := clock 0 |};
              audio := ∅;
              ticks := 2 |})
      end).
  { unfold predict_frame. rewrite Hf, Hd.
    rewrite (bool_decide_eq_true_2 _ Hv).
    destruct (detect_from_image_bytes_inv _ _ Hd)
      as (w & h & boxes & ranked & _ & _ & Hp & _).
    apply make_phrase_not_empty in Hp.
    unfold call_should_speak, time_time, should_speak, start.
    cbn [gate_of audio ticks LAST last_phrase].
    destruct (String.eqb (phrase p) "") eqn:Eq; [apply String.eqb_eq in Eq; contradiction|].
    cbn [andb]. unfold speak_ru, time_time. cbn [gate_of audio ticks]. rewrite Hms.
    destruct (synthesis 2 (phrase p)); reflexivity. }
  rewrite Hrun. split.
  - intros ->. reflexivity.
  - intros Hs. destruct (synthesis 2 (phrase p)); [contradiction|reflexivity|reflexivity].
Qed.

Lemma first_frame_is_spoken_witness :
  predict_frame (X := sample_externals) (sample_request "1") start
  = (inr (PayloadBody
            {| phrase := "Перед вами машина, слева, близко. Это опасно.";
               detected_count := 1; picked := [("car", 0.9%float)] |}
            "/static/audio/say_1700000000750.mp3", 200%Z),
     {| gate_of := {| last_phrase := "Перед вами машина, слева, близко. Это опасно.";
                      last_time := 1700000000.25 |};
        audio := {[ "say_1700000000750.mp3"
                    := "Перед вами машина, слева, близко. Это опасно." ]};
        ticks := 2 |}).
Proof.
  apply (first_frame_is_spoken (X := sample_externals) (sample_request "1") Byte.x00 []
           {| phrase := "Перед вами машина, слева, близко. Это опасно.";
              detected_count := 1; picked := [("car", 0.9%float)] |} 1700000000750);
    vm_compute; reflexivity.
Defined.

(** X27.  A frame that gives the sentence stored in the gate, less than
    three seconds after it was stored, is answered with status 200 and an
    empty ["audio_url"]; nothing is written, and the gate keeps its time. *)
Theorem repeated_frame_is_silent {R : Runtime} {X : Externals} req b bs p s :
  files req !! "image" = Some (b :: bs) ->
  form req !! "voice" = Some "1" ->
  detect_from_image_bytes (b :: bs) = Ok p ->
  last_phrase (gate_of s) = phrase p ->
  (clock (ticks s) - last_time (gate_of s) <? 3)%float = true ->
  predict_frame req s
  = (inr (PayloadBody p "", 200%Z),
     {| gate_of := gate_of s; audio := audio s; ticks := S (ticks s) |}).
Proof.
  intros Hf Hv Hd Hl Hc. unfold predict_frame. rewrite Hf, Hd.
  rewrite (bool_decide_eq_true_2 _ Hv).
  unfold call_should_speak, time_time, should_speak. cbn [gate_of audio ticks].
  rewrite Hl, String.eqb_refl, Hc. reflexivity.
Qed.

Lemma repeated_frame_is_silent_witness :
  predict_frame (X := sample_externals) (sample_request "1")
    (predict_frame (X := sample_externals) (sample_request "1") start).2
  = (inr (PayloadBody
            {| phrase := "Перед вами машина, слева, близко. Это опасно.";
               detected_count := 1; picked := [("car", 0.9%float)] |} "", 200%Z),
     {| gate_of := {| last_phrase := "Перед вами машина, слева, близко. Это опасно.";
                      last_time := 1700000000.25 |};
        audio := {[ "say_1700000000750.mp3"
                    := "Перед вами машина, слева, близко. Это опасно." ]};
        ticks := 3 |}).
Proof.
  refine (eq_trans
            (repeated_frame_is_silent (X := sample_externals) (sample_request "1") Byte.x00 []
               {| phrase := "Перед вами машина, слева, близко. Это опасно.";
                  detected_count := 1; picked := [("car", 0.9%float)] |}
               (predict_frame (X := sample_externals) (sample_request "1") start).2
               _ _ _ _ _) _);
    vm_compute; reflexivity.
Defined.

(** X28.  The URL that [speak_ru] returns is ["/static/audio/"] followed
    by the name of a file that holds the text; every other file, and the
    gate, are as they were. *)
Theorem speak_ru_round_trip {X : Externals} text s url s' :
  speak_ru text s = (inr url, s') ->
  exists filename,
    url = "/static/audio/" +:+ filename /\
    audio s' !! filename = Some text /\
    (forall other, other <> filename -> audio s' !! other = audio s !! other) /\
    gate_of s' = gate_of s /\ ticks s' = S (ticks s).
Proof.
  unfold speak_ru, time_time. destruct (int_of_float _) as [e|ms]; [discriminate|].
  cbn [ticks]. destruct (synthesis _ _); [|discriminate|discriminate].
  intros [= <- <-]. eexists. split; [reflexivity|]. cbn [audio gate_of ticks].
  split; [apply lookup_insert_eq|]. split; [|split; reflexivity].
  intros other Ho. now apply lookup_insert_ne.
Qed.

Lemma speak_ru_round_trip_witness :
  exists filename,
    "/static/audio/say_1700000000250.mp3" = "/static/audio/" +:+ filename /\
    audio {| gate_of := LAST; audio := {[ "say_1700000000250.mp3" := "да" ]}; ticks := 1 |}
      !! filename = Some "да" /\
    (forall other, other <> filename ->
       audio {| gate_of := LAST; audio := {[ "say_1700000000250.mp3" := "да" ]}; ticks := 1 |}
         !! other = audio start !! other) /\
    gate_of {| gate_of := LAST; audio := {[ "say_1700000000250.mp3" := "да" ]}; ticks := 1 |}
    = gate_of start /\
    ticks {| gate_of := LAST; audio := {[ "say_1700000000250.mp3" := "да" ]}; ticks := 1 |}
    = S (ticks start).
Proof.
  apply (speak_ru_round_trip (X := sample_externals) "да" start). vm_compute. reflexivity.
Defined.

(** X29.  Two calls of [speak_ru] name the same file exactly when their
    clock readings fall in the same millisecond (the second call then
    overwrites the file of the first). *)
Theorem speak_ru_same_file {X : Externals} t1 s1 u1 s1' t2 s2 u2 s2' :
  speak_ru t1 s1 = (inr u1, s1') -> speak_ru t2 s2 = (inr u2, s2') ->
  (u1 = u2 <->
   int_of_float (clock (ticks s1) * 1000) = int_of_float (clock (ticks s2) * 1000)).
Proof.
  unfold speak_ru, time_time. cbn [ticks].
  destruct (int_of_float (clock (ticks s1) * 1000)) as [e|ms1]; [discriminate|].
  destruct (int_of_float (clock (ticks s2) * 1000)) as [e|ms2]; [discriminate|].
  destruct (synthesis (S (ticks s1)) t1); [|discriminate|discriminate].
  destruct (synthesis (S (ticks s2)) t2); [|discriminate|discriminate].
  intros [= <- _] [= <- _]. split.
  - intros Hu. f_equal. apply (inj pretty).
    apply (inj (String.append "/static/audio/say_")) in Hu.
    now apply append_inj_r in Hu.
  - intros [= ->]. reflexivity.
Qed.

Lemma speak_ru_same_file_witness :
  "/static/audio/say_1700000000250.mp3" = "/static/audio/say_1700000000750.mp3" <->
  int_of_float (clock (Externals := sample_externals) 0 * 1000)
  = int_of_float (clock (Externals := sample_externals) 1 * 1000).
Proof.
  apply (speak_ru_same_file (X := sample_externals) "a" start _
           (speak_ru (X := sample_externals) "a" start).2
           "b" (speak_ru (X := sample_externals) "a" start).2 _
           (speak_ru (X := sample_externals) "b" (speak_ru (X := sample_externals) "a" start).2).2);
    vm_compute; reflexivity.
Defined.

(** X30.  In the payload, [detected_count] is the number of boxes of the
    detector; at most two objects are picked, never more than were detected,
    each with the label of a detection and its rounded confidence; nothing is
    picked exactly when nothing was detected, which is exactly when the
    phrase is the fallback sentence. *)
Theorem payload_invariants {R : Runtime} {C : Conforms R} {X : Externals} image_bytes p :
  detect_from_image_bytes image_bytes = Ok p ->
  detected_count p = length (detections (vision image_bytes).2) /\
  (length (picked p) <= 2)%nat /\ (length (picked p) <= detected_count p)%nat /\
  (picked p = [] <-> detected_count p = 0%nat) /\
  (phrase p = no_objects <-> detected_count p = 0%nat) /\
  (forall l c, (l, c) ∈ picked p ->
     exists d, d ∈ detections (vision image_bytes).2 /\ l = label d /\ c = round3 (conf d)).
Proof.
  intros Hd.
  destruct (detect_from_image_bytes_inv _ _ Hd) as (w & h & boxes & ranked & Hv & Hr & Hp & Hc & Hk).
  rewrite Hv. cbn [snd]. apply rank_objects_perm in Hr.
  pose proof (Permutation_length Hr) as Hlen.
  assert (Hsub : pick_main_and_danger ranked `sublist_of` ranked) by apply pick_sublist.
  assert (H2 : (length (pick_main_and_danger ranked) <= 2)%nat) by apply pick_length.
  rewrite Hk, Hc, length_map.
  split; [reflexivity|]. split; [assumption|].
  split; [rewrite Hlen; now apply sublist_length|].
  split; [|split].
  - rewrite Hlen. split.
    + intros E. apply map_eq_nil in E. apply (proj1 (pick_nil_iff _)) in E. now subst.
    + intros E. destruct ranked; [reflexivity|discriminate].
  - rewrite Hlen. split.
    + intros E. rewrite E in Hp. apply (proj1 (make_phrase_nil_iff _ _ _)) in Hp.
      apply (proj1 (pick_nil_iff _)) in Hp. now subst.
    + intros E. destruct ranked; [|discriminate]. cbn in Hp. now injection Hp.
  - intros l c Hin. apply list_elem_of_fmap in Hin as (d & [= -> ->] & Hin).
    exists d. split; [|split; reflexivity]. rewrite Hr.
    eapply elem_of_sublist; eassumption.
Qed.

Lemma payload_invariants_witness :
  let p := {| phrase := "Перед вами машина, слева, близко. Это опасно.";
              detected_count := 1; picked := [("car", 0.9%float)] |} in
  detected_count p = length (detections (X := sample_externals)
                               (vision (Externals := sample_externals) [Byte.x00]).2) /\
  (length (picked p) <= 2)%nat /\ (length (picked p) <= detected_count p)%nat /\
  (picked p = [] <-> detected_count p = 0%nat) /\
  (phrase p = no_objects <-> detected_count p = 0%nat) /\
  (forall l c, (l, c) ∈ picked p ->
     exists d, d ∈ detections (X := sample_externals)
                     (vision (Externals := sample_externals) [Byte.x00]).2 /\
               l = label d /\ c = round3 (Externals := sample_externals) (conf d)).
Proof.
  apply (payload_invariants (X := sample_externals) [Byte.x00]). vm_compute. reflexivity.
Defined.
